(** * Shapes layer: collection arrays, hit tests, interaction modes and
      stroke triangulation

    Embedding of
    - [napari/layers/_shapes_layer/shapes_list.py] ([ShapesList]),
    - [napari/layers/_shapes_layer/model.py] ([Shapes]),
    - [gui/layers/shapes_data/shapes_data.py] ([path_triangulate],
      [segment_normal], [_generate_ellipse], [_expand_box]).

    Numpy arrays are lists; an [Nx2] array is a list of pairs and a [Px3]
    array of vertex indices a list of triples.  Integer arrays hold [Z].
    A Python exception is the [None] of an [option]. *)

From Stdlib Require Import String ZArith List Bool Lia QArith Qabs Reals Lra.
From Stdlib Require Lqa.
Import ListNotations.

Set Implicit Arguments.

Open Scope Z_scope.

(** ** Numpy and Python list idioms *)

Module Np.

Notation "x <- e ;; k" := (match e with Some x => k | None => None end)
  (at level 61, e at next level, right associativity).

Definition len {A} (l : list A) : Z := Z.of_nat (length l).

(** [a[mask]]: boolean-mask selection.  Numpy raises [IndexError] when the
    mask and the array differ in length. *)
Fixpoint mask_get {A} (mask : list bool) (a : list A) : option (list A) :=
  match mask, a with
  | [], [] => Some []
  | b :: mask', x :: a' =>
      r <- mask_get mask' a' ;; Some (if b then x :: r else r)
  | _, _ => None
  end.

(** [np.where(mask)[0]]: the positions at which the mask holds. *)
Fixpoint where_from (k : Z) (mask : list bool) : list Z :=
  match mask with
  | [] => []
  | b :: mask' =>
      if b then k :: where_from (k + 1) mask' else where_from (k + 1) mask'
  end.

Definition where_ (mask : list bool) : list Z := where_from 0 mask.

(** An index [i] into a sequence of length [n], negative indices counting
    from the end; [None] is [IndexError]. *)
Definition py_index (n : nat) (i : Z) : option nat :=
  if (0 <=? i) && (i <? Z.of_nat n) then Some (Z.to_nat i)
  else if (- Z.of_nat n <=? i) && (i <? 0) then Some (Z.to_nat (Z.of_nat n + i))
  else None.

(** [l[i]] *)
Definition py_get {A} (l : list A) (i : Z) : option A :=
  k <- py_index (length l) i ;; nth_error l k.

(** [del l[i]] and [np.delete(l, i)] *)
Definition py_del {A} (l : list A) (i : Z) : option (list A) :=
  k <- py_index (length l) i ;; Some (firstn k l ++ skipn (S k) l).

(** [l[i] = x] *)
Definition py_set {A} (l : list A) (i : Z) (x : A) : option (list A) :=
  k <- py_index (length l) i ;; Some (firstn k l ++ x :: skipn (S k) l).

(** [a[a > t] = a[a > t] - d], on one entry. *)
Definition shift_above (t d v : Z) : Z := if v >? t then v - d else v.

Abbreviation tri := (Z * Z * Z)%type (only parsing).

Definition tri_map (f : Z -> Z) (t : tri) : tri :=
  let '(a, b, c) := t in (f a, f b, f c).

Definition tri_all (P : Z -> Prop) (t : tri) : Prop :=
  let '(a, b, c) := t in P a /\ P b /\ P c.

(** The first column of an index row [[shape_index, mesh_type]]. *)
Abbreviation tag := (Z * Z)%type (only parsing).

Definition tag_map (f : Z -> Z) (t : tag) : tag := (f (fst t), snd t).

End Np.

Import Np.

(** ** [ShapesList]: the flattened arrays of all shapes *)

Section Collection.

(** Coordinates are floats in the source; the collection only adds and
    scales them, so it is stated over any coordinate type with those two
    operations.  Colours are opaque RGBA rows. *)
Variable coord : Type.
Variable cadd cmul : coord -> coord -> coord.
Variable rgba : Type.

Abbreviation pt := (coord * coord)%type (only parsing).

(** The attributes of a [Shape] that [ShapesList] reads (the class itself is
    in [shape.py]). *)
Record Shape := mkShape {
  data : list pt;
  edge_width : coord;
  z_order : Z;
  edge_color : rgba;
  face_color : rgba;
  _edge_vertices : list pt;
  _edge_offsets : list pt;
  _edge_triangles : list tri;
  _face_vertices : list pt;
  _face_triangles : list tri
}.

Record ShapesList := mkShapesList {
  shapes : list Shape;
  _vertices : list pt;
  _index : list Z;
  _z_order : list Z;
  _mesh_vertices : list pt;
  _mesh_vertices_index : list tag;
  _mesh_triangles : list tri;
  _mesh_triangles_index : list tag;
  _mesh_triangles_colors : list rgba;
  _mesh_triangles_z_order : list Z
}.

(** [remove_all] / the arrays set up by [__init__]. *)
Definition empty : ShapesList :=
  mkShapesList [] [] [] [] [] [] [] [] [] [].

(** [shape._edge_vertices + shape.edge_width*shape._edge_offsets], with
    numpy's broadcasting of a one-row operand; other length mismatches raise. *)
Definition scale_pt (w : coord) (p : pt) : pt := (cmul w (fst p), cmul w (snd p)).
Definition add_pt (p q : pt) : pt := (cadd (fst p) (fst q), cadd (snd p) (snd q)).

Fixpoint zip_add (a b : list pt) : list pt :=
  match a, b with
  | p :: a', q :: b' => add_pt p q :: zip_add a' b'
  | _, _ => []
  end.

Definition broadcast_add (a b : list pt) : option (list pt) :=
  if Nat.eqb (length a) (length b) then Some (zip_add a b)
  else match a, b with
       | [p], _ => Some (map (add_pt p) b)
       | _, [q] => Some (map (fun p => add_pt p q) a)
       | _, _ => None
       end.

Definition edge_mesh_vertices (shape : Shape) : option (list pt) :=
  broadcast_add (_edge_vertices shape)
                (map (scale_pt (edge_width shape)) (_edge_offsets shape)).

(** [ShapesList.add] *)
Definition add (s : ShapesList) (shape : Shape) (shape_index : option Z)
  : option ShapesList :=
  r <- match shape_index with
       | None => Some (len (shapes s), shapes s ++ [shape],
                       _z_order s ++ [z_order shape])
       | Some i =>
           sh <- py_set (shapes s) i shape ;;
           zo <- py_set (_z_order s) i (z_order shape) ;;
           Some (i, sh, zo)
       end ;;
  let '(shape_index, shapes', z_order') := r in
  let vertices' := _vertices s ++ data shape in
  let index' := _index s ++ repeat shape_index (length (data shape)) in
  (* Add edges to mesh *)
  let m := len (_mesh_vertices s) in
  vertices <- edge_mesh_vertices shape ;;
  let mv1 := _mesh_vertices s ++ vertices in
  let mvi1 := _mesh_vertices_index s ++ repeat (shape_index, 1) (length vertices) in
  let triangles := map (tri_map (fun v => v + m)) (_edge_triangles shape) in
  let mt1 := _mesh_triangles s ++ triangles in
  let mti1 := _mesh_triangles_index s ++ repeat (shape_index, 1) (length triangles) in
  let mtc1 := _mesh_triangles_colors s ++ repeat (edge_color shape) (length triangles) in
  let mtz1 := _mesh_triangles_z_order s ++ repeat (z_order shape) (length triangles) in
  (* Add faces to mesh *)
  let m := len mv1 in
  let vertices := _face_vertices shape in
  let mv2 := mv1 ++ vertices in
  let mvi2 := mvi1 ++ repeat (shape_index, 0) (length vertices) in
  let triangles := map (tri_map (fun v => v + m)) (_face_triangles shape) in
  let mt2 := mt1 ++ triangles in
  let mti2 := mti1 ++ repeat (shape_index, 0) (length triangles) in
  let mtc2 := mtc1 ++ repeat (face_color shape) (length triangles) in
  let mtz2 := mtz1 ++ repeat (z_order shape) (length triangles) in
  Some (mkShapesList shapes' vertices' index' z_order' mv2 mvi2 mt2 mti2 mtc2 mtz2).

(** [x != index] over an integer array / over column 0 of an index array. *)
Definition neq_mask (index : Z) (a : list Z) : list bool :=
  map (fun j => negb (j =? index)) a.

Definition col0 (a : list tag) : list Z := map fst a.

(** [ShapesList.remove_one].  The method updates its arrays in place; when it
    raises, this model reports only the exception. *)
Definition remove_one (s : ShapesList) (index : Z) (renumber : bool)
  : option ShapesList :=
  let indices := neq_mask index (_index s) in
  vertices' <- mask_get indices (_vertices s) ;;
  index' <- mask_get indices (_index s) ;;
  (* Remove triangles *)
  let indices := neq_mask index (col0 (_mesh_triangles_index s)) in
  mt <- mask_get indices (_mesh_triangles s) ;;
  mtc <- mask_get indices (_mesh_triangles_colors s) ;;
  mtz <- mask_get indices (_mesh_triangles_z_order s) ;;
  mti <- mask_get indices (_mesh_triangles_index s) ;;
  (* Remove vertices *)
  let indices := neq_mask index (col0 (_mesh_vertices_index s)) in
  mv <- mask_get indices (_mesh_vertices s) ;;
  mvi <- mask_get indices (_mesh_vertices_index s) ;;
  let indices := where_ (map negb indices) in
  first <- py_get indices 0 ;;
  let mt := map (tri_map (shift_above first (len indices))) mt in
  if renumber then
    shapes' <- py_del (shapes s) index ;;
    z_order' <- py_del (_z_order s) index ;;
    let index' := map (shift_above index 1) index' in
    let mti := map (tag_map (shift_above index 1)) mti in
    let mvi := map (tag_map (shift_above index 1)) mvi in
    Some (mkShapesList shapes' vertices' index' z_order' mv mvi mt mti mtc mtz)
  else
    Some (mkShapesList (shapes s) vertices' index' (_z_order s)
                       mv mvi mt mti mtc mtz).

(** [ShapesList.edit], after the shape's own [data] setter has rebuilt
    [shape] (that setter is part of [shape.py]). *)
Definition edit (s : ShapesList) (index : Z) (shape : Shape)
  : option ShapesList :=
  s1 <- remove_one s index false ;;
  add s1 shape (Some index).

(** *** The data-model invariant

    Every array is as long as its parallel index array, every stored shape
    index names a shape of the list, every triangle refers to mesh vertices
    of its own shape, and the mesh vertices of one shape form one non-empty
    block of consecutive rows. *)

Definition owned_by (mvi : list tag) (j v : Z) : Prop :=
  0 <= v /\ exists tg, nth_error mvi (Z.to_nat v) = Some tg /\ fst tg = j.

Definition block_of (j : Z) (mvi : list tag) : Prop :=
  exists pre blk post,
    mvi = pre ++ blk ++ post /\ blk <> [] /\
    Forall (fun t => fst t = j) blk /\
    Forall (fun t => fst t <> j) pre /\
    Forall (fun t => fst t <> j) post.

Definition in_range (n : Z) (j : Z) : Prop := 0 <= j < n.

Record wf (s : ShapesList) : Prop := mkWf {
  wf_len_index : length (_index s) = length (_vertices s);
  wf_len_z_order : length (_z_order s) = length (shapes s);
  wf_len_mvi : length (_mesh_vertices_index s) = length (_mesh_vertices s);
  wf_len_mtc : length (_mesh_triangles_colors s) = length (_mesh_triangles s);
  wf_len_mtz : length (_mesh_triangles_z_order s) = length (_mesh_triangles s);
  wf_index : Forall (in_range (len (shapes s))) (_index s);
  wf_mvi : Forall (fun t => in_range (len (shapes s)) (fst t))
                  (_mesh_vertices_index s);
  wf_mti : Forall (fun t => in_range (len (shapes s)) (fst t))
                  (_mesh_triangles_index s);
  wf_owned : Forall2 (fun t tg => tri_all (owned_by (_mesh_vertices_index s) (fst tg)) t)
                     (_mesh_triangles s) (_mesh_triangles_index s);
  wf_block : forall j, in_range (len (shapes s)) j ->
                       block_of j (_mesh_vertices_index s)
}.

(** The same invariant on the flattened arrays alone, for [n] shapes of
    which shape [hole] has no row: the state [add] appends to, and the state
    between the two halves of [edit]. *)
Record wf_rows (n hole : Z) (s : ShapesList) : Prop := mkWfRows {
  wr_len_index : length (_index s) = length (_vertices s);
  wr_len_mvi : length (_mesh_vertices_index s) = length (_mesh_vertices s);
  wr_len_mtc : length (_mesh_triangles_colors s) = length (_mesh_triangles s);
  wr_len_mtz : length (_mesh_triangles_z_order s) = length (_mesh_triangles s);
  wr_index : Forall (fun j => in_range n j /\ j <> hole) (_index s);
  wr_mvi : Forall (fun t => in_range n (fst t) /\ fst t <> hole)
                  (_mesh_vertices_index s);
  wr_mti : Forall (fun t => in_range n (fst t) /\ fst t <> hole)
                  (_mesh_triangles_index s);
  wr_owned : Forall2 (fun t tg => tri_all (owned_by (_mesh_vertices_index s) (fst tg)) t)
                     (_mesh_triangles s) (_mesh_triangles_index s);
  wr_block : forall j, in_range n j -> j <> hole ->
                       block_of j (_mesh_vertices_index s)
}.

(** A triangle whose three vertex indices are rows of [_mesh_vertices]. *)
Definition tri_valid (s : ShapesList) (t : tri) : Prop :=
  tri_all (fun v => 0 <= v < len (_mesh_vertices s)) t.

(** What [add] needs of a shape to keep the invariant: its triangles index
    its own vertex lists, and it has a mesh. *)
Record wf_shape (shape : Shape) : Prop := mkWfShape {
  wfs_offsets : length (_edge_offsets shape) = length (_edge_vertices shape);
  wfs_edge : Forall (tri_all (fun v => 0 <= v < len (_edge_vertices shape)))
                    (_edge_triangles shape);
  wfs_face : Forall (tri_all (fun v => 0 <= v < len (_face_vertices shape)))
                    (_face_triangles shape);
  wfs_mesh : _edge_vertices shape ++ _face_vertices shape <> []
}.

(** The entries of an integer array that survive [a != index], before and
    after the renumbering [a[a > index] - 1]. *)
Definition renumber_after (index : Z) (a : list Z) : list Z :=
  map (fun j => if j >? index then j - 1 else j)
      (filter (fun j => negb (j =? index)) a).

Definition renumber_tags_after (index : Z) (a : list tag) : list tag :=
  map (fun t => (if fst t >? index then fst t - 1 else fst t, snd t))
      (filter (fun t => negb (fst t =? index)) a).

(** The rows of [a] whose key differs from [index]. *)
Fixpoint keep_where A (index : Z) (keys : list Z) (a : list A) : list A :=
  match keys, a with
  | j :: keys', x :: a' =>
      if j =? index then keep_where index keys' a'
      else x :: keep_where index keys' a'
  | _, _ => []
  end.

(** The triangles that survive the removal of shape [index]. *)
Definition kept_triangles (index : Z) (mt : list tri) (mti : list tag) : list tri :=
  keep_where index (col0 mti) mt.

(** [n] consecutive integers from [k]. *)
Fixpoint zseq (k : Z) (n : nat) : list Z :=
  match n with
  | O => []
  | S n' => k :: zseq (k + 1) n'
  end.

(** *** The other methods of [ShapesList] *)

(** [remove_all] *)
Definition remove_all (s : ShapesList) : ShapesList := empty.

(** The argument of [__init__] and [set]: a list of shapes, or one shape. *)
Inductive shapes_arg :=
| Many (l : list Shape)
| One (shape : Shape).

(** [for s in shapes: self.add(s)] *)
Fixpoint add_each (s : ShapesList) (l : list Shape) : option ShapesList :=
  match l with
  | [] => Some s
  | shape :: rest => s' <- add s shape None ;; add_each s' rest
  end.

Definition add_arg (s : ShapesList) (a : shapes_arg) : option ShapesList :=
  match a with
  | Many l => add_each s l
  | One shape => add s shape None
  end.

(** [__init__] *)
Definition __init__ (a : shapes_arg) : option ShapesList := add_arg empty a.

(** [set] *)
Definition set (s : ShapesList) (a : shapes_arg) : option ShapesList :=
  add_arg (remove_all s) a.

(** [a[mask] = v] with one value [v] for every selected row; [IndexError]
    when the mask and the array differ in length. *)
Fixpoint mask_fill A (mask : list bool) (a : list A) (v : A)
  : option (list A) :=
  match mask, a with
  | [], [] => Some []
  | b :: mask', x :: a' =>
      r <- mask_fill mask' a' v ;; Some ((if b then v else x) :: r)
  | _, _ => None
  end.

(** [a[mask] = values] with one row of [values] for every selected row, in
    order. *)
Fixpoint mask_put A (mask : list bool) (a values : list A)
  : option (list A) :=
  match mask, a with
  | [], [] => Some []
  | b :: mask', x :: a' =>
      if b then
        match values with
        | v :: values' => r <- mask_put mask' a' values' ;; Some (v :: r)
        | [] => None
        end
      else r <- mask_put mask' a' values ;; Some (x :: r)
  | _, _ => None
  end.

Definition count_true (mask : list bool) : nat :=
  length (filter (fun b => b) mask).

(** [a[mask] = values] for an array of rows: numpy wants as many rows as the
    mask selects, or a single row that it repeats, and raises otherwise. *)
Definition mask_set A (mask : list bool) (a values : list A)
  : option (list A) :=
  if negb (length mask =? length a)%nat then None
  else if (length values =? count_true mask)%nat then mask_put mask a values
  else match values with
       | [v] => mask_fill mask a v
       | _ => None
       end.

(** [np.all(index_array == [index, mesh_type], axis=1)] and
    [index_array[:, 0] == index] *)
Definition tag_mask (index mesh_type : Z) (a : list tag) : list bool :=
  map (fun t => (fst t =? index) && (snd t =? mesh_type)) a.

Definition col0_mask (index : Z) (a : list tag) : list bool :=
  map (fun t => fst t =? index) a.

(** Assignments to the attributes of a [Shape] ([shape.py] stores them; a
    colour is kept as its RGBA row). *)
Definition with_edge_width (shape : Shape) (w : coord) : Shape :=
  mkShape (data shape) w (z_order shape) (edge_color shape) (face_color shape)
    (_edge_vertices shape) (_edge_offsets shape) (_edge_triangles shape)
    (_face_vertices shape) (_face_triangles shape).

Definition with_z_order (shape : Shape) (z : Z) : Shape :=
  mkShape (data shape) (edge_width shape) z (edge_color shape)
    (face_color shape) (_edge_vertices shape) (_edge_offsets shape)
    (_edge_triangles shape) (_face_vertices shape) (_face_triangles shape).

Definition with_edge_color (shape : Shape) (c : rgba) : Shape :=
  mkShape (data shape) (edge_width shape) (z_order shape) c (face_color shape)
    (_edge_vertices shape) (_edge_offsets shape) (_edge_triangles shape)
    (_face_vertices shape) (_face_triangles shape).

Definition with_face_color (shape : Shape) (c : rgba) : Shape :=
  mkShape (data shape) (edge_width shape) (z_order shape) (edge_color shape) c
    (_edge_vertices shape) (_edge_offsets shape) (_edge_triangles shape)
    (_face_vertices shape) (_face_triangles shape).

(** [self.shapes[index].attribute = value] *)
Definition set_shape (s : ShapesList) (index : Z) (f : Shape -> Shape)
  : option ShapesList :=
  shape <- py_get (shapes s) index ;;
  shapes' <- py_set (shapes s) index (f shape) ;;
  Some (mkShapesList shapes' (_vertices s) (_index s) (_z_order s)
          (_mesh_vertices s) (_mesh_vertices_index s) (_mesh_triangles s)
          (_mesh_triangles_index s) (_mesh_triangles_colors s)
          (_mesh_triangles_z_order s)).

(** [_update_mesh_vertices] *)
Definition _update_mesh_vertices (s : ShapesList) (index : Z)
  (edge face : bool) : option ShapesList :=
  s <- (if edge then
          let indices := tag_mask index 1 (_mesh_vertices_index s) in
          shape <- py_get (shapes s) index ;;
          vertices <- edge_mesh_vertices shape ;;
          mv <- mask_set indices (_mesh_vertices s) vertices ;;
          Some (mkShapesList (shapes s) (_vertices s) (_index s) (_z_order s)
                  mv (_mesh_vertices_index s) (_mesh_triangles s)
                  (_mesh_triangles_index s) (_mesh_triangles_colors s)
                  (_mesh_triangles_z_order s))
        else Some s) ;;
  if face then
    let indices := tag_mask index 0 (_mesh_vertices_index s) in
    shape <- py_get (shapes s) index ;;
    mv <- mask_set indices (_mesh_vertices s) (_face_vertices shape) ;;
    let indices := map (fun j => j =? index) (_index s) in
    vs <- mask_set indices (_vertices s) (data shape) ;;
    Some (mkShapesList (shapes s) vs (_index s) (_z_order s)
            mv (_mesh_vertices_index s) (_mesh_triangles s)
            (_mesh_triangles_index s) (_mesh_triangles_colors s)
            (_mesh_triangles_z_order s))
  else Some s.

(** [update_edge_width] *)
Definition update_edge_width (s : ShapesList) (index : Z) (width : coord)
  : option ShapesList :=
  s <- set_shape s index (fun shape => with_edge_width shape width) ;;
  _update_mesh_vertices s index true false.

(** [update_edge_color] *)
Definition update_edge_color (s : ShapesList) (index : Z) (color : rgba)
  : option ShapesList :=
  s <- set_shape s index (fun shape => with_edge_color shape color) ;;
  let indices := tag_mask index 1 (_mesh_triangles_index s) in
  shape <- py_get (shapes s) index ;;
  colors <- mask_fill indices (_mesh_triangles_colors s) (edge_color shape) ;;
  Some (mkShapesList (shapes s) (_vertices s) (_index s) (_z_order s)
          (_mesh_vertices s) (_mesh_vertices_index s) (_mesh_triangles s)
          (_mesh_triangles_index s) colors (_mesh_triangles_z_order s)).

(** [update_face_color] *)
Definition update_face_color (s : ShapesList) (index : Z) (color : rgba)
  : option ShapesList :=
  s <- set_shape s index (fun shape => with_face_color shape color) ;;
  let indices := tag_mask index 0 (_mesh_triangles_index s) in
  shape <- py_get (shapes s) index ;;
  colors <- mask_fill indices (_mesh_triangles_colors s) (face_color shape) ;;
  Some (mkShapesList (shapes s) (_vertices s) (_index s) (_z_order s)
          (_mesh_vertices s) (_mesh_vertices_index s) (_mesh_triangles s)
          (_mesh_triangles_index s) colors (_mesh_triangles_z_order s)).

(** [update_z_order] *)
Definition update_z_order (s : ShapesList) (index : Z) (z : Z)
  : option ShapesList :=
  s <- set_shape s index (fun shape => with_z_order shape z) ;;
  let indices := col0_mask index (_mesh_triangles_index s) in
  shape <- py_get (shapes s) index ;;
  order <- mask_fill indices (_mesh_triangles_z_order s) (z_order shape) ;;
  Some (mkShapesList (shapes s) (_vertices s) (_index s) (_z_order s)
          (_mesh_vertices s) (_mesh_vertices_index s) (_mesh_triangles s)
          (_mesh_triangles_index s) (_mesh_triangles_colors s) order).

(** The collection once [add] has stored [shape], whose edge mesh vertices
    are [ev], at index [i] of the list [shapes'] with z-orders [z_order']. *)
Definition placed (s : ShapesList) (shape : Shape) (i : Z)
  (shapes' : list Shape) (z_order' : list Z) (ev : list pt) : ShapesList :=
  let ne := length (_edge_triangles shape) in
  let nf := length (_face_triangles shape) in
  mkShapesList shapes'
    (_vertices s ++ data shape)
    (_index s ++ repeat i (length (data shape)))
    z_order'
    ((_mesh_vertices s ++ ev) ++ _face_vertices shape)
    ((_mesh_vertices_index s ++ repeat (i, 1) (length ev))
       ++ repeat (i, 0) (length (_face_vertices shape)))
    ((_mesh_triangles s
        ++ map (tri_map (fun v => v + len (_mesh_vertices s))) (_edge_triangles shape))
       ++ map (tri_map (fun v => v + len (_mesh_vertices s ++ ev)))
              (_face_triangles shape))
    ((_mesh_triangles_index s ++ repeat (i, 1) ne) ++ repeat (i, 0) nf)
    ((_mesh_triangles_colors s ++ repeat (edge_color shape) ne)
       ++ repeat (face_color shape) nf)
    ((_mesh_triangles_z_order s ++ repeat (z_order shape) ne)
       ++ repeat (z_order shape) nf).

Definition appended (s : ShapesList) (shape : Shape) (ev : list pt)
  : ShapesList :=
  placed s shape (len (shapes s)) (shapes s ++ [shape])
         (_z_order s ++ [z_order shape]) ev.

(** The per-vertex shape indices of the shapes [l], stored from index [k]
    on. *)
Fixpoint index_of_shapes (k : Z) (l : list Shape) : list Z :=
  match l with
  | [] => []
  | shape :: rest =>
      repeat k (length (data shape)) ++ index_of_shapes (k + 1) rest
  end.

(** [shift], [scale], [rotate], [flip] and [transform]: the method of the
    same name of the shape ([shape.py]), here [method], and then
    [_update_mesh_vertices(index, edge=True, face=True)]. *)
Definition moved (method : Shape -> Shape) (s : ShapesList) (index : Z)
  : option ShapesList :=
  s <- set_shape s index method ;;
  _update_mesh_vertices s index true true.

Definition shift (shape_shift : Shape -> pt -> Shape) (s : ShapesList)
  (index : Z) (v : pt) : option ShapesList :=
  moved (fun shape => shape_shift shape v) s index.

(** Two shapes with the same triangles, colours and z-order, whose vertex
    arrays have the same numbers of rows. *)
Record same_layout (a b : Shape) : Prop := mkSameLayout {
  sl_data : length (data b) = length (data a);
  sl_edge : length (_edge_vertices b) = length (_edge_vertices a);
  sl_face : length (_face_vertices b) = length (_face_vertices a);
  sl_edge_triangles : _edge_triangles b = _edge_triangles a;
  sl_face_triangles : _face_triangles b = _face_triangles a;
  sl_edge_color : edge_color b = edge_color a;
  sl_face_color : face_color b = face_color a;
  sl_z_order : z_order b = z_order a
}.

End Collection.

(** ** [Shapes]: the layer on top of the collection *)

Module Layer.

Local Open Scope Q_scope.

Abbreviation rgba := (Q * Q * Q * Q)%type (only parsing).
Abbreviation point := (Q * Q)%type (only parsing).
Abbreviation Data := (ShapesList Q rgba) (only parsing).

(** An exception leaving a method: the [ValueError] the method raises
    itself, or whatever a call into the collection raised. *)
Inductive exn :=
| ValueError (msg : string)
| DataError.

(** A pair [[shape, vertex]] whose entries may be [None]. *)
Abbreviation target := (option Z * option Z)%type (only parsing).

Record Shapes := mkShapes {
  data : Data;
  _opacity : Q;
  _apply_all : bool;
  _highlight : bool;
  _selected_shapes : list Z;
  _selected_shapes_stored : list Z;
  _selected_box : option (list point);
  _hover_shapes : target;
  _hover_shapes_stored : target;
  _drag_start : option point;
  _fixed_vertex : option point;
  _selected_vertex : target;
  _is_moving : bool;
  _drag_box : option (list point);
  _ready_to_create : bool;
  _creating : bool;
  _mode : string;
  cursor : string;
  interactive : bool;
  help : string;
  status : string
}.

Definition with_data (l : Shapes) (d : Data) : Shapes :=
  mkShapes d (_opacity l) (_apply_all l) (_highlight l) (_selected_shapes l)
    (_selected_shapes_stored l) (_selected_box l) (_hover_shapes l)
    (_hover_shapes_stored l) (_drag_start l) (_fixed_vertex l)
    (_selected_vertex l) (_is_moving l) (_drag_box l) (_ready_to_create l)
    (_creating l) (_mode l) (cursor l) (interactive l) (help l) (status l).

Definition with_opacity (l : Shapes) (o : Q) : Shapes :=
  mkShapes (data l) o (_apply_all l) (_highlight l) (_selected_shapes l)
    (_selected_shapes_stored l) (_selected_box l) (_hover_shapes l)
    (_hover_shapes_stored l) (_drag_start l) (_fixed_vertex l)
    (_selected_vertex l) (_is_moving l) (_drag_box l) (_ready_to_create l)
    (_creating l) (_mode l) (cursor l) (interactive l) (help l) (status l).

Definition with_creating (l : Shapes) (c : bool) : Shapes :=
  mkShapes (data l) (_opacity l) (_apply_all l) (_highlight l)
    (_selected_shapes l) (_selected_shapes_stored l) (_selected_box l)
    (_hover_shapes l) (_hover_shapes_stored l) (_drag_start l)
    (_fixed_vertex l) (_selected_vertex l) (_is_moving l) (_drag_box l)
    (_ready_to_create l) c (_mode l) (cursor l) (interactive l) (help l)
    (status l).

(** The assignments of one branch of the [mode] setter. *)
Definition with_mode (l : Shapes) (mode cur : string) (inter : bool)
  (hlp : string) : Shapes :=
  mkShapes (data l) (_opacity l) (_apply_all l) (_highlight l)
    (_selected_shapes l) (_selected_shapes_stored l) (_selected_box l)
    (_hover_shapes l) (_hover_shapes_stored l) (_drag_start l)
    (_fixed_vertex l) (_selected_vertex l) (_is_moving l) (_drag_box l)
    (_ready_to_create l) (_creating l) mode cur inter hlp mode.

(** The first block of assignments of [_finish_drawing]; assigning [[]] to
    [selected_shapes] also sets [_selected_box] to [select_box([])], which is
    [None]. *)
Definition reset_drag (l : Shapes) : Shapes :=
  mkShapes (data l) (_opacity l) (_apply_all l) (_highlight l)
    [] (_selected_shapes_stored l) None
    (None, None) (_hover_shapes_stored l) None
    None (None, None) false None
    false (_creating l) (_mode l) (cursor l) (interactive l) (help l)
    (status l).

(** [_unselect] (its call of [_set_highlight] only redraws). *)
Definition _unselect (l : Shapes) : Shapes :=
  if _highlight l then
    mkShapes (data l) (_opacity l) (_apply_all l) false (_selected_shapes l)
      [] (_selected_box l) (_hover_shapes l)
      (None, None) (_drag_start l) (_fixed_vertex l)
      (_selected_vertex l) (_is_moving l) (_drag_box l) (_ready_to_create l)
      (_creating l) (_mode l) (cursor l) (interactive l) (help l) (status l)
  else l.

(** [self.data._vertices[self.data._index == index]]; comparing with [None]
    selects nothing. *)
Definition eq_mask (index : option Z) (a : list Z) : list bool :=
  map (fun j => match index with Some i => (j =? i)%Z | None => false end) a.

Definition vertices_of (d : Data) (index : option Z) : option (list point) :=
  mask_get (eq_mask index (_index d)) (_vertices d).

Section Methods.

(** Collaborators that are not part of the modelled sources: the collection
    methods [remove], [edit] and [update_opacity] called by the layer, the
    triangle test [inside_triangles] of [shape_util] (on one triangle, already
    translated by the query point), and the half-size of a vertex handle in
    data coordinates, which the canvas transform determines. *)
Variable remove : Data -> option Z -> option Data.
Variable edit : Data -> option Z -> list point -> option Data.
Variable update_opacity : Data -> Z -> Q -> option Data.
Variable inside_triangles : point * point * point -> bool.
Variable sizes : Q.

(** *** The [opacity] setter *)

Fixpoint update_all (d : Data) (index : list Z) (opacity : Q)
  : Data * option exn :=
  match index with
  | [] => (d, None)
  | i :: rest =>
      match update_opacity d i opacity with
      | Some d' => update_all d' rest opacity
      | None => (d, Some DataError)
      end
  end.

Definition range (n : nat) : list Z := map Z.of_nat (seq 0 n).

Definition set_opacity (l : Shapes) (opacity : Q) : Shapes * option exn :=
  if negb (Qle_bool 0 opacity && Qle_bool opacity 1) then
    (l, Some (ValueError "opacity must be between 0.0 and 1.0"%string))
  else
    let l := with_opacity l opacity in
    let index := if _apply_all l then range (length (shapes (data l)))
                 else _selected_shapes l in
    let '(d, e) := update_all (data l) index opacity in
    (with_data l d, e).

(** *** The [mode] setter and [_finish_drawing] *)

Definition _finish_drawing (l : Shapes) : Shapes * option exn :=
  let index := fst (_selected_vertex l) in
  let l := reset_drag l in
  let r1 :=
    if _creating l && String.eqb (_mode l) "add_path"%string then
      vertices <- vertices_of (data l) index ;;
      if (length vertices <=? 2)%nat then remove (data l) index
      else edit (data l) index (removelast vertices)
    else Some (data l) in
  match r1 with
  | None => (l, Some DataError)
  | Some d =>
      let l := with_data l d in
      let r2 :=
        if _creating l && String.eqb (_mode l) "add_polygon"%string then
          vertices <- vertices_of (data l) index ;;
          if (length vertices <=? 2)%nat then remove (data l) index
          else Some (data l)
        else Some (data l) in
      match r2 with
      | None => (l, Some DataError)
      | Some d => (_unselect (with_creating (with_data l d) false), None)
      end
  end.

(** The cursor, the [interactive] flag and the help text of each mode. *)
Definition mode_attributes (mode : string) : option (string * bool * string) :=
  if String.eqb mode "select"%string then
    Some ("pointing"%string, false,
          "hold <space> to pan/zoom, press <delete> to remove selected"%string)
  else if String.eqb mode "direct"%string then
    Some ("pointing"%string, false,
          "hold <space> to pan/zoom, press <delete> to remove selected"%string)
  else if String.eqb mode "pan/zoom"%string then Some ("standard"%string, true, ""%string)
  else if String.eqb mode "add_rectangle"%string then
    Some ("cross"%string, false, "hold <space> to pan/zoom"%string)
  else if String.eqb mode "add_ellipse"%string then
    Some ("cross"%string, false, "hold <space> to pan/zoom"%string)
  else if String.eqb mode "add_line"%string then
    Some ("cross"%string, false, "hold <space> to pan/zoom"%string)
  else if String.eqb mode "add_path"%string then
    Some ("cross"%string, false, "hold <space> to pan/zoom"%string)
  else if String.eqb mode "add_polygon"%string then
    Some ("cross"%string, false, "hold <space> to pan/zoom"%string)
  else if String.eqb mode "vertex_insert"%string then
    Some ("cross"%string, false, "hold <space> to pan/zoom"%string)
  else if String.eqb mode "vertex_remove"%string then
    Some ("cross"%string, false, "hold <space> to pan/zoom"%string)
  else None.

Definition vertex_editing (mode : string) : bool :=
  String.eqb mode "vertex_insert"%string || String.eqb mode "vertex_remove"%string
  || String.eqb mode "direct"%string || String.eqb mode "select"%string.

Definition set_mode (l : Shapes) (mode : string) : Shapes * option exn :=
  if String.eqb mode (_mode l) then (l, None)
  else
    let old_mode := _mode l in
    match mode_attributes mode with
    | None => (l, Some (ValueError "Mode not recongnized"%string))
    | Some (cur, inter, hlp) =>
        let l := with_mode l mode cur inter hlp in
        if vertex_editing mode && vertex_editing old_mode then (l, None)
        else _finish_drawing l
    end.

(** The [Escape] key of [on_key_press]. *)
Definition on_escape (l : Shapes) : Shapes * option exn := _finish_drawing l.

(** *** Hit tests *)

(** [a[idx]] for an integer index array. *)
Fixpoint take A (a : list A) (idx : list Z) : option (list A) :=
  match idx with
  | [] => Some []
  | i :: rest => x <- py_get a i ;; xs <- take a rest ;; Some (x :: xs)
  end.

(** [self.data._mesh_vertices[self.data._mesh_triangles]]: the three corner
    points of every triangle. *)
Definition corners (mv : list point) (t : tri)
  : option (point * point * point) :=
  let '(a, b, c) := t in
  pa <- py_get mv a ;; pb <- py_get mv b ;; pc <- py_get mv c ;;
  Some (pa, pb, pc).

Fixpoint triangle_corners (mv : list point) (mt : list tri)
  : option (list (point * point * point)) :=
  match mt with
  | [] => Some []
  | t :: rest =>
      c <- corners mv t ;; cs <- triangle_corners mv rest ;; Some (c :: cs)
  end.

Definition psub (p q : point) : point := (fst p - fst q, snd p - snd q).








(** [np.unique(a)]: the sorted distinct entries. *)
Fixpoint insert_uniq (x : Z) (l : list Z) : list Z :=
  match l with
  | [] => [x]
  | y :: rest =>
      if (x <? y)%Z then x :: l
      else if (x =? y)%Z then l
      else y :: insert_uniq x rest
  end.

Definition unique (a : list Z) : list Z := fold_right insert_uniq [] a.







(** [create_box] of [shape_util] is not among the sources; its predecessor
    [ShapesData._expand_box] is, and is what is used here: the corners, the
    edge midpoints and the centre of the bounding box of the given points.
    [min] of an empty column raises. *)
Definition qmin (a b : Q) : Q := if Qle_bool a b then a else b.
Definition qmax (a b : Q) : Q := if Qle_bool a b then b else a.

Definition column_min (c : list Q) : option Q :=
  match c with
  | [] => None
  | x :: rest => Some (fold_left qmin rest x)
  end.

Definition column_max (c : list Q) : option Q :=
  match c with
  | [] => None
  | x :: rest => Some (fold_left qmax rest x)
  end.

Definition padd (p q : point) : point := (fst p + fst q, snd p + snd q).
Definition pdiv (p : point) (k : Q) : point := (fst p / k, snd p / k).

Definition _expand_box (corners : list point) : option (list point) :=
  x0 <- column_min (map fst corners) ;; y0 <- column_min (map snd corners) ;;
  x1 <- column_max (map fst corners) ;; y1 <- column_max (map snd corners) ;;
  let tl := (x0, y0) in
  let tr := (x1, y0) in
  let br := (x1, y1) in
  let bl := (x0, y1) in
  Some [tl; pdiv (padd tl tr) 2; tr; pdiv (padd tr br) 2; br;
        pdiv (padd br bl) 2; bl; pdiv (padd bl tl) 2;
        pdiv (padd (padd (padd tl tr) br) bl) 4].

Definition create_box := _expand_box.

(** [np.all(a >= b)] on two points. *)
Definition pge (a b : point) : bool :=
  Qle_bool (fst b) (fst a) && Qle_bool (snd b) (snd a).

Definition corner (t : point * point * point) (i : nat) : point :=
  let '(a, b, c) := t in
  match i with O => a | S O => b | _ => c end.

(** One row of [points_inside]: column [i] tests the upper bound on corner 0
    and the lower bound on corner [i], as the source has it. *)
Definition points_inside (lo hi : point) (t : point * point * point)
  : list bool :=
  map (fun i => pge hi (corner t 0) && pge (corner t i) lo) [0; 1; 2]%nat.

(** [Shapes._shapes_in_box] *)
Definition _shapes_in_box (l : Shapes) (box : list point) : option (list Z) :=
  b <- create_box box ;;
  box <- take b [0; 4]%Z ;;
  lo <- py_get box 0 ;; hi <- py_get box 1 ;;
  triangles <- triangle_corners (_mesh_vertices (data l))
                                (_mesh_triangles (data l)) ;;
  (* check if triangle corners are inside box *)
  let inside := map (fun t => existsb (fun b => b) (points_inside lo hi t)) triangles in
  shapes <- mask_get inside (col0 (_mesh_triangles_index (data l))) ;;
  Some (unique shapes).

(** What the comment in [_shapes_in_box] asks for: some corner of the
    triangle lies between the two box corners. *)
Definition corner_in_box (lo hi : point) (t : point * point * point) : bool :=
  existsb (fun i => pge hi (corner t i) && pge (corner t i) lo) [0; 1; 2]%nat.

End Methods.

(** *** Selection, deletion and the keyboard *)

(** Equality of two [[shape, vertex]] pairs, as [==] on the two lists. *)
Definition target_eqb (a b : target) : bool :=
  let eqb (x y : option Z) :=
    match x, y with
    | Some u, Some v => (u =? v)%Z
    | None, None => true
    | _, _ => false
    end in
  eqb (fst a) (fst b) && eqb (snd a) (snd b).

Fixpoint list_eqb (a b : list Z) : bool :=
  match a, b with
  | [], [] => true
  | x :: a', y :: b' => (x =? y)%Z && list_eqb a' b'
  | _, _ => false
  end.

(** [_select] (its call of [_set_highlight] only redraws). *)
Definition _select (l : Shapes) : Shapes :=
  if list_eqb (_selected_shapes l) (_selected_shapes_stored l)
     && target_eqb (_hover_shapes l) (_hover_shapes_stored l)
  then l
  else
    mkShapes (data l) (_opacity l) (_apply_all l) true (_selected_shapes l)
      (_selected_shapes l) (_selected_box l) (_hover_shapes l)
      (_hover_shapes l) (_drag_start l) (_fixed_vertex l)
      (_selected_vertex l) (_is_moving l) (_drag_box l) (_ready_to_create l)
      (_creating l) (_mode l) (cursor l) (interactive l) (help l) (status l).

(** [np.sort] on integers. *)
Fixpoint insert_sorted (x : Z) (l : list Z) : list Z :=
  match l with
  | [] => [x]
  | y :: rest => if (x <=? y)%Z then x :: l else y :: insert_sorted x rest
  end.

Definition sort (a : list Z) : list Z := fold_right insert_sorted [] a.

(** The state that the keyboard handlers keep next to the layer. *)
Record Keys := mkKeys {
  layer : Shapes;
  _mode_history : string;
  _selected_shapes_history : list Z;
  _fixed_aspect : bool;
  _aspect_ratio : Q;
  _mouse_coord : point
}.

Definition with_layer (k : Keys) (l : Shapes) : Keys :=
  mkKeys l (_mode_history k) (_selected_shapes_history k) (_fixed_aspect k)
         (_aspect_ratio k) (_mouse_coord k).

Section Keyboard.

(** The collection's [remove] and [edit], as before; [select_box] for a
    selection that is not empty, which reads the boxes that the shapes keep
    ([shape.py]); and [_move], which needs the canvas transform and the
    transformations of the collection, and reads the aspect ratio kept by
    the keyboard handlers. *)
Variable remove : Data -> option Z -> option Data.
Variable edit : Data -> option Z -> list point -> option Data.
Variable select_box : Data -> list Z -> option (option (list point)).
Variable _move : Keys -> point -> Keys * option exn.

(** The setter of [selected_shapes]; [select_box([])] is [None]. *)
Definition set_selected_shapes (l : Shapes) (selected : list Z)
  : Shapes * option exn :=
  let box := match selected with
             | [] => Some None
             | _ => select_box (data l) selected
             end in
  match box with
  | None =>
      (mkShapes (data l) (_opacity l) (_apply_all l) (_highlight l) selected
         (_selected_shapes_stored l) (_selected_box l) (_hover_shapes l)
         (_hover_shapes_stored l) (_drag_start l) (_fixed_vertex l)
         (_selected_vertex l) (_is_moving l) (_drag_box l)
         (_ready_to_create l) (_creating l) (_mode l) (cursor l)
         (interactive l) (help l) (status l),
       Some DataError)
  | Some b =>
      (mkShapes (data l) (_opacity l) (_apply_all l) (_highlight l) selected
         (_selected_shapes_stored l) b (_hover_shapes l)
         (_hover_shapes_stored l) (_drag_start l) (_fixed_vertex l)
         (_selected_vertex l) (_is_moving l) (_drag_box l)
         (_ready_to_create l) (_creating l) (_mode l) (cursor l)
         (interactive l) (help l) (status l),
       None)
  end.

(** [for index in to_remove: self.data.remove(index)] *)
Fixpoint remove_each (d : Data) (to_remove : list Z) : Data * option exn :=
  match to_remove with
  | [] => (d, None)
  | index :: rest =>
      match remove d (Some index) with
      | Some d' => remove_each d' rest
      | None => (d, Some DataError)
      end
  end.

(** [remove_selected] *)
Definition remove_selected (l : Shapes) : Shapes * option exn :=
  let to_remove := rev (sort (_selected_shapes l)) in
  match remove_each (data l) to_remove with
  | (d, Some e) => (with_data l d, Some e)
  | (d, None) =>
      let l := with_data l d in
      (mkShapes (data l) (_opacity l) (_apply_all l) (_highlight l) []
         (_selected_shapes_stored l) None (None, None)
         (_hover_shapes_stored l) (_drag_start l) (_fixed_vertex l)
         (_selected_vertex l) (_is_moving l) (_drag_box l)
         (_ready_to_create l) (_creating l) (_mode l) (cursor l)
         (interactive l) (help l) (status l),
       None)
  end.

(** A handler step on the layer inside [Keys]. *)
Definition on_layer (k : Keys) (r : Shapes * option exn) : Keys * option exn :=
  (with_layer k (fst r), snd r).

(** The keys that set a mode. *)
Definition mode_of_key (key : string) : option string :=
  if String.eqb key "r" then Some "add_rectangle"%string
  else if String.eqb key "e" then Some "add_ellipse"%string
  else if String.eqb key "l" then Some "add_line"%string
  else if String.eqb key "t" then Some "add_path"%string
  else if String.eqb key "p" then Some "add_polygon"%string
  else if String.eqb key "d" then Some "direct"%string
  else if String.eqb key "s" then Some "select"%string
  else if String.eqb key "z" then Some "pan/zoom"%string
  else if String.eqb key "v" then Some "vertex_insert"%string
  else if String.eqb key "x" then Some "vertex_remove"%string
  else None.

(** The aspect ratio that the [Shift] key records. *)
Definition aspect_of (box : option (list point)) : option Q :=
  match box with
  | None => Some 1
  | Some b =>
      p4 <- py_get b 4 ;; p0 <- py_get b 0 ;;
      let d := psub p4 p0 in
      if Qeq_bool (fst d) 0 || Qeq_bool (snd d) 0 then Some 1
      else Some (Qabs ((snd p4 - snd p0) / (fst p4 - fst p0)))
  end.

(** [on_key_press]; [auto_repeat] is [event.native.isAutoRepeat()]. *)
Definition on_key_press (k : Keys) (auto_repeat : bool) (key : string)
  : Keys * option exn :=
  let l := layer k in
  if auto_repeat then (k, None)
  else if String.eqb key " " then
    if negb (String.eqb (_mode l) "pan/zoom") then
      let k := mkKeys l (_mode l) (_selected_shapes l) (_fixed_aspect k)
                      (_aspect_ratio k) (_mouse_coord k) in
      on_layer k (set_mode remove edit l "pan/zoom")
    else
      (mkKeys l "pan/zoom" (_selected_shapes_history k) (_fixed_aspect k)
              (_aspect_ratio k) (_mouse_coord k), None)
  else if String.eqb key "Shift" then
    let k := mkKeys l (_mode_history k) (_selected_shapes_history k) true
                    (_aspect_ratio k) (_mouse_coord k) in
    match aspect_of (_selected_box l) with
    | None => (k, Some DataError)
    | Some ratio =>
        let k := mkKeys l (_mode_history k) (_selected_shapes_history k) true
                        ratio (_mouse_coord k) in
        if _is_moving l then _move k (_mouse_coord k) else (k, None)
    end
  else
    match mode_of_key key with
    | Some mode => on_layer k (set_mode remove edit l mode)
    | None =>
        if String.eqb key "a" then
          if vertex_editing (_mode l) then
            let (l, e) :=
              set_selected_shapes l (range (length (shapes (data l)))) in
            match e with
            | Some e => (with_layer k l, Some e)
            | None => (with_layer k (_select l), None)
            end
          else (k, None)
        else if String.eqb key "Backspace" then on_layer k (remove_selected l)
        else if String.eqb key "Escape" then
          on_layer k (_finish_drawing remove edit l)
        else (k, None)
    end.

(** [on_key_release] *)
Definition on_key_release (k : Keys) (key : string) : Keys * option exn :=
  let l := layer k in
  if String.eqb key " " then
    if negb (String.eqb (_mode_history k) "pan/zoom") then
      match set_mode remove edit l (_mode_history k) with
      | (l, Some e) => (with_layer k l, Some e)
      | (l, None) =>
          let (l, e) := set_selected_shapes l (_selected_shapes_history k) in
          match e with
          | Some e => (with_layer k l, Some e)
          | None => (with_layer k (_select l), None)
          end
      end
    else (k, None)
  else if String.eqb key "Shift" then
    let k := mkKeys l (_mode_history k) (_selected_shapes_history k) false
                    (_aspect_ratio k) (_mouse_coord k) in
    if _is_moving l then _move k (_mouse_coord k) else (k, None)
  else (k, None).

End Keyboard.

(** [_get_shape] *)
Definition _get_shape (l : Shapes) : point :=
  match _vertices (data l) with
  | [] => (1, 1)
  | v :: rest =>
      (fold_left qmax (map fst rest) (fst v) + 1,
       fold_left qmax (map snd rest) (snd v) + 1)
  end.


(** The modes that the [mode] setter knows. *)
Definition modes : list string :=
  ["select"; "direct"; "pan/zoom"; "add_rectangle"; "add_ellipse";
   "add_line"; "add_path"; "add_polygon"; "vertex_insert";
   "vertex_remove"]%string.

(** A strictly increasing list of integers. *)
Fixpoint increasing (l : list Z) : Prop :=
  match l with
  | x :: (y :: _) as rest => (x < y)%Z /\ increasing rest
  | _ => True
  end.

(** Shape [s] has a mesh triangle whose corner 0 is below the upper corner
    [hi] of the box while one of its corners is above the lower corner [lo]:
    the test that [_shapes_in_box] makes. *)
Definition touches (d : Data) (lo hi : point) (s : Z) : Prop :=
  exists k t tg c,
    nth_error (_mesh_triangles d) k = Some t /\
    nth_error (_mesh_triangles_index d) k = Some tg /\ fst tg = s /\
    corners (_mesh_vertices d) t = Some c /\
    pge hi (corner c 0) = true /\
    exists i, (i < 3)%nat /\ pge (corner c i) lo = true.

End Layer.

(** ** Floating point values of the triangulation

    The geometry is stated in exact real arithmetic: a float is a real
    number, one of the two infinities, or NaN.  Rounding, overflow and the
    sign of zero are not modelled; division by zero and the comparisons with
    NaN are, since the branches of [path_triangulate] depend on them. *)

Module Float.

Local Open Scope R_scope.

Inductive fl :=
| Fin (r : R)
| Inf (negative : bool)
| NaN.

Definition is_neg (r : R) : bool := if Rlt_dec r 0 then true else false.
Definition is_zero (r : R) : bool := if Req_dec_T r 0 then true else false.

Definition fopp (x : fl) : fl :=
  match x with
  | Fin r => Fin (- r)
  | Inf s => Inf (negb s)
  | NaN => NaN
  end.

Definition fadd (x y : fl) : fl :=
  match x, y with
  | Fin a, Fin b => Fin (a + b)
  | Fin _, Inf s | Inf s, Fin _ => Inf s
  | Inf s, Inf t => if Bool.eqb s t then Inf s else NaN
  | _, _ => NaN
  end.

Definition fsub (x y : fl) : fl := fadd x (fopp y).

Definition fmul (x y : fl) : fl :=
  match x, y with
  | Fin a, Fin b => Fin (a * b)
  | Fin a, Inf s | Inf s, Fin a =>
      if is_zero a then NaN else Inf (xorb s (is_neg a))
  | Inf s, Inf t => Inf (xorb s t)
  | _, _ => NaN
  end.

Definition fdiv (x y : fl) : fl :=
  match x, y with
  | Fin a, Fin b =>
      if is_zero b then (if is_zero a then NaN else Inf (is_neg a))
      else Fin (a / b)
  | Fin _, Inf _ => Fin 0
  | Inf s, Fin b => Inf (xorb s (is_neg b))
  | _, _ => NaN
  end.

Definition fsqrt (x : fl) : fl :=
  match x with
  | Fin a => if is_neg a then NaN else Fin (sqrt a)
  | Inf false => Inf false
  | _ => NaN
  end.

(** [x > y]; false as soon as one side is NaN. *)
Definition fgt (x y : fl) : bool :=
  match x, y with
  | Fin a, Fin b => if Rlt_dec b a then true else false
  | Inf false, Fin _ | Fin _, Inf true | Inf false, Inf true => true
  | _, _ => false
  end.

(** [np.sign] *)
Definition fsign (x : fl) : fl :=
  match x with
  | Fin a => if is_neg a then Fin (-1) else if is_zero a then Fin 0 else Fin 1
  | Inf s => if s then Fin (-1) else Fin 1
  | NaN => NaN
  end.

Abbreviation vec := (fl * fl)%type (only parsing).

Definition vadd (u v : vec) : vec := (fadd (fst u) (fst v), fadd (snd u) (snd v)).
Definition vsub (u v : vec) : vec := (fsub (fst u) (fst v), fsub (snd u) (snd v)).
Definition vopp (u : vec) : vec := (fopp (fst u), fopp (snd u)).
Definition vscale (k : fl) (u : vec) : vec := (fmul k (fst u), fmul k (snd u)).
Definition vdiv (u : vec) (k : fl) : vec := (fdiv (fst u) k, fdiv (snd u) k).

(** [np.dot], [np.cross] and [np.linalg.norm] on 2-vectors. *)
Definition dot (u v : vec) : fl :=
  fadd (fmul (fst u) (fst v)) (fmul (snd u) (snd v)).
Definition cross (u v : vec) : fl :=
  fsub (fmul (fst u) (snd v)) (fmul (snd u) (fst v)).
Definition norm (u : vec) : fl :=
  fsqrt (fadd (fmul (fst u) (fst u)) (fmul (snd u) (snd u))).

(** A point with real coordinates. *)
Definition fin (p : R * R) : vec := (Fin (fst p), Fin (snd p)).

End Float.

(** ** [path_triangulate] and [segment_normal] *)

Module Stroke.

Import Float.

(** [segment_normal] *)
Definition segment_normal (a b : vec) : vec :=
  let d := vsub b a in
  let normal := (snd d, fopp (fst d)) in
  vdiv normal (norm normal).

(** The length of the segment from [a] to [b], as [segment_normal] computes
    it, and the unit normal [(dy, -dx)/length] it returns when the length is
    not zero. *)
Definition seg_length (a b : R * R) : R :=
  sqrt ((snd b + - snd a) * (snd b + - snd a)
        + - (fst b + - fst a) * - (fst b + - fst a)).

Definition unit_normal (a b : R * R) : R * R :=
  ((snd b + - snd a) / seg_length a b, - (fst b + - fst a) / seg_length a b)%R.

(** [[f(l[i], l[i+1]) for i in range(n)]]; [None] when an index is out of
    range. *)
Fixpoint on_pairs A B (f : A -> A -> B) (l : list A) (n : nat) {struct n}
  : option (list B) :=
  match n with
  | O => Some []
  | S n' =>
      match l with
      | a :: (b :: _) as rest =>
          r <- on_pairs f rest n' ;; Some (f a b :: r)
      | _ => None
      end
  end.

(** [l[i:i+2].mean(axis=0)]: the slice at the last row has one row only, and
    beyond the end it is empty (the mean of no rows is NaN). *)
Definition mean2 (u v : vec) : vec := vdiv (vadd u v) (Fin 2).

Fixpoint window_means (l : list vec) (n : nat) : list vec :=
  match n with
  | O => []
  | S n' =>
      match l with
      | a :: (b :: _) as rest => mean2 a b :: window_means rest n'
      | [a] => vdiv a (Fin 1) :: window_means [] n'
      | [] => (NaN, NaN) :: window_means [] n'
      end
  end.

(** [[miters[i]/np.dot(miters[i], full_normals[i]) for i in ...]] *)
Fixpoint normalise (miters full_normals : list vec) : option (list vec) :=
  match miters with
  | [] => Some []
  | m :: ms =>
      match full_normals with
      | n :: ns => r <- normalise ms ns ;; Some (vdiv m (dot m n) :: r)
      | [] => None
      end
  end.

(** [normals[-1] = -normals[-1]] *)
Definition negate_last (l : list vec) : option (list vec) :=
  match rev l with
  | [] => None
  | x :: r => Some (rev (vopp x :: r))
  end.

(** The arrays built before the loop of [path_triangulate]. *)
Record prepared := mkPrepared {
  full_path : list vec;
  full_normals : list vec;
  miters : list vec
}.

Definition prepare (path : list vec) (closed : bool) : option prepared :=
  if closed then
    last_pt <- py_get path (-1) ;;
    first_pt <- py_get path 0 ;;
    let full_path := [last_pt] ++ path ++ [first_pt] in
    normals <- on_pairs segment_normal full_path (length path) ;;
    let full_path := path ++ [first_pt] in
    n0 <- py_get normals 0 ;;
    let full_normals := normals ++ [n0] in
    let miters := window_means full_normals (length full_path) in
    miters <- normalise miters full_normals ;;
    Some (mkPrepared full_path full_normals miters)
  else
    before_last <- py_get path (-2) ;;
    let full_path := path ++ [before_last] in
    normals <- on_pairs segment_normal full_path (length path) ;;
    normals <- negate_last normals ;;
    let full_path := path in
    n0 <- py_get normals 0 ;;
    let full_normals := [n0] ++ normals in
    let miters := window_means full_normals (length full_path) in
    miters <- normalise miters full_normals ;;
    Some (mkPrepared full_path full_normals miters).

(** [miter_lengths = np.linalg.norm(miters, axis=1)] *)
Definition miter_lengths (p : prepared) : list fl := map norm (miters p).

(** [miters = 0.5*miters] *)
Definition half_miters (p : prepared) : list vec :=
  map (vscale (Fin (1 / 2))) (miters p).

(** The lists the loop appends to, and its counter [m]. *)
Record mesh := mkMesh {
  vertex_offsets : list vec;
  central_path : list vec;
  faces : list tri;
  m : Z
}.

Definition start : mesh := mkMesh [] [] [] 0.

(** The three offsets of a bevel corner. *)
Definition bevel_offsets (miter normal : vec) : list vec :=
  let offset := (snd miter, fopp (fst miter)) in
  let offset := vdiv (vscale (Fin (1 / 2)) offset) (norm offset) in
  let flip := fsign (dot offset normal) in
  [offset; vscale (fopp flip) miter; vopp offset].

(** The two triangles joining the last two offsets to two others: the sign
    test on [a], [b] and [ray] chooses the second triangle. *)
Definition join (a b ray : vec) (t1 t2 t2' : tri) : list tri :=
  if fgt (fmul (cross a ray) (cross b ray)) (Fin 0) then [t1; t2]
  else [t1; t2'].

Section Loop.

Variable closed bevel : bool.
Variable limit : fl.
Variable p : prepared.

(** One iteration of [for i in range(len(full_path))]. *)
Definition step (st : mesh) (i : Z) : option mesh :=
  let vo := vertex_offsets st in
  let cp := central_path st in
  let m := m st in
  pt <- py_get (full_path p) i ;;
  miter <- py_get (half_miters p) i ;;
  miter_length <- py_get (miter_lengths p) i ;;
  if (i =? 0)%Z then
    if (bevel || fgt miter_length limit) && closed then
      normal <- py_get (full_normals p) i ;;
      Some (mkMesh (vo ++ bevel_offsets miter normal)
                   (cp ++ [pt; pt; pt])
                   (faces st ++ [(0, 1, 2)%Z])
                   (m + 1))
    else
      Some (mkMesh (vo ++ [vopp miter; miter]) (cp ++ [pt; pt]) (faces st) m)
  else if (i =? len (full_path p) - 1)%Z then
    prev <- py_get (full_path p) (i - 1) ;;
    if closed then
      a0 <- py_get vo (m + 1) ;;
      b0 <- py_get vo 1 ;;
      let a := vsub a0 prev in
      let b := vsub b0 prev in
      let ray := vsub pt prev in
      Some (mkMesh vo cp
              (faces st ++ join a b ray (m, m + 1, 1) (m, 0, 1) (m + 1, 0, 1))%Z
              m)
    else
      let vo := vo ++ [vopp miter; miter] in
      let cp := cp ++ [pt; pt] in
      a0 <- py_get vo (m + 1) ;;
      b0 <- py_get vo (m + 3) ;;
      let a := vsub a0 prev in
      let b := vsub b0 prev in
      let ray := vsub pt prev in
      Some (mkMesh vo cp
              (faces st ++ join a b ray (m, m + 1, m + 3) (m, m + 2, m + 3)
                                        (m + 1, m + 2, m + 3))%Z
              m)
  else if bevel || fgt miter_length limit then
    prev <- py_get (full_path p) (i - 1) ;;
    normal <- py_get (full_normals p) i ;;
    let vo := vo ++ bevel_offsets miter normal in
    a0 <- py_get vo (m + 1) ;;
    b0 <- py_get vo (m + 3) ;;
    let a := vsub a0 prev in
    let b := vsub b0 prev in
    let ray := vsub pt prev in
    Some (mkMesh vo cp
            (faces st ++ join a b ray (m, m + 1, m + 3) (m, m + 2, m + 3)
                                      (m + 1, m + 2, m + 3)
                      ++ [(m + 2, m + 3, m + 4)])%Z
            (m + 3))
  else
    prev <- py_get (full_path p) (i - 1) ;;
    let vo := vo ++ [vopp miter; miter] in
    let cp := cp ++ [pt; pt] in
    a0 <- py_get vo (m + 1) ;;
    b0 <- py_get vo (m + 3) ;;
    let a := vsub a0 prev in
    let b := vsub b0 prev in
    let ray := vsub pt prev in
    Some (mkMesh vo cp
            (faces st ++ join a b ray (m, m + 1, m + 3) (m, m + 2, m + 3)
                                      (m + 1, m + 2, m + 3))%Z
            (m + 2)).

Fixpoint loop (st : mesh) (idx : list Z) : option mesh :=
  match idx with
  | [] => Some st
  | i :: rest => st' <- step st i ;; loop st' rest
  end.

End Loop.

(** Before step [k] of the loop: nothing was appended yet, or the counter
    [m] is two rows before the end of the offsets. *)
Definition ready (k : nat) (st : mesh) : Prop :=
  match k with
  | O => st = start
  | S _ => len (vertex_offsets st) = (m st + 2)%Z /\ (0 <= m st)%Z
  end.

(** [path_triangulate(path, closed, limit, bevel)]: the centres, the offsets
    and the triangles. *)
Definition path_triangulate (path : list vec) (closed : bool) (limit : fl)
  (bevel : bool) : option (list vec * list vec * list tri) :=
  p <- prepare path closed ;;
  st <- loop closed bevel limit p start (zseq 0 (length (full_path p))) ;;
  Some (central_path st, vertex_offsets st, faces st).


(** Twice the signed area of a triangle of the mesh. *)
Definition area2 (a b c : vec) : fl := cross (vsub b a) (vsub c a).

Definition face_area2 (vertices : list vec) (t : tri) : option fl :=
  let '(i, j, k) := t in
  a <- py_get vertices i ;; b <- py_get vertices j ;; c <- py_get vertices k ;;
  Some (area2 a b c).


Definition negative (x : option fl) : Prop :=
  exists r, x = Some (Fin r) /\ (r < 0)%R.


(** Every entry twice / every entry negated and then itself: the shape of
    the centres and of the offsets of a stroke without bevel corners. *)
Definition twice (l : list vec) : list vec := flat_map (fun c => [c; c]) l.
Definition both_sides (l : list vec) : list vec :=
  flat_map (fun h => [vopp h; h]) l.

(** No miter of an interior point of the open path is longer than the
    limit. *)
Definition within_limit (path : list vec) (limit : fl) : Prop :=
  forall p i ml,
    prepare path false = Some p ->
    (0 < i < length path - 1)%nat ->
    nth_error (miter_lengths p) i = Some ml ->
    fgt ml limit = false.

(** A single horizontal segment, a path with one right-angled corner, and a
    path that stays at one point. *)
Definition segment : list (R * R) := [(0, 0); (1, 0)]%R.
Definition corner : list (R * R) := [(0, 0); (1, 0); (1, 1)]%R.
Definition standstill : list (R * R) := [(0, 0); (0, 0)]%R.

(** No two consecutive points of the path are equal. *)
Fixpoint no_repeat (pts : list (R * R)) : Prop :=
  match pts with
  | a :: (b :: _) as rest => a <> b /\ no_repeat rest
  | _ => True
  end.

(** Whether the loop treats the point [i] as a bevelled corner: the [bevel]
    flag, or a miter longer than the limit. *)
Definition bevelled (bevel : bool) (limit : fl) (p : prepared) (i : nat)
  : bool :=
  bevel || match nth_error (miter_lengths p) i with
           | Some ml => fgt ml limit
           | None => false
           end.

(** The number of bevelled corners among the points [1 .. k-1], and whether
    the first point of a closed path is one. *)
Fixpoint bevels_below (bevel : bool) (limit : fl) (p : prepared) (k : nat)
  : nat :=
  match k with
  | O => O
  | S k' =>
      (bevels_below bevel limit p k'
       + (if (1 <=? k')%nat && bevelled bevel limit p k' then 1 else 0))%nat
  end.

Definition first_bevel (closed bevel : bool) (limit : fl) (p : prepared)
  : nat :=
  if closed && bevelled bevel limit p 0 then 1%nat else 0%nat.

(** What the loop has appended once it has gone through the points
    [0 .. k-1]. *)
Record counted (closed bevel : bool) (limit : fl) (p : prepared) (k : nat)
  (st : mesh) : Prop := mkCounted {
  ct_offsets :
    length (vertex_offsets st)
    = (2 * k + first_bevel closed bevel limit p
       + bevels_below bevel limit p k)%nat;
  ct_centres :
    (length (central_path st) + 2 * bevels_below bevel limit p k
     = 2 * k + first_bevel closed bevel limit p)%nat;
  ct_faces :
    (length (faces st) + 2
     = 2 * k + first_bevel closed bevel limit p
       + bevels_below bevel limit p k)%nat;
  ct_m : (m st + 2 = len (vertex_offsets st))%Z;
  ct_m0 : (0 <= m st)%Z;
  ct_valid :
    Forall (tri_all (fun v => (0 <= v < len (vertex_offsets st))%Z)) (faces st)
}.

(** The number of bevelled corners strictly between the two ends of
    [full_path]. *)
Definition interior_bevels (bevel : bool) (limit : fl) (p : prepared) : nat :=
  bevels_below bevel limit p (length (full_path p) - 1).

(** A path that turns back sharply at its second point: the miter there is
    (5, -1), longer than the default limit 5. *)
Definition spike : list (R * R) := [(0, 0); (1, 0); (-11, 5)]%R.

End Stroke.

(** ** [ShapesData]: the mesh arrays, [_append_meshes] and [_compute_meshes] *)

Module Meshes.

Import Float Stroke.

(** A row [[object index, shape id, mesh type]] of an index array. *)
Abbreviation row := (Z * Z * Z)%type (only parsing).

Record ShapesData := mkShapesData {
  thickness : fl;
  id : list Z;
  vertices : list vec;
  index : list Z;
  boxes : list (list vec);
  _mesh_vertices : list vec;
  _mesh_vertices_index : list row;
  _mesh_faces : list tri;
  _mesh_faces_index : list row;
  _mesh_vertices_centers : list vec;
  _mesh_vertices_offsets : list vec
}.

(** [_append_meshes]; with neither centres nor offsets the vertices are
    their own centres and the offsets are zero, with only one of the two
    [np.append] is handed [None] and raises. *)
Definition _append_meshes (d : ShapesData) (vertices' : list vec)
  (faces : list tri) (index' : row) (centers offsets : option (list vec))
  : option ShapesData :=
  let m := len (_mesh_vertices d) in
  let vertices_indices := repeat index' (length vertices') in
  let faces_indices := repeat index' (length faces) in
  co <- match centers, offsets with
        | None, None =>
            Some (vertices', repeat (Fin 0, Fin 0) (length vertices'))
        | Some c, Some o => Some (c, o)
        | _, _ => None
        end ;;
  Some (mkShapesData (thickness d) (id d) (vertices d) (index d) (boxes d)
          (_mesh_vertices d ++ vertices')
          (_mesh_vertices_index d ++ vertices_indices)
          (_mesh_faces d ++ map (tri_map (fun v => m + v)) faces)
          (_mesh_faces_index d ++ faces_indices)
          (_mesh_vertices_centers d ++ fst co)
          (_mesh_vertices_offsets d ++ snd co)).

(** [remove_all_shapes] *)
Definition remove_all_shapes (d : ShapesData) : ShapesData :=
  mkShapesData (thickness d) [] [] [] [] [] [] [] [] [] [].

Section Compute.

(** [PolygonData(vertices=points).triangulate()] of vispy. *)
Variable triangulate : list vec -> option (list vec * list tri).

(** [_compute_meshes]; the stroke is computed with the defaults [limit=5]
    and [bevel=False] of [path_triangulate]. *)
Definition _compute_meshes (d : ShapesData) (points : list vec)
  (closed fill edge : bool) (thickness' : fl) (index' : Z * Z)
  (fill_vertices : option (list vec)) (fill_faces : option (list tri))
  : option ShapesData :=
  d <- (if edge then
          r <- path_triangulate points closed (Fin 5) false ;;
          let '(centers, offsets, faces) := r in
          vertices' <- broadcast_add fadd centers
                         (map (scale_pt fmul thickness') offsets) ;;
          _append_meshes d vertices' faces (fst index', snd index', 1)
                         (Some centers) (Some offsets)
        else Some d) ;;
  if fill then
    match fill_vertices, fill_faces with
    | Some fv, Some ff =>
        _append_meshes d fv ff (fst index', snd index', 0) None None
    | _, _ =>
        r <- triangulate points ;;
        let '(vertices', faces) := r in
        _append_meshes d vertices' faces (fst index', snd index', 0) None None
    end
  else Some d.

End Compute.


End Meshes.

(** ** The transformations of [ShapesData]

    The methods take an [index] that is [True], a list or an integer; they
    are modelled for an integer [index], and for a scale and an offset that
    are floats or arrays of floats. *)

Module Transforms.

Import Float Meshes.

Local Open Scope R_scope.

(** A 2x3 array [[a, b, c], [d, e, f]]. *)
Abbreviation mat := ((fl * fl * fl) * (fl * fl * fl))%type (only parsing).

(** [_select_meshes(index, meshes)] for an integer [index] and no
    [object_type]: [np.where(meshes[:,0] == index)[0]]. *)
Definition _select_meshes (index' : Z) (meshes : list row) : list Z :=
  where_ (map (fun r => (fst (fst r) =? index')%Z) meshes).

(** One row of [np.matmul(x, A)[:,:2]]: the row [[x, y, 1]] times [A], the
    transpose of [transform] with the row [[0, 0, 1]] appended. *)
Definition affine (transform : mat) (v : vec) : vec :=
  let '((a, b, c), (d, e, f)) := transform in
  (fadd (fadd (fmul (fst v) a) (fmul (snd v) b)) (fmul (Fin 1) c),
   fadd (fadd (fmul (fst v) d) (fmul (snd v) e)) (fmul (Fin 1) f)).

(** One row of [np.matmul(x, transform[:,:2])]. *)
Definition linear (transform : mat) (v : vec) : vec :=
  let '((a, b, _), (d, e, _)) := transform in
  (fadd (fmul (fst v) a) (fmul (snd v) d),
   fadd (fmul (fst v) b) (fmul (snd v) e)).

(** [a[indices] = values] for an array of integer indices. *)
Fixpoint put A (a : list A) (indices : list Z) (values : list A)
  : option (list A) :=
  match indices, values with
  | [], [] => Some a
  | i :: indices', v :: values' =>
      a' <- py_set a i v ;; put a' indices' values'
  | _, _ => None
  end.

(** [a[indices] = f(a[indices])], row by row. *)
Definition update A (a : list A) (indices : list Z) (f : A -> A)
  : option (list A) :=
  x <- Layer.take a indices ;; put a indices (map f x).

(** [_transform_shapes] *)
Definition _transform_shapes (d : ShapesData) (transform : mat) (index' : Z)
  : option ShapesData :=
  let indices := _select_meshes index' (_mesh_vertices_index d) in
  mv <- update (_mesh_vertices d) indices (affine transform) ;;
  mc <- update (_mesh_vertices_centers d) indices (affine transform) ;;
  mo <- update (_mesh_vertices_offsets d) indices (linear transform) ;;
  box <- py_get (boxes d) index' ;;
  if negb (length box =? 9)%nat then None
  else
    boxes' <- py_set (boxes d) index' (map (affine transform) box) ;;
    let indices := where_ (map (fun j => (j =? index')%Z) (index d)) in
    vs <- update (vertices d) indices (affine transform) ;;
    Some (mkShapesData (thickness d) (id d) vs (index d) boxes' mv
            (_mesh_vertices_index d) (_mesh_faces d) (_mesh_faces_index d)
            mc mo).

(** [shift_shapes] *)
Definition shift_shapes (d : ShapesData) (offset : vec) (index' : Z)
  : option ShapesData :=
  _transform_shapes d ((Fin 1, Fin 0, fst offset), (Fin 0, Fin 1, snd offset))
                    index'.

(** The second half of the methods that take a centre: [transform] without
    a centre, and otherwise a shift by [-offset] followed by [transform]
    with the centre in its last column. *)
Definition about (d : ShapesData) (transform : mat) (offset : option vec)
  (index' : Z) : option ShapesData :=
  match offset with
  | None => _transform_shapes d transform index'
  | Some o =>
      d <- shift_shapes d (vopp o) index' ;;
      let '((a, b, _), (c, e, _)) := transform in
      _transform_shapes d ((a, b, fst o), (c, e, snd o)) index'
  end.

(** The [scale] argument: a float or a list of two floats. *)
Inductive scale_arg :=
| Scalar (s : fl)
| Pair (s0 s1 : fl).

(** [scale_shapes] *)
Definition scale_shapes (d : ShapesData) (scale : scale_arg)
  (offset : option vec) (index' : Z) : option ShapesData :=
  let transform :=
    match scale with
    | Pair s0 s1 => ((s0, Fin 0, Fin 0), (Fin 0, s1, Fin 0))
    | Scalar s => ((s, Fin 0, Fin 0), (Fin 0, s, Fin 0))
    end in
  about d transform offset index'.

(** [flip_vertical_shapes] *)
Definition flip_vertical_shapes (d : ShapesData) (offset : option vec)
  (index' : Z) : option ShapesData :=
  about d ((Fin (-1), Fin 0, Fin 0), (Fin 0, Fin 1, Fin 0)) offset index'.

(** [flip_horizontal_shapes] *)
Definition flip_horizontal_shapes (d : ShapesData) (offset : option vec)
  (index' : Z) : option ShapesData :=
  about d ((Fin 1, Fin 0, Fin 0), (Fin 0, Fin (-1), Fin 0)) offset index'.

(** [np.radians], [np.cos] and [np.sin] *)
Definition radians (x : fl) : fl := fmul x (Fin (PI / 180)).

Definition fcos (x : fl) : fl :=
  match x with
  | Fin r => Fin (cos r)
  | _ => NaN
  end.

Definition fsin (x : fl) : fl :=
  match x with
  | Fin r => Fin (sin r)
  | _ => NaN
  end.

(** [rotate_shapes] *)
Definition rotate_shapes (d : ShapesData) (angle : fl) (offset : option vec)
  (index' : Z) : option ShapesData :=
  let theta := radians angle in
  about d ((fcos theta, fsin theta, Fin 0),
           (fopp (fsin theta), fcos theta, Fin 0)) offset index'.

(** [f] applied to the rows of [a] at which the mask holds, and to row
    [k] of [a]. *)
Fixpoint on_rows A (mask : list bool) (f : A -> A) (a : list A) : list A :=
  match mask, a with
  | b :: mask', x :: a' => (if b then f x else x) :: on_rows mask' f a'
  | _, _ => a
  end.

Definition on_row A (k : nat) (f : A -> A) (a : list A) : list A :=
  firstn k a ++ map f (firstn 1 (skipn k a)) ++ skipn (S k) a.

(** The array shapes that [ShapesData] keeps: the mesh arrays are as long as
    their index array, the vertices as long as theirs, and a box has nine
    rows. *)
Record shaped (d : ShapesData) : Prop := mkShaped {
  sh_vertices : length (index d) = length (vertices d);
  sh_mesh : length (_mesh_vertices_index d) = length (_mesh_vertices d);
  sh_centers : length (_mesh_vertices_centers d) = length (_mesh_vertices d);
  sh_offsets : length (_mesh_vertices_offsets d) = length (_mesh_vertices d);
  sh_boxes : Forall (fun b => length b = 9%nat) (boxes d)
}.

(** No coordinate is an infinity or NaN. *)
Definition finite_vec (v : vec) : Prop := exists p : R * R, v = fin p.

Record finite (d : ShapesData) : Prop := mkFinite {
  fin_vertices : Forall finite_vec (vertices d);
  fin_mesh : Forall finite_vec (_mesh_vertices d);
  fin_centers : Forall finite_vec (_mesh_vertices_centers d);
  fin_offsets : Forall finite_vec (_mesh_vertices_offsets d);
  fin_boxes : Forall (Forall finite_vec) (boxes d)
}.

(** The rows of the mesh arrays and of the vertices that belong to object
    [i]. *)
Definition mesh_rows (d : ShapesData) (i : Z) : list bool :=
  map (fun r => (fst (fst r) =? i)%Z) (_mesh_vertices_index d).

Definition vertex_rows (d : ShapesData) (i : Z) : list bool :=
  map (fun j => (j =? i)%Z) (index d).

(** [transform] applied to the rows of object [i] and to box [k]. *)
Definition transformed (d : ShapesData) (transform : mat) (i : Z) (k : nat)
  : ShapesData :=
  mkShapesData (thickness d) (id d)
    (on_rows (vertex_rows d i) (affine transform) (vertices d))
    (index d)
    (on_row k (map (affine transform)) (boxes d))
    (on_rows (mesh_rows d i) (affine transform) (_mesh_vertices d))
    (_mesh_vertices_index d) (_mesh_faces d) (_mesh_faces_index d)
    (on_rows (mesh_rows d i) (affine transform) (_mesh_vertices_centers d))
    (on_rows (mesh_rows d i) (linear transform) (_mesh_vertices_offsets d)).

(** A 2x3 array of real numbers, and the array that maps [v] to
    [m (v - o) + o]: what a method with the centre [o] applies in exact
    arithmetic. *)
Definition fmat (m : (R * R * R) * (R * R * R)) : mat :=
  let '((a, b, c), (d, e, f)) := m in
  ((Fin a, Fin b, Fin c), (Fin d, Fin e, Fin f)).

Definition centred (m : (R * R * R) * (R * R * R)) (o : option (R * R))
  : (R * R * R) * (R * R * R) :=
  match o with
  | None => m
  | Some (ox, oy) =>
      let '((a, b, _), (d, e, _)) := m in
      ((a, b, ox - (a * ox + b * oy)), (d, e, oy - (d * ox + e * oy)))
  end.

(** [affine] and [linear] on real numbers. *)
Definition raffine (m : (R * R * R) * (R * R * R)) (p : R * R) : R * R :=
  let '((a, b, c), (d, e, f)) := m in
  (fst p * a + snd p * b + 1 * c, fst p * d + snd p * e + 1 * f).

Definition rlinear (m : (R * R * R) * (R * R * R)) (p : R * R) : R * R :=
  let '((a, b, _), (d, e, _)) := m in
  (fst p * a + snd p * d, fst p * b + snd p * e).

(** The rotation that [rotate_shapes] applies to a vertex, for the angle
    [t] in radians. *)
Definition turn (t : R) (p : R * R) : R * R :=
  (fst p * cos t + snd p * sin t, - (fst p * sin t) + snd p * cos t).

(** The position of an index into [n] rows, when it is in range. *)
Definition position (n : nat) (i : Z) : nat :=
  if (i <? 0)%Z then Z.to_nat (Z.of_nat n + i) else Z.to_nat i.

(** What [_compute_meshes] establishes for the rows it appends: a mesh
    vertex is its centre plus [thickness] times its offset. *)
Definition stroked (d : ShapesData) : Prop :=
  forall k v c o,
    nth_error (_mesh_vertices d) k = Some v ->
    nth_error (_mesh_vertices_centers d) k = Some c ->
    nth_error (_mesh_vertices_offsets d) k = Some o ->
    v = vadd c (vscale (thickness d) o).

(** One object: the segment from (0,0) to (3,0) with its stroke of
    thickness 1. *)
Definition segment : ShapesData :=
  mkShapesData (Fin 1) [0%Z]
    [fin (0, 0); fin (3, 0)] [0%Z; 0%Z]
    [[fin (0, 0); fin (3 / 2, 0); fin (3, 0); fin (3, 0); fin (3, 0);
      fin (3 / 2, 0); fin (0, 0); fin (0, 0); fin (3 / 2, 0)]]
    [fin (0, 1 / 2); fin (0, - (1 / 2)); fin (3, 1 / 2); fin (3, - (1 / 2))]
    [(0, 0, 1); (0, 0, 1); (0, 0, 1); (0, 0, 1)]%Z
    [(0, 1, 3); (0, 2, 3)]%Z
    [(0, 0, 1); (0, 0, 1)]%Z
    [fin (0, 0); fin (0, 0); fin (3, 0); fin (3, 0)]
    [fin (0, 1 / 2); fin (0, - (1 / 2)); fin (0, 1 / 2); fin (0, - (1 / 2))].

End Transforms.

(** ** [ShapesData._generate_ellipse] and the fill of [_add_ellipses] *)

Module Ellipse.

Local Open Scope R_scope.




Definition _ellipse_segments : nat := 100.


(** [fill_faces] of [_add_ellipses]: the fan [[0, i+1, i+2]], whose last
    triangle is closed onto vertex 1. *)
Definition fan (n : nat) : list tri :=
  map (fun i => (0, Z.of_nat i + 1, Z.of_nat i + 2)%Z) (seq 0 n).

Definition close_fan (f : list tri) : list tri :=
  match rev f with
  | [] => []
  | (a, b, _) :: r => rev ((a, b, 1%Z) :: r)
  end.

Definition fill_faces : list tri := close_fan (fan _ellipse_segments).


(** Twice the signed area of a triangle of the fill. *)
Definition area2 (a b c : R * R) : R :=
  (fst b - fst a) * (snd c - snd a) - (snd b - snd a) * (fst c - fst a).

Definition face_area2 (points : list (R * R)) (t : tri) : option R :=
  let '(i, j, k) := t in
  a <- py_get points i ;; b <- py_get points j ;; c <- py_get points k ;;
  Some (area2 a b c).



End Ellipse.

(** ** [ShapesData._expand_rectangle] and [_expand_ellipse] *)

Module Box.

Import Layer.

Local Open Scope Q_scope.

(** Python's [min] and [max] of two numbers; the first one wins a tie. *)
Definition py_min (a b : Q) : Q := if Qle_bool a b then a else b.
Definition py_max (a b : Q) : Q := if Qle_bool b a then a else b.

(** [_expand_rectangle(corners)] for the two corner points [c0] and [c1]:
    the four vertices, from the top left one on. *)
Definition _expand_rectangle (c0 c1 : point) : list point :=
  let tl := (py_min (fst c0) (fst c1), py_min (snd c0) (snd c1)) in
  let tr := (py_max (fst c0) (fst c1), py_min (snd c0) (snd c1)) in
  let br := (py_max (fst c0) (fst c1), py_max (snd c0) (snd c1)) in
  let bl := (py_min (fst c0) (fst c1), py_max (snd c0) (snd c1)) in
  [tl; tr; br; bl].

(** [_expand_ellipse(corners)]: the midpoints of the four sides. *)
Definition _expand_ellipse (c0 c1 : point) : list point :=
  let tl := (py_min (fst c0) (fst c1), py_min (snd c0) (snd c1)) in
  let tr := (py_max (fst c0) (fst c1), py_min (snd c0) (snd c1)) in
  let br := (py_max (fst c0) (fst c1), py_max (snd c0) (snd c1)) in
  let bl := (py_min (fst c0) (fst c1), py_max (snd c0) (snd c1)) in
  [pdiv (padd tl tr) 2; pdiv (padd tr br) 2; pdiv (padd br bl) 2;
   pdiv (padd bl tl) 2].

(** Two points with equal coordinates, and two arrays of such points. *)
Definition peq (p q : point) : Prop := fst p == fst q /\ snd p == snd q.

Definition same_points (a b : list point) : Prop := Forall2 peq a b.

(** The nine handles of the box with corners [(x0, y0)] and [(x1, y1)]: the
    corners and the midpoints of the sides, clockwise from the top left
    corner, and the centre. *)
Definition handles (x0 y0 x1 y1 : Q) : list point :=
  let tl := (x0, y0) in
  let tr := (x1, y0) in
  let br := (x1, y1) in
  let bl := (x0, y1) in
  [tl; pdiv (padd tl tr) 2; tr; pdiv (padd tr br) 2; br;
   pdiv (padd br bl) 2; bl; pdiv (padd bl tl) 2;
   pdiv (padd (padd (padd tl tr) br) bl) 4].

End Box.

(** ** Concrete collections and layers *)

Module Demo.

Import Layer.

Local Open Scope Q_scope.

Definition coral : Q * Q * Q * Q := (1, 1 # 2, 3 # 10, 1).
Definition white : Q * Q * Q * Q := (1, 1, 1, 1).

(** A line from (0,0) to (30,40) of width 1: its stroke has the two centre
    points twice, offset by half the unit normal (4/5, -3/5). *)
Definition line : Shape Q (Q * Q * Q * Q) :=
  mkShape [(0, 0); (30, 40)] 1 1%Z coral white
    [(0, 0); (0, 0); (30, 40); (30, 40)]
    [(-(2 # 5), 3 # 10); (2 # 5, -(3 # 10)); (-(2 # 5), 3 # 10); (2 # 5, -(3 # 10))]
    [(0, 1, 3); (0, 2, 3)]%Z
    [] [].

(** A filled square from (0,0) to (40,40), below the line. *)
Definition square : Shape Q (Q * Q * Q * Q) :=
  mkShape [(0, 0); (40, 0); (40, 40); (0, 40)] 1 0%Z coral white
    [] [] []
    [(0, 0); (40, 0); (40, 40); (0, 40)]
    [(0, 1, 2); (0, 2, 3)]%Z.

(** An in-progress path of two vertices. *)
Definition stub : Shape Q (Q * Q * Q * Q) :=
  mkShape [(3, 3); (4, 3)] 1 0%Z coral white
    [(3, 3); (3, 3); (4, 3); (4, 3)]
    [(0, 1 # 2); (0, -(1 # 2)); (0, 1 # 2); (0, -(1 # 2))]
    [(0, 1, 3); (0, 2, 3)]%Z
    [] [].

Definition collect (l : list (Shape Q (Q * Q * Q * Q))) : ShapesList Q (Q * Q * Q * Q) :=
  fold_left (fun s shape =>
               match add Qplus Qmult s shape None with
               | Some s' => s'
               | None => s
               end) l (empty Q (Q * Q * Q * Q)).

Definition one_line := Eval vm_compute in collect [line].
Definition two_shapes := Eval vm_compute in collect [line; square].
Definition one_stub := Eval vm_compute in collect [stub].

(** A layer right after its construction around [d]. *)
Definition fresh (d : ShapesList Q (Q * Q * Q * Q)) : Shapes :=
  mkShapes d 1 true true [] [] None (None, None) (None, None) None None
    (None, None) false None false false "pan/zoom"%string "standard"%string
    true ""%string "pan/zoom"%string.

(** The layer in [add_path] mode after one click at (3,3) and a move of the
    mouse to (4,3): shape 0 is being drawn and its last vertex follows the
    cursor. *)
Definition drawing : Shapes :=
  mkShapes one_stub 1 true true [0%Z] [0%Z] None
    (Some 0%Z, Some 1%Z) (Some 0%Z, Some 1%Z) None None
    (Some 0%Z, Some 1%Z) true None false true "add_path"%string
    "cross"%string false "hold <space> to pan/zoom"%string "add_path"%string.

(** A method for a shape, as [Shape.shift] would be: every vertex of the
    shape and of its meshes moves by [v]. *)
Definition nudge (v : Q * Q) (shape : Shape Q (Q * Q * Q * Q))
  : Shape Q (Q * Q * Q * Q) :=
  let '(mkShape d w z ec fc ev eo et fv ft) := shape in
  mkShape (map (padd v) d) w z ec fc (map (padd v) ev) eo et
          (map (padd v) fv) ft.


End Demo.

(** * Properties *)

Section CollectionFacts.

Variable coord : Type.
Variable cadd cmul : coord -> coord -> coord.
Variable rgba : Type.

Ltac fields :=
  cbn [shapes _vertices _index _z_order _mesh_vertices _mesh_vertices_index
       _mesh_triangles _mesh_triangles_index _mesh_triangles_colors
       _mesh_triangles_z_order] in *.

Lemma mask_get_neq A (i : Z) (keys : list Z) (a : list A) :
  length keys = length a ->
  mask_get (neq_mask i keys) a = Some (keep_where i keys a).
Proof.
  revert a; induction keys as [|j keys IH]; intros [|x a] H; simpl in *;
    try discriminate; auto.
  unfold neq_mask in IH. rewrite IH by lia.
  destruct (j =? i); reflexivity.
Qed.

Lemma keep_where_self (i : Z) (keys : list Z) :
  keep_where i keys keys = filter (fun j => negb (j =? i)) keys.
Proof.
  induction keys as [|j keys IH]; cbn; auto.
  rewrite IH. destruct (j =? i); reflexivity.
Qed.

Lemma keep_where_col0 (i : Z) (l : list tag) :
  keep_where i (col0 l) l = filter (fun t => negb (fst t =? i)) l.
Proof.
  induction l as [|t l IH]; cbn; auto.
  fold (col0 l). rewrite IH. destruct (fst t =? i); reflexivity.
Qed.

Lemma keep_where_app A (i : Z) (k1 k2 : list Z) (a1 a2 : list A) :
  length k1 = length a1 ->
  keep_where i (k1 ++ k2) (a1 ++ a2) = keep_where i k1 a1 ++ keep_where i k2 a2.
Proof.
  revert a1; induction k1 as [|j k1 IH]; intros [|x a1] H; simpl in *;
    try discriminate; auto.
  rewrite IH by lia. destruct (j =? i); reflexivity.
Qed.

Lemma keep_where_all A (i : Z) (keys : list Z) (a : list A) :
  length keys = length a -> Forall (fun j => j <> i) keys ->
  keep_where i keys a = a.
Proof.
  revert a; induction keys as [|j keys IH]; intros [|x a] H F; simpl in *;
    try discriminate; auto.
  inversion F; subst. destruct (Z.eqb_spec j i); [contradiction|].
  f_equal. apply IH; auto.
Qed.

Lemma keep_where_none A (i : Z) (keys : list Z) (a : list A) :
  Forall (fun j => j = i) keys -> keep_where i keys a = [].
Proof.
  revert a; induction keys as [|j keys IH]; intros [|x a] F; simpl in *; auto.
  inversion F; subst. rewrite Z.eqb_refl. auto.
Qed.

Lemma keep_where_length A B (i : Z) (keys : list Z) (a : list A) (b : list B) :
  length a = length b ->
  length (keep_where i keys a) = length (keep_where i keys b).
Proof.
  revert a b; induction keys as [|j keys IH]; intros [|x a] [|y b] H;
    simpl in *; try discriminate; auto.
  destruct (j =? i); simpl; auto.
Qed.

Lemma where_from_app (k : Z) (m1 m2 : list bool) :
  where_from k (m1 ++ m2) = where_from k m1 ++ where_from (k + len m1) m2.
Proof.
  revert k; induction m1 as [|b m1 IH]; intros k; simpl.
  - unfold len; simpl. f_equal. lia.
  - rewrite IH. replace (k + 1 + len m1) with (k + len (b :: m1))
      by (unfold len; simpl; lia).
    destruct b; reflexivity.
Qed.

Lemma where_from_false (k : Z) (m : list bool) :
  Forall (fun b => b = false) m -> where_from k m = [].
Proof.
  revert k; induction m as [|b m IH]; intros k F; simpl; auto.
  inversion F; subst. auto.
Qed.

Lemma where_from_true (k : Z) (m : list bool) :
  Forall (fun b => b = true) m -> where_from k m = zseq k (length m).
Proof.
  revert k; induction m as [|b m IH]; intros k F; simpl; auto.
  inversion F; subst. f_equal. auto.
Qed.

Lemma zseq_length k n : length (zseq k n) = n.
Proof. revert k; induction n; simpl; auto. Qed.

Lemma Forall_col0 (P : Z -> Prop) (l : list tag) :
  Forall (fun t => P (fst t)) l -> Forall P (col0 l).
Proof. induction 1; simpl; constructor; auto. Qed.

(** The removed rows of a block decomposition. *)
Lemma removed_rows (i : Z) (pre blk post : list tag) :
  Forall (fun t => fst t = i) blk ->
  Forall (fun t => fst t <> i) pre ->
  Forall (fun t => fst t <> i) post ->
  where_ (map negb (neq_mask i (col0 (pre ++ blk ++ post))))
  = zseq (len pre) (length blk).
Proof.
  intros Hb Hpre Hpost. unfold where_, neq_mask, col0.
  rewrite !map_app, !where_from_app.
  rewrite (where_from_false 0), (where_from_false (_ + _ + _)); simpl.
  - rewrite app_nil_r, where_from_true.
    + unfold len. rewrite !length_map. reflexivity.
    + rewrite !Forall_map. eapply Forall_impl; [|exact Hb].
      simpl; intros t ->. rewrite Z.eqb_refl. reflexivity.
  - rewrite !Forall_map. eapply Forall_impl; [|exact Hpost].
    simpl; intros t Ht. destruct (Z.eqb_spec (fst t) i); [contradiction|auto].
  - rewrite !Forall_map. eapply Forall_impl; [|exact Hpre].
    simpl; intros t Ht. destruct (Z.eqb_spec (fst t) i); [contradiction|auto].
Qed.

Lemma py_index_in (n : nat) (i : Z) :
  0 <= i < Z.of_nat n -> py_index n i = Some (Z.to_nat i).
Proof.
  intros H. unfold py_index.
  destruct (Z.leb_spec 0 i), (Z.ltb_spec i (Z.of_nat n)); simpl; auto; lia.
Qed.

Lemma py_get_zseq (k : Z) (n : nat) :
  (0 < n)%nat -> py_get (zseq k n) 0 = Some k.
Proof.
  intros H. unfold py_get. rewrite py_index_in by (rewrite zseq_length; lia).
  destruct n; [lia | reflexivity].
Qed.

Lemma py_del_in A (l : list A) (i : Z) :
  0 <= i < len l ->
  py_del l i = Some (firstn (Z.to_nat i) l ++ skipn (S (Z.to_nat i)) l).
Proof. intros H. unfold py_del. rewrite py_index_in; auto. Qed.

Lemma len_app A (a b : list A) : len (a ++ b) = len a + len b.
Proof. unfold len. rewrite length_app. lia. Qed.

Lemma len_nonneg A (a : list A) : 0 <= len a.
Proof. unfold len. lia. Qed.

(** Rows of a block decomposition, by position. *)
Lemma nth_error_pre A (pre blk post : list A) (v : Z) :
  0 <= v < len pre ->
  nth_error (pre ++ blk ++ post) (Z.to_nat v) = nth_error pre (Z.to_nat v).
Proof. unfold len; intros H. apply nth_error_app1. lia. Qed.

Lemma nth_error_blk A (pre blk post : list A) (v : Z) :
  len pre <= v < len pre + len blk ->
  nth_error (pre ++ blk ++ post) (Z.to_nat v)
  = nth_error blk (Z.to_nat (v - len pre)).
Proof.
  unfold len; intros H.
  rewrite nth_error_app2 by lia. rewrite nth_error_app1 by lia.
  f_equal. lia.
Qed.

Lemma nth_error_post A (pre blk post : list A) (v : Z) :
  len pre + len blk <= v ->
  nth_error (pre ++ blk ++ post) (Z.to_nat v)
  = nth_error post (Z.to_nat (v - len pre - len blk)).
Proof.
  unfold len; intros H.
  rewrite nth_error_app2 by lia. rewrite nth_error_app2 by lia.
  f_equal. lia.
Qed.

Lemma Forall_nth_error A (P : A -> Prop) (l : list A) n x :
  Forall P l -> nth_error l n = Some x -> P x.
Proof.
  intros F H. rewrite Forall_forall in F. apply F.
  eapply nth_error_In; eauto.
Qed.

(** The rows owned by shape [i] are exactly the rows of its block. *)
Lemma owned_block (i : Z) (pre blk post : list tag) (v : Z) :
  Forall (fun t => fst t = i) blk ->
  Forall (fun t => fst t <> i) pre ->
  Forall (fun t => fst t <> i) post ->
  owned_by (pre ++ blk ++ post) i v <-> len pre <= v < len pre + len blk.
Proof.
  intros Hb Hpre Hpost. unfold owned_by. split.
  - intros (H0 & tg & Hn & Hi).
    destruct (Z_lt_dec v (len pre)).
    + rewrite nth_error_pre in Hn by lia.
      exfalso. apply (@Forall_nth_error _ _ _ _ _ Hpre Hn Hi).
    + destruct (Z_lt_dec v (len pre + len blk)); [lia|].
      rewrite nth_error_post in Hn by lia.
      exfalso. apply (@Forall_nth_error _ _ _ _ _ Hpost Hn Hi).
  - intros H. pose proof (len_nonneg pre). split; [lia|].
    rewrite nth_error_blk by lia.
    destruct (nth_error blk (Z.to_nat (v - len pre))) as [tg|] eqn:E.
    + exists tg. split; auto. apply (@Forall_nth_error _ _ _ _ _ Hb E).
    + apply nth_error_None in E. unfold len in *. lia.
Qed.

(** A row owned by another shape keeps its tag at its shifted position. *)
Lemma owned_shift (i j : Z) (pre blk post : list tag) (v : Z) :
  Forall (fun t => fst t = i) blk -> j <> i ->
  owned_by (pre ++ blk ++ post) j v ->
  (v < len pre \/ len pre + len blk <= v) /\
  owned_by (pre ++ post) j (if len pre + len blk <=? v then v - len blk else v).
Proof.
  intros Hb Hji (H0 & tg & Hn & Hj).
  pose proof (len_nonneg pre). pose proof (len_nonneg blk).
  destruct (Z_lt_dec v (len pre)) as [Hlt|Hge].
  - split; [auto|]. destruct (Z.leb_spec (len pre + len blk) v); [lia|].
    split; [lia|]. exists tg. split; auto.
    rewrite nth_error_pre in Hn by lia.
    rewrite nth_error_app1; auto.
    apply nth_error_Some. congruence.
  - destruct (Z_lt_dec v (len pre + len blk)).
    + rewrite nth_error_blk in Hn by lia.
      exfalso. apply Hji. rewrite <- Hj. apply (@Forall_nth_error _ _ _ _ _ Hb Hn).
    + split; [lia|]. destruct (Z.leb_spec (len pre + len blk) v); [|lia].
      split; [lia|]. exists tg. split; auto.
      rewrite nth_error_post in Hn by lia.
      rewrite nth_error_app2 by (unfold len in *; lia).
      rewrite <- Hn. f_equal. unfold len in *. lia.
Qed.

Lemma shift_above_block (first count v : Z) :
  0 < count -> v < first \/ first + count <= v ->
  shift_above first count v = if first + count <=? v then v - count else v.
Proof.
  intros Hc Hv. unfold shift_above.
  destruct (Z.gtb_spec v first), (Z.leb_spec (first + count) v); lia.
Qed.

Lemma Forall2_length_eq A B (P : A -> B -> Prop) l1 l2 :
  Forall2 P l1 l2 -> length l1 = length l2.
Proof. induction 1; simpl; auto. Qed.

(** [remove_one] on a well-formed state, with the block of shape [i] named. *)
Lemma remove_one_eq (s : ShapesList coord rgba) (i : Z) pre blk post :
  wf s -> in_range (len (shapes s)) i ->
  _mesh_vertices_index s = pre ++ blk ++ post -> blk <> [] ->
  Forall (fun t => fst t = i) blk ->
  Forall (fun t => fst t <> i) pre ->
  Forall (fun t => fst t <> i) post ->
  remove_one s i true
  = Some (mkShapesList
      (firstn (Z.to_nat i) (shapes s) ++ skipn (S (Z.to_nat i)) (shapes s))
      (keep_where i (_index s) (_vertices s))
      (map (shift_above i 1) (keep_where i (_index s) (_index s)))
      (firstn (Z.to_nat i) (_z_order s) ++ skipn (S (Z.to_nat i)) (_z_order s))
      (keep_where i (col0 (_mesh_vertices_index s)) (_mesh_vertices s))
      (map (tag_map (shift_above i 1))
           (keep_where i (col0 (_mesh_vertices_index s)) (_mesh_vertices_index s)))
      (map (tri_map (shift_above (len pre) (len blk)))
           (keep_where i (col0 (_mesh_triangles_index s)) (_mesh_triangles s)))
      (map (tag_map (shift_above i 1))
           (keep_where i (col0 (_mesh_triangles_index s)) (_mesh_triangles_index s)))
      (keep_where i (col0 (_mesh_triangles_index s)) (_mesh_triangles_colors s))
      (keep_where i (col0 (_mesh_triangles_index s)) (_mesh_triangles_z_order s))).
Proof.
  intros W Hi Hd Hne Hb Hpre Hpost.
  pose proof (Forall2_length_eq (wf_owned W)) as Hmt.
  unfold remove_one.
  rewrite !mask_get_neq;
    try (unfold col0; rewrite length_map);
    try solve [ auto | destruct W; congruence ].
  assert (Hw : where_ (map negb (neq_mask i (col0 (_mesh_vertices_index s))))
               = zseq (len pre) (length blk))
    by (rewrite Hd; apply removed_rows; assumption).
  fold (col0 (_mesh_vertices_index s)). rewrite !Hw.
  rewrite py_get_zseq by (destruct blk; [congruence | simpl; lia]).
  unfold len at 2. rewrite zseq_length. fold (len blk).
  rewrite !py_del_in; auto;
    unfold in_range, len in *; rewrite ?(wf_len_z_order W); lia.
Qed.

Lemma keep_block (i : Z) (pre blk post : list tag) :
  Forall (fun t => fst t = i) blk ->
  Forall (fun t => fst t <> i) pre ->
  Forall (fun t => fst t <> i) post ->
  keep_where i (col0 (pre ++ blk ++ post)) (pre ++ blk ++ post) = pre ++ post.
Proof.
  intros Hb Hpre Hpost. unfold col0. rewrite !map_app.
  rewrite !keep_where_app by (rewrite length_map; reflexivity).
  rewrite (keep_where_all pre), (keep_where_all post), keep_where_none;
    try (rewrite length_map; reflexivity); auto;
    apply Forall_col0; auto.
Qed.

Lemma Forall2_keep (P : tri -> tag -> Prop) (i : Z) mt mti :
  Forall2 P mt mti ->
  Forall2 (fun t tg => P t tg /\ fst tg <> i)
          (keep_where i (col0 mti) mt) (keep_where i (col0 mti) mti).
Proof.
  induction 1 as [|t tg mt mti H F IH]; simpl; [constructor|].
  destruct (Z.eqb_spec (fst tg) i); auto.
Qed.

Lemma shift_above_range (n i j : Z) :
  in_range n i -> in_range n j -> j <> i ->
  in_range (n - 1) (shift_above i 1 j).
Proof.
  unfold in_range, shift_above. intros.
  destruct (Z.gtb_spec j i); lia.
Qed.

Lemma shift_above_inj (i a b : Z) :
  a <> i -> b <> i -> shift_above i 1 a = shift_above i 1 b -> a = b.
Proof.
  unfold shift_above.
  destruct (Z.gtb_spec a i), (Z.gtb_spec b i); lia.
Qed.

Lemma owned_map (f : Z -> Z) (mvi : list tag) (j v : Z) :
  owned_by mvi j v -> owned_by (map (tag_map f) mvi) (f j) v.
Proof.
  intros (H0 & tg & Hn & Hj). split; auto.
  exists (tag_map f tg). rewrite nth_error_map, Hn. simpl.
  split; auto. congruence.
Qed.

Lemma owned_lt (mvi : list tag) (j v : Z) :
  owned_by mvi j v -> 0 <= v < len mvi.
Proof.
  intros (H0 & tg & Hn & _). split; auto.
  assert (Z.to_nat v < length mvi)%nat by (apply nth_error_Some; congruence).
  unfold len. lia.
Qed.

Lemma tri_all_impl (P Q : Z -> Prop) (t : tri) :
  (forall v, P v -> Q v) -> tri_all P t -> tri_all Q t.
Proof. destruct t as [[a b] c]; simpl; intuition. Qed.

Lemma tri_all_map (P : Z -> Prop) (f : Z -> Z) (t : tri) :
  tri_all (fun v => P (f v)) t -> tri_all P (tri_map f t).
Proof. destruct t as [[a b] c]; simpl; auto. Qed.

Lemma tri_map_ext (P : Z -> Prop) (f g : Z -> Z) (t : tri) :
  (forall v, P v -> f v = g v) -> tri_all P t -> tri_map f t = tri_map g t.
Proof.
  destruct t as [[a b] c]; simpl. intros E (Ha & Hb & Hc).
  rewrite (E a), (E b), (E c); auto.
Qed.

(** On a well-formed state every triangle indexes rows of [_mesh_vertices]. *)
Lemma wf_tri_valid (s : ShapesList coord rgba) :
  wf s -> Forall (tri_valid s) (_mesh_triangles s).
Proof.
  intros W. pose proof (wf_owned W) as F. pose proof (wf_len_mvi W) as L.
  induction F as [|t tg mt mti H F IH]; constructor; auto.
  eapply tri_all_impl; [|exact H]. simpl. intros v Hv.
  apply owned_lt in Hv. unfold len in *. lia.
Qed.

Lemma len_py_del A (l : list A) (i : Z) :
  0 <= i < len l ->
  length (firstn (Z.to_nat i) l ++ skipn (S (Z.to_nat i)) l) = (length l - 1)%nat.
Proof.
  unfold len; intros H. rewrite length_app, length_firstn, length_skipn. lia.
Qed.

Lemma filter_all A (f : A -> bool) (l : list A) :
  Forall (fun x => f x = true) l -> filter f l = l.
Proof. induction 1 as [|x l H F IH]; simpl; [|rewrite H, IH]; auto. Qed.

Lemma Forall_filter A (P : A -> Prop) (f : A -> bool) (l : list A) :
  Forall P l -> Forall (fun x => P x /\ f x = true) (filter f l).
Proof.
  induction 1 as [|x l H F IH]; simpl; auto.
  destruct (f x) eqn:E; auto.
Qed.

(** Blocks survive the removal and renumbering of another shape. *)
Lemma block_of_remove (i j' n : Z) (mvi : list tag) :
  in_range n i -> in_range (n - 1) j' ->
  (forall j, in_range n j -> block_of j mvi) ->
  block_of j' (map (tag_map (shift_above i 1))
                   (filter (fun t => negb (fst t =? i)) mvi)).
Proof.
  intros Hi Hj' B.
  set (j := if j' >=? i then j' + 1 else j').
  assert (Hj : in_range n j /\ j <> i /\ shift_above i 1 j = j').
  { unfold in_range, shift_above, j in *.
    destruct (Z.geb_spec j' i);
      [destruct (Z.gtb_spec (j' + 1) i) | destruct (Z.gtb_spec j' i)]; lia. }
  destruct Hj as (Hjr & Hji & Hrn).
  destruct (B j Hjr) as (p & b & q & E & Hne & Hb & Hp & Hq).
  set (f := fun t : tag => negb (fst t =? i)).
  set (rn := tag_map (shift_above i 1)).
  assert (Hfb : filter f b = b).
  { apply filter_all. eapply Forall_impl; [|exact Hb]. unfold f; simpl.
    intros t ->. destruct (Z.eqb_spec j i); [contradiction | reflexivity]. }
  assert (Hside : forall l, Forall (fun t => fst t <> j) l ->
                            Forall (fun t => fst t <> j') (map rn (filter f l))).
  { intros l Hl. apply Forall_map. apply (Forall_filter f) in Hl.
    eapply Forall_impl; [|exact Hl]. unfold f, rn; simpl. intros t [Ht Hf] Heq.
    destruct (Z.eqb_spec (fst t) i); [discriminate|].
    apply Ht. apply (@shift_above_inj i); auto. congruence. }
  exists (map rn (filter f p)), (map rn b), (map rn (filter f q)).
  repeat split; auto.
  - rewrite E, !filter_app, !map_app.
    apply f_equal2; [reflexivity|]. apply f_equal2; [|reflexivity].
    apply f_equal. exact Hfb.
  - destruct b; [congruence | discriminate].
  - apply Forall_map. eapply Forall_impl; [|exact Hb]. unfold rn; simpl.
    intros t ->. exact Hrn.
Qed.

(** [remove_one] with renumbering keeps the data-model invariant. *)
Lemma remove_one_wf (s s' : ShapesList coord rgba) (i : Z) :
  wf s -> in_range (len (shapes s)) i ->
  remove_one s i true = Some s' -> wf s'.
Proof.
  intros W Hi R.
  destruct (wf_block W Hi) as (pre & blk & post & Hd & Hne & Hb & Hpre & Hpost).
  rewrite (remove_one_eq W Hi Hd Hne Hb Hpre Hpost) in R.
  match type of R with Some ?r = _ => assert (Hs : r = s') by congruence end.
  subst s'. clear R.
  pose proof (Forall2_length_eq (wf_owned W)) as Hmt.
  assert (Hn' : length (firstn (Z.to_nat i) (shapes s)
                         ++ skipn (S (Z.to_nat i)) (shapes s))
                = (length (shapes s) - 1)%nat) by (apply len_py_del; exact Hi).
  set (sh' := firstn (Z.to_nat i) (shapes s) ++ skipn (S (Z.to_nat i)) (shapes s)) in *.
  clearbody sh'.
  assert (Hn : len sh' = len (shapes s) - 1)
    by (unfold in_range, len in *; lia).
  assert (Hcount : 0 < len blk)
    by (destruct blk; [congruence | unfold len; simpl; lia]).
  constructor; fields; rewrite ?Hn.
  - rewrite length_map. apply keep_where_length. apply (wf_len_index W).
  - rewrite Hn', len_py_del; [rewrite (wf_len_z_order W); reflexivity |].
    unfold in_range, len in *. rewrite (wf_len_z_order W). exact Hi.
  - rewrite length_map. apply keep_where_length. apply (wf_len_mvi W).
  - rewrite length_map. apply keep_where_length. apply (wf_len_mtc W).
  - rewrite length_map. apply keep_where_length. apply (wf_len_mtz W).
  - rewrite keep_where_self. apply Forall_map.
    pose proof (Forall_filter (fun j => negb (j =? i)) (wf_index W)) as F.
    eapply Forall_impl; [|exact F]. simpl. intros j [Hj Hf].
    apply shift_above_range; auto.
    destruct (Z.eqb_spec j i); [discriminate | auto].
  - rewrite keep_where_col0. apply Forall_map.
    pose proof (Forall_filter (fun t => negb (fst t =? i)) (wf_mvi W)) as F.
    eapply Forall_impl; [|exact F]. simpl. intros t [Hj Hf].
    apply shift_above_range; auto.
    destruct (Z.eqb_spec (fst t) i); [discriminate | auto].
  - rewrite keep_where_col0. apply Forall_map.
    pose proof (Forall_filter (fun t => negb (fst t =? i)) (wf_mti W)) as F.
    eapply Forall_impl; [|exact F]. simpl. intros t [Hj Hf].
    apply shift_above_range; auto.
    destruct (Z.eqb_spec (fst t) i); [discriminate | auto].
  - rewrite Hd, keep_block by assumption.
    pose proof (Forall2_keep i (wf_owned W)) as F. rewrite Hd in F.
    induction F as [|t tg mt mti [H Hji] F IH]; simpl; constructor; auto.
    apply tri_all_map. eapply tri_all_impl; [|exact H]. simpl. intros v Hv.
    destruct (@owned_shift i (fst tg) pre blk post v Hb Hji Hv) as [Hout Hown].
    rewrite (@shift_above_block (len pre) (len blk) v Hcount Hout).
    apply owned_map. exact Hown.
  - intros j' Hj'. rewrite keep_where_col0.
    apply block_of_remove with (n := len (shapes s)); auto.
    intros j Hj. apply (wf_block W Hj).
Qed.

(** On the triangles of other shapes, the threshold [indices[0]] of the code
    and the end of the removed block select the same vertex indices. *)
Lemma kept_shift (i : Z) (pre blk post : list tag) mt mti :
  Forall2 (fun t tg => tri_all (owned_by (pre ++ blk ++ post) (fst tg)) t) mt mti ->
  Forall (fun t => fst t = i) blk -> 0 < len blk ->
  map (tri_map (shift_above (len pre) (len blk))) (keep_where i (col0 mti) mt)
  = map (tri_map (fun v => if len pre + len blk <=? v then v - len blk else v))
        (keep_where i (col0 mti) mt).
Proof.
  intros F0 Hb Hcount. pose proof (Forall2_keep i F0) as F.
  induction F as [|t tg mt' mti' [H Hji] F IH]; simpl; [reflexivity|].
  rewrite IH. f_equal.
  apply tri_map_ext with (P := owned_by (pre ++ blk ++ post) (fst tg)); auto.
  intros v Hv.
  destruct (@owned_shift i (fst tg) pre blk post v Hb Hji Hv) as [Hout _].
  apply shift_above_block; assumption.
Qed.

(** C1.  On a well-formed collection, removing the shape at a valid index
    [i] with renumbering succeeds; the mesh vertices it deletes are [count]
    consecutive rows starting at [first]; every stored shape index above
    [i] (per vertex, per mesh vertex, per triangle) is decremented by one;
    every vertex index of a remaining triangle that pointed after the
    removed block is decremented by [count] and the others are unchanged;
    every remaining triangle indexes rows of the remaining mesh vertices;
    and the invariant holds again. *)
Theorem remove_one_renumbers (s : ShapesList coord rgba) (i : Z) :
  wf s -> in_range (len (shapes s)) i ->
  exists s' first count,
    remove_one s i true = Some s' /\
    0 < count /\
    (forall v, owned_by (_mesh_vertices_index s) i v
               <-> first <= v < first + count) /\
    len (_mesh_vertices s') = len (_mesh_vertices s) - count /\
    _index s' = renumber_after i (_index s) /\
    _mesh_vertices_index s' = renumber_tags_after i (_mesh_vertices_index s) /\
    _mesh_triangles_index s' = renumber_tags_after i (_mesh_triangles_index s) /\
    _mesh_triangles s'
    = map (tri_map (fun v => if first + count <=? v then v - count else v))
          (kept_triangles i (_mesh_triangles s) (_mesh_triangles_index s)) /\
    Forall (tri_valid s') (_mesh_triangles s') /\
    wf s'.
Proof.
  intros W Hi.
  destruct (wf_block W Hi) as (pre & blk & post & Hd & Hne & Hb & Hpre & Hpost).
  pose proof (remove_one_eq W Hi Hd Hne Hb Hpre Hpost) as R.
  pose proof (remove_one_wf W Hi R) as W'.
  assert (Hcount : 0 < len blk)
    by (destruct blk; [congruence | unfold len; simpl; lia]).
  eexists. exists (len pre), (len blk).
  split; [exact R|]. fields.
  split; [exact Hcount|].
  split; [intros v; rewrite Hd; apply owned_block; assumption|].
  split.
  { unfold len.
    rewrite (keep_where_length i (col0 (_mesh_vertices_index s))
               (_mesh_vertices s) (_mesh_vertices_index s))
      by (symmetry; apply (wf_len_mvi W)).
    rewrite <- (wf_len_mvi W), Hd, keep_block by assumption.
    rewrite !length_app. lia. }
  split; [rewrite keep_where_self; reflexivity|].
  split; [rewrite keep_where_col0; reflexivity|].
  split; [rewrite keep_where_col0; reflexivity|].
  split; [|split; [apply (wf_tri_valid W') | exact W']].
  unfold kept_triangles. apply kept_shift with (post := post); auto.
  rewrite <- Hd. apply (wf_owned W).
Qed.

Lemma Forall_repeat A (P : A -> Prop) (x : A) (n : nat) :
  P x -> Forall P (repeat x n).
Proof. intros H; induction n; simpl; auto. Qed.

Lemma keep_where_fresh A (i : Z) (keys tail : list Z) (a b : list A) :
  length keys = length a ->
  Forall (fun j => j <> i) keys -> Forall (fun j => j = i) tail ->
  keep_where i (keys ++ tail) (a ++ b) = a.
Proof.
  intros L F T. rewrite keep_where_app by exact L.
  rewrite keep_where_all, keep_where_none by assumption.
  apply app_nil_r.
Qed.

Lemma map_id_in A (f : A -> A) (l : list A) :
  Forall (fun x => f x = x) l -> map f l = l.
Proof. induction 1 as [|x l H F IH]; simpl; [|rewrite H, IH]; auto. Qed.

Lemma py_del_last A (l : list A) (x : A) :
  py_del (l ++ [x]) (len l) = Some l.
Proof.
  unfold py_del, len.
  rewrite py_index_in by (rewrite length_app; simpl; lia).
  rewrite Nat2Z.id. f_equal.
  induction l as [|y l IH]; [reflexivity|].
  cbn [length firstn skipn app]. f_equal. exact IH.
Qed.

Lemma in_range_neq (n : Z) (l : list Z) :
  Forall (in_range n) l -> Forall (fun j => j <> n) l.
Proof. apply Forall_impl. unfold in_range. lia. Qed.

Lemma in_range_fixed (n : Z) (l : list Z) :
  Forall (in_range n) l -> Forall (fun j => shift_above n 1 j = j) l.
Proof.
  apply Forall_impl. unfold in_range, shift_above. intros j H.
  destruct (Z.gtb_spec j n); lia.
Qed.

Lemma in_range_tag_fixed (n : Z) (l : list tag) :
  Forall (fun t => in_range n (fst t)) l ->
  Forall (fun t => tag_map (shift_above n 1) t = t) l.
Proof.
  apply Forall_impl. unfold in_range, shift_above, tag_map. intros [j k] H.
  simpl in *. destruct (Z.gtb_spec j n); [lia | reflexivity].
Qed.

(** C2.  On a well-formed collection, a shape appended by [add] that
    contributes at least one mesh vertex is removed again by [remove_one] at
    the index it was given, and the result is the collection before the
    [add]: every flattened array (and the list of shapes) has its former
    length and content. *)
Theorem add_remove_one_roundtrip (s s1 : ShapesList coord rgba)
  (shape : Shape coord rgba) :
  wf s ->
  add cadd cmul s shape None = Some s1 ->
  len (_mesh_vertices s) < len (_mesh_vertices s1) ->
  remove_one s1 (len (shapes s)) true = Some s.
Proof.
  intros W A Hmesh.
  pose proof (Forall2_length_eq (wf_owned W)) as Hmt.
  unfold add in A.
  destruct (edge_mesh_vertices cadd cmul shape) as [ev|]; [|discriminate].
  match type of A with Some ?r = _ => assert (Hs : r = s1) by congruence end.
  subst s1. clear A. fields.
  set (n := len (shapes s)) in *.
  set (fv := _face_vertices shape) in *.
  set (et := map (tri_map (fun v => v + len (_mesh_vertices s))) (_edge_triangles shape)).
  set (ft := map (tri_map (fun v => v + len (_mesh_vertices s ++ ev))) (_face_triangles shape)).
  assert (Hk : forall A (a b : list A) keys k, length keys = length a ->
             Forall (in_range n) keys ->
             keep_where n (keys ++ repeat n k) (a ++ b) = a).
  { intros. apply keep_where_fresh; auto using in_range_neq, Forall_repeat. }
  assert (Hcol : forall (l : list tag) k1 k2,
             col0 ((l ++ repeat (n, 1) k1) ++ repeat (n, 0) k2)
             = col0 l ++ repeat n (k1 + k2)).
  { intros. unfold col0. rewrite <- app_assoc, !map_app, !map_repeat, repeat_app.
    reflexivity. }
  unfold remove_one. fields.
  rewrite !mask_get_neq
    by (rewrite ?Hcol; unfold col0, et, ft;
        repeat rewrite ?length_app, ?length_map, ?repeat_length;
        destruct W; fields; lia).
  rewrite !Hcol, <- !app_assoc.
  rewrite !Hk;
    try solve [ unfold col0; rewrite length_map; destruct W; lia
              | destruct W; auto
              | apply Forall_col0; destruct W; auto ].
  (* the removed block *)
  assert (Hw : where_ (map negb (neq_mask n (col0 (_mesh_vertices_index s)
                                              ++ repeat n (length ev + length fv))))
               = zseq (len (_mesh_vertices_index s)) (length ev + length fv)).
  { pose proof (@removed_rows n (_mesh_vertices_index s)
                  (repeat (n, 0) (length ev + length fv)) []) as Hr.
    rewrite app_nil_r in Hr. unfold col0 in *.
    rewrite map_app, map_repeat in Hr. simpl in Hr.
    rewrite repeat_length in Hr. apply Hr.
    - apply Forall_repeat. reflexivity.
    - pose proof (wf_mvi W) as F. eapply Forall_impl; [|exact F].
      unfold in_range, n. simpl. lia.
    - constructor. }
  rewrite !Hw.
  assert (Hpos : (0 < length ev + length fv)%nat).
  { unfold len in Hmesh. rewrite !length_app in Hmesh. fold fv in Hmesh. lia. }
  rewrite py_get_zseq by exact Hpos.
  assert (Hz : len (shapes s) = len (_z_order s))
    by (unfold len; rewrite (wf_len_z_order W); reflexivity).
  subst n. rewrite py_del_last, Hz, py_del_last, <- Hz.
  rewrite (@map_id_in _ _ _ (in_range_fixed (wf_index W))).
  rewrite (@map_id_in _ _ _ (in_range_tag_fixed (wf_mvi W))).
  rewrite (@map_id_in _ _ _ (in_range_tag_fixed (wf_mti W))).
  rewrite (@map_id_in _ (tri_map _) (_mesh_triangles s)).
  - destruct s; reflexivity.
  - pose proof (wf_tri_valid W) as V. eapply Forall_impl; [|exact V].
    intros [[a b] c] (Ha & Hb & Hc). unfold shift_above, len in *. simpl.
    rewrite (wf_len_mvi W).
    destruct (Z.gtb_spec a (Z.of_nat (length (_mesh_vertices s)))),
             (Z.gtb_spec b (Z.of_nat (length (_mesh_vertices s)))),
             (Z.gtb_spec c (Z.of_nat (length (_mesh_vertices s)))); try lia.
    reflexivity.
Qed.

(** *** [add] establishes the invariant *)

Lemma wf_empty : wf (empty coord rgba).
Proof.
  constructor; simpl; auto.
  unfold in_range, len; simpl. intros j Hj. lia.
Qed.

Lemma zip_add_length (a b : list (coord * coord)) :
  length a = length b -> length (zip_add cadd a b) = length a.
Proof.
  revert b; induction a as [|p a IH]; intros [|q b] H; simpl in *;
    try discriminate; auto.
Qed.

Lemma edge_mesh_vertices_wf (shape : Shape coord rgba) :
  wf_shape shape ->
  exists ev, edge_mesh_vertices cadd cmul shape = Some ev /\
             length ev = length (_edge_vertices shape).
Proof.
  intros Ws. unfold edge_mesh_vertices, broadcast_add.
  rewrite length_map, (wfs_offsets Ws), Nat.eqb_refl.
  eexists; split; [reflexivity|].
  apply zip_add_length. rewrite length_map. symmetry. apply (wfs_offsets Ws).
Qed.

Lemma Forall2_repeat A B (P : A -> B -> Prop) (l : list A) (x : B) :
  Forall (fun t => P t x) l -> Forall2 P l (repeat x (length l)).
Proof. induction 1; simpl; constructor; auto. Qed.

Lemma owned_app (mvi extra : list (Z * Z)) (j v : Z) :
  owned_by mvi j v -> owned_by (mvi ++ extra) j v.
Proof.
  intros (H0 & tg & Hn & Hj). split; auto. exists tg. split; auto.
  rewrite nth_error_app1; auto. apply nth_error_Some. congruence.
Qed.

Lemma owned_new (mvi blk post : list (Z * Z)) (j v : Z) :
  Forall (fun t => fst t = j) blk -> 0 <= v < len blk ->
  owned_by (mvi ++ blk ++ post) j (v + len mvi).
Proof.
  intros Hb Hv. pose proof (len_nonneg mvi). split; [lia|].
  rewrite nth_error_blk by lia.
  replace (v + len mvi - len mvi) with v by lia.
  destruct (nth_error blk (Z.to_nat v)) as [tg|] eqn:E.
  - exists tg. split; auto. apply (@Forall_nth_error _ _ _ _ _ Hb E).
  - apply nth_error_None in E. unfold len in *. lia.
Qed.

Lemma in_range_succ (n j : Z) : in_range n j -> in_range (n + 1) j.
Proof. unfold in_range. lia. Qed.

Lemma wf_rows_of_wf (s : ShapesList coord rgba) :
  wf s -> wf_rows (len (shapes s) + 1) (len (shapes s)) s.
Proof.
  intros W.
  assert (R : forall j, in_range (len (shapes s)) j ->
                        in_range (len (shapes s) + 1) j /\ j <> len (shapes s))
    by (unfold in_range; intros; lia).
  constructor; try solve [destruct W; assumption].
  - eapply Forall_impl; [|exact (wf_index W)]. exact R.
  - eapply Forall_impl; [|exact (wf_mvi W)]. intros t. apply R.
  - eapply Forall_impl; [|exact (wf_mti W)]. intros t. apply R.
  - intros j Hj Hne. apply (wf_block W). unfold in_range in *. lia.
Qed.

Lemma py_set_in A (l : list A) (i : Z) (x : A) :
  0 <= i < len l ->
  exists l', py_set l i x = Some l' /\ length l' = length l.
Proof.
  intros H. unfold py_set. rewrite py_index_in by exact H.
  eexists; split; [reflexivity|].
  unfold len in H.
  rewrite length_app, length_firstn. cbn [length]. rewrite length_skipn. lia.
Qed.

(** [add] on a state whose rows leave out the index the shape is stored at,
    whether the shape is appended or put back at that index. *)
Lemma add_rows_wf (s : ShapesList coord rgba) (shape : Shape coord rgba)
      (shape_index : option Z) (n i : Z) :
  match shape_index with
  | None => i = len (shapes s) /\ n = i + 1
  | Some j => i = j /\ n = len (shapes s)
  end ->
  in_range n i ->
  length (_z_order s) = length (shapes s) ->
  wf_rows n i s -> wf_shape shape ->
  exists s', add cadd cmul s shape shape_index = Some s' /\ wf s'.
Proof.
  intros Hidx Hi Hz W Ws.
  destruct (edge_mesh_vertices_wf Ws) as (ev & Hev & Lev).
  pose proof (Forall2_length_eq (wr_owned W)) as Hmt.
  assert (Hr : exists sh' zo',
             match shape_index with
             | None => Some (len (shapes s), shapes s ++ [shape],
                             _z_order s ++ [z_order shape])
             | Some j =>
                 sh <- py_set (shapes s) j shape ;;
                 zo <- py_set (_z_order s) j (z_order shape) ;;
                 Some (j, sh, zo)
             end = Some (i, sh', zo')
             /\ len sh' = n /\ length zo' = length sh').
  { destruct shape_index as [j|].
    - destruct Hidx as [-> ->].
      destruct (@py_set_in _ (shapes s) j shape Hi) as (sh' & -> & Ls).
      destruct (@py_set_in _ (_z_order s) j (z_order shape)) as (zo' & -> & Lz).
      { unfold in_range, len in *. rewrite Hz. exact Hi. }
      exists sh', zo'. repeat split; [unfold len; congruence | congruence].
    - destruct Hidx as [-> ->].
      exists (shapes s ++ [shape]), (_z_order s ++ [z_order shape]).
      repeat split; [rewrite len_app; reflexivity|].
      rewrite !length_app, Hz. reflexivity. }
  destruct Hr as (sh' & zo' & Hr & Hn & Hzo).
  unfold add. rewrite Hr. cbv beta iota zeta. rewrite Hev.
  eexists; split; [reflexivity|].
  set (fv := _face_vertices shape).
  assert (Hm : len (_mesh_vertices s) = len (_mesh_vertices_index s))
    by (unfold len; rewrite (wr_len_mvi W); reflexivity).
  assert (Hmesh : repeat (i, 1) (length ev) ++ repeat (i, 0) (length fv) <> []).
  { pose proof (wfs_mesh Ws) as M. fold fv in M.
    destruct ev; [|discriminate]. destruct (_edge_vertices shape); [|discriminate].
    destruct fv; [exfalso; apply M; reflexivity | discriminate]. }
  assert (Hblk : Forall (fun t : Z * Z => fst t = i)
                   (repeat (i, 1) (length ev) ++ repeat (i, 0) (length fv)))
    by (apply Forall_app; split; apply Forall_repeat; reflexivity).
  constructor; fields; rewrite ?Hn.
  - rewrite !length_app, repeat_length, (wr_len_index W). reflexivity.
  - exact Hzo.
  - rewrite !length_app, !repeat_length, (wr_len_mvi W). reflexivity.
  - rewrite !length_app, !repeat_length, (wr_len_mtc W). reflexivity.
  - rewrite !length_app, !repeat_length, (wr_len_mtz W). reflexivity.
  - apply Forall_app; split; [|apply Forall_repeat; exact Hi].
    eapply Forall_impl; [|exact (wr_index W)]. intros j [H _]. exact H.
  - rewrite !Forall_app; repeat split; try (apply Forall_repeat; exact Hi).
    eapply Forall_impl; [|exact (wr_mvi W)]. intros t [H _]. exact H.
  - rewrite !Forall_app; repeat split; try (apply Forall_repeat; exact Hi).
    eapply Forall_impl; [|exact (wr_mti W)]. intros t [H _]. exact H.
  - rewrite <- (app_assoc (_mesh_vertices_index s)).
    apply Forall2_app; [apply Forall2_app|].
    + eapply Forall2_impl; [|exact (wr_owned W)]. intros t tg H.
      eapply tri_all_impl; [|exact H]. intros v. apply owned_app.
    + apply Forall2_repeat. apply Forall_map.
      eapply Forall_impl; [|exact (wfs_edge Ws)]. intros t H.
      apply tri_all_map. eapply tri_all_impl; [|exact H]. simpl. intros v Hv.
      rewrite Hm. apply owned_new; [apply Forall_repeat; reflexivity|].
      unfold len in *. rewrite repeat_length. lia.
    + apply Forall2_repeat. apply Forall_map.
      eapply Forall_impl; [|exact (wfs_face Ws)]. intros t H.
      apply tri_all_map. eapply tri_all_impl; [|exact H]. simpl. intros v Hv.
      assert (O : owned_by ((_mesh_vertices_index s ++ repeat (i, 1) (length ev))
                            ++ repeat (i, 0) (length fv) ++ []) i
                    (v + len (_mesh_vertices_index s ++ repeat (i, 1) (length ev)))).
      { apply owned_new; [apply Forall_repeat; reflexivity|].
        unfold len in *. rewrite repeat_length. exact Hv. }
      rewrite app_nil_r, <- app_assoc in O.
      replace (len (_mesh_vertices s ++ ev))
        with (len (_mesh_vertices_index s ++ repeat (i, 1) (length ev)));
        [exact O|].
      rewrite !len_app, Hm. unfold len. rewrite repeat_length. reflexivity.
  - intros j Hj. rewrite <- (app_assoc (_mesh_vertices_index s)).
    destruct (Z.eq_dec j i) as [->|Hji].
    + exists (_mesh_vertices_index s),
             (repeat (i, 1) (length ev) ++ repeat (i, 0) (length fv)), [].
      rewrite app_nil_r. repeat split; auto.
      eapply Forall_impl; [|exact (wr_mvi W)]. intros t [_ H]. exact H.
    + destruct (wr_block W Hj Hji) as (p & b & q & E & Hne & Hb & Hp & Hq).
      exists p, b, (q ++ repeat (i, 1) (length ev) ++ repeat (i, 0) (length fv)).
      rewrite E, <- !app_assoc. repeat split; auto.
      apply Forall_app; split; auto.
      eapply Forall_impl; [|exact Hblk]. simpl. intros t ->. auto.
Qed.

(** Appending a well-formed shape keeps the data-model invariant. *)
Lemma add_wf (s : ShapesList coord rgba) (shape : Shape coord rgba) :
  wf s -> wf_shape shape ->
  exists s', add cadd cmul s shape None = Some s' /\ wf s'.
Proof.
  intros W Ws.
  apply add_rows_wf with (n := len (shapes s) + 1) (i := len (shapes s)); auto.
  - pose proof (len_nonneg (shapes s)). unfold in_range. lia.
  - apply (wf_len_z_order W).
  - apply wf_rows_of_wf. exact W.
Qed.

(** [remove_one] without renumbering, as [edit] calls it, with the block of
    shape [i] named. *)
Lemma remove_one_keep_eq (s : ShapesList coord rgba) (i : Z) pre blk post :
  wf s ->
  _mesh_vertices_index s = pre ++ blk ++ post -> blk <> [] ->
  Forall (fun t => fst t = i) blk ->
  Forall (fun t => fst t <> i) pre ->
  Forall (fun t => fst t <> i) post ->
  remove_one s i false
  = Some (mkShapesList
      (shapes s)
      (keep_where i (_index s) (_vertices s))
      (keep_where i (_index s) (_index s))
      (_z_order s)
      (keep_where i (col0 (_mesh_vertices_index s)) (_mesh_vertices s))
      (keep_where i (col0 (_mesh_vertices_index s)) (_mesh_vertices_index s))
      (map (tri_map (shift_above (len pre) (len blk)))
           (keep_where i (col0 (_mesh_triangles_index s)) (_mesh_triangles s)))
      (keep_where i (col0 (_mesh_triangles_index s)) (_mesh_triangles_index s))
      (keep_where i (col0 (_mesh_triangles_index s)) (_mesh_triangles_colors s))
      (keep_where i (col0 (_mesh_triangles_index s)) (_mesh_triangles_z_order s))).
Proof.
  intros W Hd Hne Hb Hpre Hpost.
  pose proof (Forall2_length_eq (wf_owned W)) as Hmt.
  unfold remove_one.
  rewrite !mask_get_neq;
    try (unfold col0; rewrite length_map);
    try solve [ auto | destruct W; congruence ].
  assert (Hw : where_ (map negb (neq_mask i (col0 (_mesh_vertices_index s))))
               = zseq (len pre) (length blk))
    by (rewrite Hd; apply removed_rows; assumption).
  fold (col0 (_mesh_vertices_index s)). rewrite !Hw.
  rewrite py_get_zseq by (destruct blk; [congruence | simpl; lia]).
  replace (len (zseq (len pre) (length blk))) with (len blk)
    by (unfold len; rewrite zseq_length; reflexivity).
  reflexivity.
Qed.




(** ** The other methods of [ShapesList] *)

Ltac conj := repeat match goal with |- _ /\ _ => split end.

(** A shape index that tags no mesh vertex cannot be removed: [indices[0]]
    of the empty array of removed rows raises. *)
Lemma remove_one_absent (s : ShapesList coord rgba) (i : Z) (renumber : bool) :
  Forall (fun t => fst t <> i) (_mesh_vertices_index s) ->
  remove_one s i renumber = None.
Proof.
  intros F. unfold remove_one.
  repeat match goal with
         | |- context [mask_get ?m ?a] =>
             destruct (mask_get m a); [|reflexivity]
         end.
  unfold where_. rewrite where_from_false; [reflexivity|].
  unfold neq_mask, col0. rewrite !Forall_map.
  eapply Forall_impl; [|exact F]. simpl. intros t Ht.
  destruct (Z.eqb_spec (fst t) i); [contradiction | reflexivity].
Qed.

Lemma in_range_dec (n j : Z) : {in_range n j} + {~ in_range n j}.
Proof.
  unfold in_range.
  destruct (Z_le_dec 0 j), (Z_lt_dec j n); (left; lia) || (right; lia).
Qed.

(** X1.  On a well-formed collection [remove_one] raises exactly when the
    index is not one of [0 .. len(shapes) - 1]: an index past the end, and
    also a negative index, which a Python list would accept. *)
Theorem remove_one_index_error (s : ShapesList coord rgba) (i : Z)
  (renumber : bool) :
  wf s ->
  (remove_one s i renumber = None <-> ~ in_range (len (shapes s)) i).
Proof.
  intros W. split.
  - intros R Hi.
    destruct (wf_block W Hi) as (pre & blk & post & Hd & Hne & Hb & Hpre & Hpost).
    destruct renumber.
    + rewrite (remove_one_eq W Hi Hd Hne Hb Hpre Hpost) in R. discriminate.
    + rewrite (remove_one_keep_eq W Hd Hne Hb Hpre Hpost) in R. discriminate.
  - intros Hi. apply remove_one_absent.
    eapply Forall_impl; [|exact (wf_mvi W)]. simpl. intros t Ht E. rewrite E in Ht. auto.
Qed.

(** [add] written out. *)
Lemma add_eq (s : ShapesList coord rgba) (shape : Shape coord rgba) :
  add cadd cmul s shape None
  = (ev <- edge_mesh_vertices cadd cmul shape ;; Some (appended s shape ev)).
Proof.
  unfold add, appended, placed.
  destruct (edge_mesh_vertices cadd cmul shape); [|reflexivity].
  rewrite !length_map. reflexivity.
Qed.





Lemma add_each_spec (l : list (Shape coord rgba)) :
  forall s : ShapesList coord rgba,
    wf s -> Forall (@wf_shape coord rgba) l ->
    exists s', add_each cadd cmul s l = Some s' /\
      shapes s' = shapes s ++ l /\
      _z_order s' = _z_order s ++ map (@z_order coord rgba) l /\
      _vertices s' = _vertices s ++ flat_map (@data coord rgba) l /\
      _index s' = _index s ++ index_of_shapes (len (shapes s)) l /\
      wf s'.
Proof.
  induction l as [|shape l IH]; intros s W F.
  - exists s. simpl. rewrite !app_nil_r. conj; auto.
  - inversion F as [|x y Ws F']; subst.
    destruct (add_wf W Ws) as (s1 & E & W1).
    destruct (edge_mesh_vertices_wf Ws) as (ev & Hev & _).
    pose proof E as E0. rewrite add_eq, Hev in E0.
    assert (Hs : appended s shape ev = s1) by congruence.
    assert (Hsh : shapes s1 = shapes s ++ [shape])
      by (rewrite <- Hs; reflexivity).
    assert (Hzo : _z_order s1 = _z_order s ++ [z_order shape])
      by (rewrite <- Hs; reflexivity).
    assert (Hv : _vertices s1 = _vertices s ++ data shape)
      by (rewrite <- Hs; reflexivity).
    assert (Hi : _index s1
                 = _index s ++ repeat (len (shapes s)) (length (data shape)))
      by (rewrite <- Hs; reflexivity).
    destruct (IH s1 W1 F') as (s' & E' & Hsh' & Hzo' & Hv' & Hi' & W').
    exists s'. cbn [add_each]. rewrite E.
    split; [exact E'|].
    rewrite Hsh', Hzo', Hv', Hi', Hsh, Hzo, Hv, Hi, len_app.
    cbn [map flat_map index_of_shapes]. rewrite <- !app_assoc.
    conj; auto.
Qed.

(** X4.  [set] with a list of shapes forgets what the collection held and
    gives what [__init__] gives for the same list: the shapes in the order
    of the list, their z-orders in [_z_order], their vertices one shape after
    the other in [_vertices], each tagged in [_index] with the position of
    its shape, in a collection that satisfies the invariant. *)
Theorem set_builds (s : ShapesList coord rgba) (l : list (Shape coord rgba)) :
  Forall (@wf_shape coord rgba) l ->
  exists s',
    set cadd cmul s (Many l) = Some s' /\
    __init__ cadd cmul (Many l) = Some s' /\
    shapes s' = l /\
    _z_order s' = map (@z_order coord rgba) l /\
    _vertices s' = flat_map (@data coord rgba) l /\
    _index s' = index_of_shapes 0 l /\
    wf s'.
Proof.
  intros F.
  destruct (@add_each_spec l (empty coord rgba) wf_empty F)
    as (s' & E & Hsh & Hzo & Hv & Hi & W').
  exists s'. unfold set, __init__, remove_all, add_arg.
  conj; auto.
Qed.

(** *** Assignments through a mask *)

Lemma mask_fill_app A (m1 m2 : list bool) (a1 a2 : list A) (v : A) r1 r2 :
  mask_fill m1 a1 v = Some r1 -> mask_fill m2 a2 v = Some r2 ->
  mask_fill (m1 ++ m2) (a1 ++ a2) v = Some (r1 ++ r2).
Proof.
  revert a1 r1; induction m1 as [|b m1 IH]; intros [|x a1] r1 H1 H2;
    simpl in *; try discriminate.
  - injection H1 as <-. exact H2.
  - destruct (mask_fill m1 a1 v) as [r|] eqn:E; [|discriminate].
    injection H1 as <-. rewrite (IH _ _ E H2). reflexivity.
Qed.

Lemma mask_fill_none A (m : list bool) (a : list A) (v : A) :
  Forall (fun b => b = false) m -> length m = length a ->
  mask_fill m a v = Some a.
Proof.
  intros F; revert a; induction F as [|b m -> F IH]; intros [|x a] L;
    simpl in *; try discriminate; auto.
  rewrite IH by lia. reflexivity.
Qed.

Lemma mask_fill_all A (m : list bool) (a : list A) (v : A) :
  Forall (fun b => b = true) m -> length m = length a ->
  mask_fill m a v = Some (repeat v (length a)).
Proof.
  intros F; revert a; induction F as [|b m -> F IH]; intros [|x a] L;
    simpl in *; try discriminate; auto.
  rewrite IH by lia. reflexivity.
Qed.

Lemma mask_put_rest A (m : list bool) (a : list A) :
  Forall (fun b => b = false) m -> length m = length a ->
  mask_put m a [] = Some a.
Proof.
  intros F; revert a; induction F as [|b m -> F IH]; intros [|x a] L;
    simpl in *; try discriminate; auto.
  rewrite IH by lia. reflexivity.
Qed.

Lemma mask_put_skip A (m1 m2 : list bool) (a1 a2 vals r : list A) :
  Forall (fun b => b = false) m1 -> length m1 = length a1 ->
  mask_put m2 a2 vals = Some r ->
  mask_put (m1 ++ m2) (a1 ++ a2) vals = Some (a1 ++ r).
Proof.
  intros F; revert a1; induction F as [|b m1 -> F IH]; intros [|x a1] L H;
    simpl in *; try discriminate; auto.
  rewrite IH by (auto; lia). reflexivity.
Qed.

Lemma mask_put_take A (m1 m2 : list bool) (a1 a2 v1 vals r : list A) :
  Forall (fun b => b = true) m1 -> length m1 = length a1 ->
  length v1 = length a1 ->
  mask_put m2 a2 vals = Some r ->
  mask_put (m1 ++ m2) (a1 ++ a2) (v1 ++ vals) = Some (v1 ++ r).
Proof.
  intros F; revert a1 v1; induction F as [|b m1 -> F IH];
    intros [|x a1] [|y v1] L Lv H; simpl in *; try discriminate; auto.
  rewrite IH by (auto; lia). reflexivity.
Qed.

Lemma count_true_app (m1 m2 : list bool) :
  count_true (m1 ++ m2) = (count_true m1 + count_true m2)%nat.
Proof. unfold count_true. rewrite filter_app, length_app. reflexivity. Qed.

Lemma count_true_none (m : list bool) :
  Forall (fun b => b = false) m -> count_true m = 0%nat.
Proof. induction 1 as [|b m -> F IH]; simpl; auto. Qed.

Lemma count_true_all (m : list bool) :
  Forall (fun b => b = true) m -> count_true m = length m.
Proof.
  induction 1 as [|b m -> F IH]; simpl; auto.
  unfold count_true in *. simpl. rewrite IH. reflexivity.
Qed.

(** The rows under a block of the mask are replaced by the values, the rows
    before and after it stay. *)
Lemma mask_set_block A (m0 m1 m2 : list bool) (a0 a1 a2 v : list A) :
  Forall (fun b => b = false) m0 -> Forall (fun b => b = true) m1 ->
  Forall (fun b => b = false) m2 ->
  length m0 = length a0 -> length m1 = length a1 -> length m2 = length a2 ->
  length v = length a1 ->
  mask_set (m0 ++ m1 ++ m2) (a0 ++ a1 ++ a2) v = Some (a0 ++ v ++ a2).
Proof.
  intros F0 F1 F2 L0 L1 L2 Lv. unfold mask_set.
  rewrite !length_app, L0, L1, L2, Nat.eqb_refl. cbn [negb].
  rewrite !count_true_app, (count_true_none F0), (count_true_all F1),
    (count_true_none F2), L1, <- Lv.
  replace (0 + (length v + 0))%nat with (length v) by lia.
  rewrite Nat.eqb_refl.
  apply mask_put_skip; auto.
  rewrite <- (app_nil_r v) at 1.
  apply mask_put_take; auto.
  apply mask_put_rest; auto.
Qed.

Lemma tag_mask_other (i t : Z) (l : list tag) :
  Forall (fun r => fst r <> i) l ->
  Forall (fun b => b = false) (tag_mask i t l).
Proof.
  intros F. unfold tag_mask. rewrite Forall_map.
  eapply Forall_impl; [|exact F]. simpl. intros r Hr.
  destruct (Z.eqb_spec (fst r) i); [contradiction | reflexivity].
Qed.

Lemma tag_mask_same (i t : Z) (k : nat) :
  Forall (fun b => b = true) (tag_mask i t (repeat (i, t) k)).
Proof.
  unfold tag_mask. rewrite Forall_map. apply Forall_repeat. simpl.
  rewrite !Z.eqb_refl. reflexivity.
Qed.

Lemma tag_mask_type (i t t' : Z) (k : nat) :
  t' <> t -> Forall (fun b => b = false) (tag_mask i t (repeat (i, t') k)).
Proof.
  intros H. unfold tag_mask. rewrite Forall_map. apply Forall_repeat. simpl.
  destruct (Z.eqb_spec t' t); [contradiction|]. apply andb_false_r.
Qed.

Lemma py_get_end A (l : list A) (x : A) : py_get (l ++ [x]) (len l) = Some x.
Proof.
  unfold py_get, len.
  rewrite py_index_in by (rewrite length_app; simpl; lia).
  rewrite Nat2Z.id, nth_error_app2, Nat.sub_diag by lia. reflexivity.
Qed.

Lemma py_set_end A (l : list A) (x y : A) :
  py_set (l ++ [x]) (len l) y = Some (l ++ [y]).
Proof.
  unfold py_set, len.
  rewrite py_index_in by (rewrite length_app; simpl; lia).
  rewrite Nat2Z.id. f_equal.
  induction l as [|z l IH]; [reflexivity|].
  simpl in *. f_equal. exact IH.
Qed.

(** An attribute assignment to the shape that [add] has just appended. *)
Lemma set_shape_appended (s : ShapesList coord rgba)
      (shape : Shape coord rgba) ev (f : Shape coord rgba -> Shape coord rgba) :
  set_shape (appended s shape ev) (len (shapes s)) f
  = Some (placed s shape (len (shapes s)) (shapes s ++ [f shape])
                 (_z_order s ++ [z_order shape]) ev).
Proof.
  unfold set_shape, appended. cbn [placed shapes].
  rewrite py_get_end, py_set_end. reflexivity.
Qed.

Lemma wf_tags_fresh (s : ShapesList coord rgba) :
  wf s ->
  Forall (fun r => fst r <> len (shapes s)) (_mesh_vertices_index s) /\
  Forall (fun r => fst r <> len (shapes s)) (_mesh_triangles_index s) /\
  Forall (fun j => j <> len (shapes s)) (_index s).
Proof.
  intros W. conj.
  - eapply Forall_impl; [|exact (wf_mvi W)]. unfold in_range. simpl. lia.
  - eapply Forall_impl; [|exact (wf_mti W)]. unfold in_range. simpl. lia.
  - eapply Forall_impl; [|exact (wf_index W)]. unfold in_range. simpl. lia.
Qed.

(** The colours of the triangles after one block of them is recoloured. *)
Lemma recolour_block A (i t : Z) (old : list tag) (a : list A)
      (kt ku : nat) (xt xu v : A) :
  length old = length a -> Forall (fun r => fst r <> i) old ->
  mask_fill (tag_mask i t ((old ++ repeat (i, 1) kt) ++ repeat (i, 0) ku))
            ((a ++ repeat xt kt) ++ repeat xu ku) v
  = Some ((a ++ repeat (if t =? 1 then v else xt) kt)
            ++ repeat (if t =? 0 then v else xu) ku).
Proof.
  intros L F. unfold tag_mask. rewrite !map_app.
  fold (tag_mask i t old). fold (tag_mask i t (repeat (i, 1) kt)).
  fold (tag_mask i t (repeat (i, 0) ku)).
  apply mask_fill_app; [apply mask_fill_app|].
  - apply mask_fill_none; [apply tag_mask_other; exact F|].
    unfold tag_mask. rewrite length_map. exact L.
  - destruct (Z.eqb_spec t 1) as [->|H1].
    + rewrite mask_fill_all, repeat_length; auto using tag_mask_same.
      unfold tag_mask. rewrite length_map, !repeat_length. reflexivity.
    + apply mask_fill_none; [apply tag_mask_type; auto|].
      unfold tag_mask. rewrite length_map, !repeat_length. reflexivity.
  - destruct (Z.eqb_spec t 0) as [->|H0].
    + rewrite mask_fill_all, repeat_length; auto using tag_mask_same.
      unfold tag_mask. rewrite length_map, !repeat_length. reflexivity.
    + apply mask_fill_none; [apply tag_mask_type; auto|].
      unfold tag_mask. rewrite length_map, !repeat_length. reflexivity.
Qed.

(** X5.  Changing a colour of the shape that was just added gives the
    collection that adding the recoloured shape gives: [update_edge_color]
    repaints the edge triangles of that shape and no other triangle, and
    [update_face_color] its face triangles. *)
Theorem update_color_after_add (s a : ShapesList coord rgba)
  (shape : Shape coord rgba) (c : rgba) :
  wf s -> add cadd cmul s shape None = Some a ->
  update_edge_color a (len (shapes s)) c
  = add cadd cmul s (with_edge_color shape c) None /\
  update_face_color a (len (shapes s)) c
  = add cadd cmul s (with_face_color shape c) None.
Proof.
  intros W A. rewrite add_eq in A. rewrite !add_eq.
  change (edge_mesh_vertices cadd cmul (with_edge_color shape c))
    with (edge_mesh_vertices cadd cmul shape).
  change (edge_mesh_vertices cadd cmul (with_face_color shape c))
    with (edge_mesh_vertices cadd cmul shape).
  destruct (edge_mesh_vertices cadd cmul shape) as [ev|]; [|discriminate].
  injection A as <-.
  destruct (wf_tags_fresh W) as (_ & Fmti & _).
  pose proof (Forall2_length_eq (wf_owned W)) as Hmt.
  assert (L : length (_mesh_triangles_index s)
              = length (_mesh_triangles_colors s))
    by (rewrite (wf_len_mtc W); auto).
  unfold update_edge_color, update_face_color.
  rewrite !set_shape_appended. unfold appended, placed. fields.
  rewrite !py_get_end.
  rewrite !recolour_block by auto.
  split; reflexivity.
Qed.

Lemma col0_mask_other (i : Z) (l : list tag) :
  Forall (fun r => fst r <> i) l ->
  Forall (fun b => b = false) (col0_mask i l).
Proof.
  intros F. unfold col0_mask. rewrite Forall_map.
  eapply Forall_impl; [|exact F]. simpl. intros r Hr.
  destruct (Z.eqb_spec (fst r) i); [contradiction | reflexivity].
Qed.

Lemma col0_mask_same (i t : Z) (k : nat) :
  Forall (fun b => b = true) (col0_mask i (repeat (i, t) k)).
Proof.
  unfold col0_mask. rewrite Forall_map. apply Forall_repeat. simpl.
  apply Z.eqb_refl.
Qed.

Lemma col0_fill_blocks A (i : Z) (old : list tag) (a : list A)
      (k1 k0 : nat) (x1 x0 v : A) :
  length old = length a -> Forall (fun r => fst r <> i) old ->
  mask_fill (col0_mask i ((old ++ repeat (i, 1) k1) ++ repeat (i, 0) k0))
            ((a ++ repeat x1 k1) ++ repeat x0 k0) v
  = Some ((a ++ repeat v k1) ++ repeat v k0).
Proof.
  intros L F. unfold col0_mask. rewrite !map_app.
  fold (col0_mask i old). fold (col0_mask i (repeat (i, 1) k1)).
  fold (col0_mask i (repeat (i, 0) k0)).
  apply mask_fill_app; [apply mask_fill_app|].
  - apply mask_fill_none; [apply col0_mask_other; exact F|].
    unfold col0_mask. rewrite length_map. exact L.
  - rewrite mask_fill_all, repeat_length; auto using col0_mask_same.
    unfold col0_mask. rewrite length_map, !repeat_length. reflexivity.
  - rewrite mask_fill_all, repeat_length; auto using col0_mask_same.
    unfold col0_mask. rewrite length_map, !repeat_length. reflexivity.
Qed.

(** X6.  Changing the z-order of the shape that was just added gives the
    collection that adding the shape with the new z-order gives, except for
    the array [_z_order]: [update_z_order] writes the shape and the z-order
    of its triangles, and leaves the entry of the shape in [_z_order] at the
    old value. *)
Theorem update_z_order_after_add (s a : ShapesList coord rgba)
  (shape : Shape coord rgba) (z : Z) :
  wf s -> add cadd cmul s shape None = Some a ->
  exists b,
    add cadd cmul s (with_z_order shape z) None = Some b /\
    update_z_order a (len (shapes s)) z
    = Some (mkShapesList (shapes b) (_vertices b) (_index b) (_z_order a)
              (_mesh_vertices b) (_mesh_vertices_index b) (_mesh_triangles b)
              (_mesh_triangles_index b) (_mesh_triangles_colors b)
              (_mesh_triangles_z_order b)) /\
    _z_order a = _z_order s ++ [z_order shape] /\
    _z_order b = _z_order s ++ [z].
Proof.
  intros W A. rewrite add_eq in A. rewrite add_eq.
  change (edge_mesh_vertices cadd cmul (with_z_order shape z))
    with (edge_mesh_vertices cadd cmul shape).
  destruct (edge_mesh_vertices cadd cmul shape) as [ev|]; [|discriminate].
  injection A as <-.
  destruct (wf_tags_fresh W) as (_ & Fmti & _).
  pose proof (Forall2_length_eq (wf_owned W)) as Hmt.
  assert (L : length (_mesh_triangles_index s)
              = length (_mesh_triangles_z_order s))
    by (rewrite (wf_len_mtz W); auto).
  eexists; split; [reflexivity|].
  unfold update_z_order.
  rewrite set_shape_appended. unfold appended, placed. fields.
  rewrite py_get_end. cbn [z_order with_z_order].
  rewrite col0_fill_blocks by auto.
  conj; reflexivity.
Qed.

Lemma mask_set_tail A (m0 m1 : list bool) (a0 a1 v : list A) :
  Forall (fun b => b = false) m0 -> Forall (fun b => b = true) m1 ->
  length m0 = length a0 -> length m1 = length a1 -> length v = length a1 ->
  mask_set (m0 ++ m1) (a0 ++ a1) v = Some (a0 ++ v).
Proof.
  intros F0 F1 L0 L1 Lv.
  pose proof (@mask_set_block A m0 m1 [] a0 a1 [] v F0 F1 (Forall_nil _)
                L0 L1 eq_refl Lv) as H.
  rewrite !app_nil_r in H. exact H.
Qed.

(** [_update_mesh_vertices] on the shape that [add] has just appended, once
    the shape has been replaced by one whose vertex arrays have as many rows. *)
Lemma update_appended (s : ShapesList coord rgba)
      (shape shape' : Shape coord rgba) (zo : list Z) ev ev' (edge face : bool) :
  wf s ->
  edge_mesh_vertices cadd cmul shape' = Some ev' -> length ev' = length ev ->
  length (_face_vertices shape') = length (_face_vertices shape) ->
  length (data shape') = length (data shape) ->
  _update_mesh_vertices cadd cmul
    (placed s shape (len (shapes s)) (shapes s ++ [shape']) zo ev)
    (len (shapes s)) edge face
  = Some (mkShapesList (shapes s ++ [shape'])
            (_vertices s ++ (if face then data shape' else data shape))
            (_index s ++ repeat (len (shapes s)) (length (data shape)))
            zo
            ((_mesh_vertices s ++ (if edge then ev' else ev))
               ++ (if face then _face_vertices shape' else _face_vertices shape))
            (_mesh_vertices_index
               (placed s shape (len (shapes s)) (shapes s ++ [shape']) zo ev))
            (_mesh_triangles
               (placed s shape (len (shapes s)) (shapes s ++ [shape']) zo ev))
            (_mesh_triangles_index
               (placed s shape (len (shapes s)) (shapes s ++ [shape']) zo ev))
            (_mesh_triangles_colors
               (placed s shape (len (shapes s)) (shapes s ++ [shape']) zo ev))
            (_mesh_triangles_z_order
               (placed s shape (len (shapes s)) (shapes s ++ [shape']) zo ev))).
Proof.
  intros W Hev' Lev Lfv Ld.
  destruct (wf_tags_fresh W) as (Fmvi & _ & Fi).
  pose proof (wf_len_mvi W) as Lm. pose proof (wf_len_index W) as Li.
  set (n := len (shapes s)) in *.
  assert (E1 : mask_set (tag_mask n 1
                 ((_mesh_vertices_index s ++ repeat (n, 1) (length ev))
                    ++ repeat (n, 0) (length (_face_vertices shape))))
                 ((_mesh_vertices s ++ ev) ++ _face_vertices shape) ev'
               = Some ((_mesh_vertices s ++ ev') ++ _face_vertices shape)).
  { unfold tag_mask. rewrite !map_app, <- !app_assoc.
    apply mask_set_block;
      rewrite ?length_map, ?repeat_length; auto.
    - apply (@tag_mask_other n 1 _ Fmvi).
    - apply (tag_mask_same n 1).
    - apply (@tag_mask_type n 1 0). lia. }
  assert (E0 : forall e, length e = length ev ->
               mask_set (tag_mask n 0
                 ((_mesh_vertices_index s ++ repeat (n, 1) (length ev))
                    ++ repeat (n, 0) (length (_face_vertices shape))))
                 ((_mesh_vertices s ++ e) ++ _face_vertices shape)
                 (_face_vertices shape')
               = Some ((_mesh_vertices s ++ e) ++ _face_vertices shape')).
  { intros e Le. unfold tag_mask. rewrite !map_app.
    apply mask_set_tail;
      rewrite ?length_app, ?length_map, ?repeat_length; auto.
    - apply Forall_app. split.
      + apply (@tag_mask_other n 0 _ Fmvi).
      + apply (@tag_mask_type n 0 1). lia.
    - apply (tag_mask_same n 0). }
  assert (Ev : mask_set (map (fun j => j =? n)
                 (_index s ++ repeat n (length (data shape))))
                 (_vertices s ++ data shape) (data shape')
               = Some (_vertices s ++ data shape')).
  { rewrite map_app.
    apply mask_set_tail; rewrite ?length_map, ?repeat_length; auto.
    - rewrite Forall_map. eapply Forall_impl; [|exact Fi]. simpl.
      intros j Hj. destruct (Z.eqb_spec j n); [contradiction | reflexivity].
    - rewrite Forall_map. apply Forall_repeat. apply Z.eqb_refl. }
  unfold _update_mesh_vertices, placed. fields.
  destruct edge, face; fields; rewrite ?py_get_end, ?Hev', ?E1; fields;
    rewrite ?py_get_end, ?E0, ?Ev by auto; reflexivity.
Qed.

Lemma wf_shape_width (shape : Shape coord rgba) (w : coord) :
  wf_shape shape -> wf_shape (with_edge_width shape w).
Proof. intros [H1 H2 H3 H4]. constructor; assumption. Qed.

(** X7.  Changing the edge width of the shape that was just added gives the
    collection that adding the shape with the new width gives: the edge mesh
    vertices of that shape are recomputed in place, and nothing else
    changes. *)
Theorem update_edge_width_after_add (s a : ShapesList coord rgba)
  (shape : Shape coord rgba) (w : coord) :
  wf s -> wf_shape shape -> add cadd cmul s shape None = Some a ->
  update_edge_width cadd cmul a (len (shapes s)) w
  = add cadd cmul s (with_edge_width shape w) None.
Proof.
  intros W Ws A. rewrite add_eq in A. rewrite add_eq.
  destruct (edge_mesh_vertices_wf Ws) as (ev & Hev & Lev).
  destruct (edge_mesh_vertices_wf (wf_shape_width w Ws)) as (ev' & Hev' & Lev').
  rewrite Hev in A. injection A as <-. rewrite Hev'.
  cbn [_edge_vertices with_edge_width] in Lev'.
  unfold update_edge_width. rewrite set_shape_appended.
  rewrite (@update_appended s shape (with_edge_width shape w) _ ev ev')
    by (auto; congruence).
  unfold appended, placed. fields. cbn [with_edge_width data z_order
    edge_color face_color _edge_triangles _face_vertices _face_triangles].
  rewrite !len_app. unfold len. rewrite Lev, Lev'. reflexivity.
Qed.

(** X8.  [shift], [scale], [rotate], [flip] and [transform] on the shape
    that was just added: when the method of the shape keeps the numbers of
    its vertices, its triangles, its colours and its z-order, the collection
    is the one that adding the transformed shape gives; the rows of the
    shape are rewritten in place. *)
Theorem moved_after_add (method : Shape coord rgba -> Shape coord rgba)
  (s a : ShapesList coord rgba) (shape : Shape coord rgba) :
  wf s -> wf_shape shape -> wf_shape (method shape) ->
  same_layout shape (method shape) ->
  add cadd cmul s shape None = Some a ->
  moved cadd cmul method a (len (shapes s))
  = add cadd cmul s (method shape) None.
Proof.
  intros W Ws Ws' [Ld Le Lf Et Ft Ec Fc Ez] A.
  rewrite add_eq in A. rewrite add_eq.
  destruct (edge_mesh_vertices_wf Ws) as (ev & Hev & Lev).
  destruct (edge_mesh_vertices_wf Ws') as (ev' & Hev' & Lev').
  rewrite Hev in A. injection A as <-. rewrite Hev'.
  unfold moved. rewrite set_shape_appended.
  rewrite (@update_appended s shape (method shape) _ ev ev')
    by (auto; congruence).
  unfold appended, placed. fields.
  rewrite Et, Ft, Ec, Fc, Ez, Ld, Lf.
  rewrite !len_app. unfold len. rewrite Lev, Lev', Le. reflexivity.
Qed.

End CollectionFacts.

(** ** The concrete collection *)

Module DemoFacts.

Lemma line_wf : wf_shape Demo.line.
Proof.
  constructor; simpl; try reflexivity; try discriminate;
    repeat constructor; unfold len; simpl; lia.
Qed.

Lemma square_wf : wf_shape Demo.square.
Proof.
  constructor; simpl; try reflexivity; try discriminate;
    repeat constructor; unfold len; simpl; lia.
Qed.

Lemma one_line_wf : wf Demo.one_line.
Proof.
  destruct (add_wf Qplus Qmult (@wf_empty Q (Q * Q * Q * Q)) line_wf)
    as (s1 & E1 & Ws1).
  vm_compute in E1. injection E1 as <-. exact Ws1.
Qed.

Lemma two_shapes_wf : wf Demo.two_shapes.
Proof.
  destruct (add_wf Qplus Qmult one_line_wf square_wf) as (s2 & E2 & Ws2).
  vm_compute in E2. injection E2 as <-. exact Ws2.
Qed.

Lemma remove_one_renumbers_witness :
  wf Demo.two_shapes /\ in_range (len (shapes Demo.two_shapes)) 0 /\
  exists s' first count,
    remove_one Demo.two_shapes 0 true = Some s' /\
    0 < count /\
    (forall v, owned_by (_mesh_vertices_index Demo.two_shapes) 0 v
               <-> first <= v < first + count) /\
    len (_mesh_vertices s') = len (_mesh_vertices Demo.two_shapes) - count /\
    _index s' = renumber_after 0 (_index Demo.two_shapes) /\
    _mesh_vertices_index s'
    = renumber_tags_after 0 (_mesh_vertices_index Demo.two_shapes) /\
    _mesh_triangles_index s'
    = renumber_tags_after 0 (_mesh_triangles_index Demo.two_shapes) /\
    _mesh_triangles s'
    = map (tri_map (fun v => if first + count <=? v then v - count else v))
          (kept_triangles 0 (_mesh_triangles Demo.two_shapes)
                          (_mesh_triangles_index Demo.two_shapes)) /\
    Forall (tri_valid s') (_mesh_triangles s') /\
    wf s'.
Proof.
  assert (I : in_range (len (shapes Demo.two_shapes)) 0)
    by (unfold in_range, len; simpl; lia).
  split; [exact two_shapes_wf|]. split; [exact I|].
  exact (@remove_one_renumbers Q (Q * Q * Q * Q) Demo.two_shapes 0
           two_shapes_wf I).
Defined.

Lemma add_remove_one_roundtrip_witness :
  wf Demo.one_line /\
  add Qplus Qmult Demo.one_line Demo.square None = Some Demo.two_shapes /\
  len (_mesh_vertices Demo.one_line) < len (_mesh_vertices Demo.two_shapes) /\
  remove_one Demo.two_shapes (len (shapes Demo.one_line)) true
  = Some Demo.one_line.
Proof.
  assert (A : add Qplus Qmult Demo.one_line Demo.square None
              = Some Demo.two_shapes) by (vm_compute; reflexivity).
  assert (M : len (_mesh_vertices Demo.one_line)
              < len (_mesh_vertices Demo.two_shapes))
    by (unfold len; simpl; lia).
  split; [exact one_line_wf|]. split; [exact A|]. split; [exact M|].
  exact (@add_remove_one_roundtrip Q Qplus Qmult (Q * Q * Q * Q)
           Demo.one_line Demo.two_shapes Demo.square one_line_wf A M).
Defined.

End DemoFacts.

(** ** The other methods, on the concrete collection *)

Module MethodFacts.

Import DemoFacts.

Lemma remove_one_index_error_witness :
  wf Demo.two_shapes /\
  (remove_one Demo.two_shapes (-1) true = None
   <-> ~ in_range (len (shapes Demo.two_shapes)) (-1)).
Proof.
  split; [exact two_shapes_wf|].
  exact (@remove_one_index_error Q (Q * Q * Q * Q) Demo.two_shapes (-1) true
           two_shapes_wf).
Defined.



Lemma set_builds_witness :
  Forall (@wf_shape Q (Q * Q * Q * Q)) [Demo.line; Demo.square] /\
  exists s',
    set Qplus Qmult Demo.one_stub (Many [Demo.line; Demo.square]) = Some s' /\
    shapes s' = [Demo.line; Demo.square] /\
    _index s' = [0; 0; 1; 1; 1; 1] /\
    wf s'.
Proof.
  assert (F : Forall (@wf_shape Q (Q * Q * Q * Q)) [Demo.line; Demo.square])
    by (constructor; [exact line_wf | constructor; [exact square_wf | constructor]]).
  split; [exact F|].
  destruct (@set_builds Q Qplus Qmult (Q * Q * Q * Q) Demo.one_stub
              [Demo.line; Demo.square] F)
    as (s' & E & _ & Hs & _ & _ & Hi & W).
  exists s'. auto.
Defined.

Lemma update_color_after_add_witness :
  wf Demo.one_line /\
  add Qplus Qmult Demo.one_line Demo.square None = Some Demo.two_shapes /\
  update_edge_color Demo.two_shapes (len (shapes Demo.one_line)) Demo.white
  = add Qplus Qmult Demo.one_line (with_edge_color Demo.square Demo.white) None /\
  update_face_color Demo.two_shapes (len (shapes Demo.one_line)) Demo.coral
  = add Qplus Qmult Demo.one_line (with_face_color Demo.square Demo.coral) None.
Proof.
  assert (A : add Qplus Qmult Demo.one_line Demo.square None
              = Some Demo.two_shapes) by (vm_compute; reflexivity).
  split; [exact one_line_wf|]. split; [exact A|].
  split.
  - exact (proj1 (@update_color_after_add Q Qplus Qmult (Q * Q * Q * Q)
                    Demo.one_line Demo.two_shapes Demo.square Demo.white
                    one_line_wf A)).
  - exact (proj2 (@update_color_after_add Q Qplus Qmult (Q * Q * Q * Q)
                    Demo.one_line Demo.two_shapes Demo.square Demo.coral
                    one_line_wf A)).
Defined.

Lemma update_z_order_after_add_witness :
  wf Demo.one_line /\
  add Qplus Qmult Demo.one_line Demo.square None = Some Demo.two_shapes /\
  exists b s',
    add Qplus Qmult Demo.one_line (with_z_order Demo.square 7) None = Some b /\
    update_z_order Demo.two_shapes (len (shapes Demo.one_line)) 7 = Some s' /\
    _mesh_triangles_z_order s' = _mesh_triangles_z_order b /\
    _z_order s' = [1; 0] /\ _z_order b = [1; 7].
Proof.
  assert (A : add Qplus Qmult Demo.one_line Demo.square None
              = Some Demo.two_shapes) by (vm_compute; reflexivity).
  split; [exact one_line_wf|]. split; [exact A|].
  destruct (@update_z_order_after_add Q Qplus Qmult (Q * Q * Q * Q)
              Demo.one_line Demo.two_shapes Demo.square 7 one_line_wf A)
    as (b & Eb & Eu & Za & Zb).
  exists b. eexists. split; [exact Eb|]. split; [exact Eu|].
  split; [reflexivity|]. split; [exact Za | exact Zb].
Defined.

Lemma update_edge_width_after_add_witness :
  wf (empty Q (Q * Q * Q * Q)) /\ wf_shape Demo.line /\
  add Qplus Qmult (empty Q (Q * Q * Q * Q)) Demo.line None
  = Some Demo.one_line /\
  update_edge_width Qplus Qmult Demo.one_line
    (len (shapes (empty Q (Q * Q * Q * Q)))) 3%Q
  = add Qplus Qmult (empty Q (Q * Q * Q * Q))
        (with_edge_width Demo.line 3%Q) None.
Proof.
  assert (A : add Qplus Qmult (empty Q (Q * Q * Q * Q)) Demo.line None
              = Some Demo.one_line) by (vm_compute; reflexivity).
  split; [exact (@wf_empty Q (Q * Q * Q * Q))|].
  split; [exact line_wf|]. split; [exact A|].
  exact (@update_edge_width_after_add Q Qplus Qmult (Q * Q * Q * Q)
           (empty Q (Q * Q * Q * Q)) Demo.one_line Demo.line 3%Q
           (@wf_empty Q (Q * Q * Q * Q)) line_wf A).
Defined.

Lemma nudge_layout (v : Q * Q) (shape : Shape Q (Q * Q * Q * Q)) :
  wf_shape shape ->
  wf_shape (Demo.nudge v shape) /\ same_layout shape (Demo.nudge v shape).
Proof.
  destruct shape as [d w z ec fc ev eo et fv ft].
  intros [H1 H2 H3 H4]. simpl in *. split.
  - constructor; simpl; unfold len in *; rewrite ?length_map; auto.
    destruct ev, fv; simpl in *; congruence.
  - constructor; simpl; rewrite ?length_map; reflexivity.
Qed.

Lemma moved_after_add_witness :
  wf Demo.one_line /\ wf_shape Demo.square /\
  wf_shape (Demo.nudge (1, 2)%Q Demo.square) /\
  same_layout Demo.square (Demo.nudge (1, 2)%Q Demo.square) /\
  add Qplus Qmult Demo.one_line Demo.square None = Some Demo.two_shapes /\
  moved Qplus Qmult (Demo.nudge (1, 2)%Q) Demo.two_shapes
        (len (shapes Demo.one_line))
  = add Qplus Qmult Demo.one_line (Demo.nudge (1, 2)%Q Demo.square) None.
Proof.
  assert (A : add Qplus Qmult Demo.one_line Demo.square None
              = Some Demo.two_shapes) by (vm_compute; reflexivity).
  destruct (@nudge_layout (1, 2)%Q Demo.square square_wf) as [Wn Ln].
  split; [exact one_line_wf|]. split; [exact square_wf|].
  split; [exact Wn|]. split; [exact Ln|]. split; [exact A|].
  exact (@moved_after_add Q Qplus Qmult (Q * Q * Q * Q)
           (Demo.nudge (1, 2)%Q) Demo.one_line Demo.two_shapes Demo.square
           one_line_wf square_wf Wn Ln A).
Defined.

End MethodFacts.

(** ** The layer *)

Module LayerFacts.

Import Layer.

Local Open Scope Q_scope.

Section Setters.

Variable remove : ShapesList Q (Q * Q * Q * Q) -> option Z
                  -> option (ShapesList Q (Q * Q * Q * Q)).
Variable edit : ShapesList Q (Q * Q * Q * Q) -> option Z -> list (Q * Q)
                -> option (ShapesList Q (Q * Q * Q * Q)).
Variable update_opacity : ShapesList Q (Q * Q * Q * Q) -> Z -> Q
                          -> option (ShapesList Q (Q * Q * Q * Q)).

Lemma update_all_no_value_error d index opacity msg :
  snd (update_all update_opacity d index opacity) <> Some (ValueError msg).
Proof.
  revert d; induction index as [|i rest IH]; intros d; simpl.
  - discriminate.
  - destruct (update_opacity d i opacity); [apply IH | discriminate].
Qed.

Lemma in_unit_interval (opacity : Q) :
  Qle_bool 0 opacity && Qle_bool opacity 1 = true <-> 0 <= opacity <= 1.
Proof.
  rewrite andb_true_iff, !Qle_bool_iff. reflexivity.
Qed.

(** C8.  The [opacity] setter raises its [ValueError] exactly when the value
    is outside [0,1]; when it does, the layer is unchanged (the stored
    opacity and the collection with every shape in it); otherwise the value
    is stored. *)
Theorem set_opacity_range (l : Shapes) (opacity : Q) :
  ((exists msg, snd (set_opacity update_opacity l opacity) = Some (ValueError msg))
   <-> ~ (0 <= opacity <= 1)) /\
  (~ (0 <= opacity <= 1) -> fst (set_opacity update_opacity l opacity) = l) /\
  (0 <= opacity <= 1 ->
   _opacity (fst (set_opacity update_opacity l opacity)) = opacity).
Proof.
  unfold set_opacity.
  destruct (Qle_bool 0 opacity && Qle_bool opacity 1) eqn:E; simpl.
  - apply in_unit_interval in E.
    match goal with
    | |- context [update_all ?f ?d ?i ?o] =>
        pose proof (fun msg => @update_all_no_value_error d i o msg) as V;
        destruct (update_all f d i o) as [d' e]
    end.
    simpl in *. repeat split.
    + intros [msg H]. exfalso. apply (V msg H).
    + intros H. contradiction.
    + intros H. contradiction.
  - assert (N : ~ (0 <= opacity <= 1)).
    { intros H. apply in_unit_interval in H. congruence. }
    repeat split; eauto.
    intros H. contradiction.
Qed.

(** Between two modes of the vertex-editing family the [mode] setter only
    changes the mode and what goes with it: the selection stays. *)
Lemma set_mode_keeps_selection (l : Shapes) (mode : string) :
  mode <> _mode l ->
  vertex_editing mode = true -> vertex_editing (_mode l) = true ->
  exists l', set_mode remove edit l mode = (l', None) /\
             _mode l' = mode /\
             _selected_shapes l' = _selected_shapes l /\
             _selected_box l' = _selected_box l /\
             data l' = data l.
Proof.
  intros Hne Hm Ho. unfold set_mode.
  destruct (String.eqb_spec mode (_mode l)); [contradiction|].
  assert (A : exists a, mode_attributes mode = Some a).
  { unfold vertex_editing in Hm. unfold mode_attributes.
    destruct (String.eqb mode "select"); [eauto|].
    destruct (String.eqb mode "direct"); [eauto|].
    destruct (String.eqb mode "pan/zoom"); [eauto|].
    destruct (String.eqb mode "add_rectangle"); [eauto|].
    destruct (String.eqb mode "add_ellipse"); [eauto|].
    destruct (String.eqb mode "add_line"); [eauto|].
    destruct (String.eqb mode "add_path"); [eauto|].
    destruct (String.eqb mode "add_polygon"); [eauto|].
    destruct (String.eqb mode "vertex_insert"); [eauto|].
    destruct (String.eqb mode "vertex_remove"); [eauto|].
    discriminate. }
  destruct A as [[[cur inter] hlp] ->].
  rewrite Hm, Ho. simpl. eexists; repeat split.
Qed.

(** Any other change of mode goes through [_finish_drawing]: unless a call
    into the collection raises, the selection is emptied, the drag anchors
    are cleared and the [creating] flag is cleared. *)
Lemma set_mode_resets (l l' : Shapes) (mode : string) :
  mode <> _mode l ->
  vertex_editing mode && vertex_editing (_mode l) = false ->
  set_mode remove edit l mode = (l', None) ->
  _mode l' = mode /\
  _selected_shapes l' = [] /\ _selected_box l' = None /\
  _drag_start l' = None /\ _drag_box l' = None /\ _fixed_vertex l' = None /\
  _selected_vertex l' = (None, None) /\ _hover_shapes l' = (None, None) /\
  _is_moving l' = false /\ _ready_to_create l' = false /\
  _creating l' = false.
Proof.
  intros Hne Hf. unfold set_mode.
  destruct (String.eqb_spec mode (_mode l)); [contradiction|].
  destruct (mode_attributes mode) as [[[cur inter] hlp]|]; [|discriminate].
  rewrite Hf. unfold _finish_drawing.
  match goal with
  | |- context [match ?r with Some _ => _ | None => _ end] =>
      destruct r as [d1|]; [|discriminate]
  end.
  match goal with
  | |- context [match ?r with Some _ => _ | None => _ end] =>
      destruct r as [d2|]; [|discriminate]
  end.
  intros H. injection H as <-. unfold _unselect.
  destruct (_highlight _); simpl; repeat split.
Qed.

(** C9, at the failing input.  In [add_path] mode, with one click made
    (shape 0 has the clicked vertex and the vertex that follows the cursor),
    setting the mode to [select] empties the selection and clears the
    [creating] flag but leaves the two-vertex path in the collection: by the
    time [_finish_drawing] tests the mode, the mode is already the new one.
    The [Escape] key, which calls [_finish_drawing] in [add_path] mode, does
    hand the path to the collection's [remove]. *)
Theorem set_mode_keeps_unfinished_path :
  vertices_of (data Demo.drawing) (Some 0%Z) = Some [(3, 3); (4, 3)] /\
  snd (set_mode remove edit Demo.drawing "select") = None /\
  _selected_shapes (fst (set_mode remove edit Demo.drawing "select")) = [] /\
  _creating (fst (set_mode remove edit Demo.drawing "select")) = false /\
  data (fst (set_mode remove edit Demo.drawing "select")) = data Demo.drawing /\
  (forall d, remove (data Demo.drawing) (Some 0%Z) = Some d ->
             data (fst (on_escape remove edit Demo.drawing)) = d).
Proof.
  repeat split.
  intros d H. unfold on_escape, _finish_drawing. simpl.
  change (vertices_of Demo.one_stub (Some 0%Z)) with (Some [(3, 3); (4, 3)]).
  simpl. change (remove Demo.one_stub (Some 0%Z)) with
    (remove (data Demo.drawing) (Some 0%Z)).
  rewrite H. reflexivity.
Qed.

End Setters.

(** C7, at the failing input.  The collection holds one line from (0,0) to
    (30,40); the box from (20,5) to (25,10) contains none of the corners of
    its two triangles, yet [_shapes_in_box] returns the shape: the upper
    bound is tested on corner 0 of the triangle and the lower bound on
    another corner. *)
Theorem shapes_in_box_without_corner :
  _shapes_in_box (Demo.fresh Demo.one_line) [(20, 5); (25, 10)] = Some [0%Z] /\
  (exists triangles,
     triangle_corners (_mesh_vertices Demo.one_line)
                      (_mesh_triangles Demo.one_line) = Some triangles /\
     forallb (fun t => negb (corner_in_box (20, 5) (25, 10) t)) triangles = true).
Proof.
  split; [vm_compute; reflexivity|].
  eexists; split; vm_compute; reflexivity.
Qed.

End LayerFacts.

(** ** Hit tests *)

Module HitFacts.

Import Layer.

Local Open Scope Z_scope.

Section Hit.

Variable inside_triangles : (Q * Q) * (Q * Q) * (Q * Q) -> bool.
Variable sizes : Q.

Lemma py_get_in A (l : list A) (v : Z) :
  0 <= v < len l -> py_get l v = nth_error l (Z.to_nat v).
Proof.
  intros H. unfold py_get, py_index, len in *.
  destruct (Z.leb_spec 0 v), (Z.ltb_spec v (Z.of_nat (length l))); simpl;
    auto; lia.
Qed.

Lemma py_get_head A (x : A) (l : list A) : py_get (x :: l) 0 = Some x.
Proof. rewrite py_get_in by (unfold len; simpl; lia). reflexivity. Qed.


(** A boolean mask computed row by row selects the rows that pass. *)
Lemma mask_get_map A B (f : A -> bool) (a : list A) (b : list B) :
  length a = length b ->
  mask_get (map f a) b
  = Some (map snd (filter (fun x => f (fst x)) (combine a b))).
Proof.
  revert b; induction a as [|x a IH]; intros [|y b] H; simpl in *;
    try discriminate; auto.
  rewrite IH by lia. destruct (f x); reflexivity.
Qed.

Lemma In_combine_nth A B (a : list A) (b : list B) x y :
  In (x, y) (combine a b) <->
  exists k, nth_error a k = Some x /\ nth_error b k = Some y.
Proof.
  revert b; induction a as [|x0 a IH]; intros [|y0 b]; simpl; split;
    try contradiction;
    try (intros (k & H1 & H2); destruct k; discriminate).
  - intros [E|H].
    + inversion E; subst. exists O. auto.
    + apply IH in H. destruct H as (k & H1 & H2). exists (S k). auto.
  - intros ([|k] & H1 & H2); simpl in *.
    + left. congruence.
    + right. apply IH. eauto.
Qed.

Lemma Forall2_nth_error A B (P : A -> B -> Prop) l1 l2 k x :
  Forall2 P l1 l2 -> nth_error l1 k = Some x ->
  exists y, nth_error l2 k = Some y /\ P x y.
Proof.
  intros F; revert k; induction F as [|a b l1 l2 H F IH]; intros [|k] E;
    simpl in *; try discriminate; eauto.
  inversion E; subst. eauto.
Qed.

Lemma Forall2_nth_error_r A B (P : A -> B -> Prop) l1 l2 k y :
  Forall2 P l1 l2 -> nth_error l2 k = Some y ->
  exists x, nth_error l1 k = Some x /\ P x y.
Proof.
  intros F; revert k; induction F as [|a b l1 l2 H F IH]; intros [|k] E;
    simpl in *; try discriminate; eauto.
  inversion E; subst. eauto.
Qed.








End Hit.



End HitFacts.

(** ** The ellipse boundary *)

Module EllipseFacts.

Import Ellipse.

Local Open Scope R_scope.









End EllipseFacts.

(** ** Stroke triangulation *)

Module StrokeFacts.

Import Float Stroke.

Local Open Scope R_scope.

Lemma is_zero_false (r : R) : r <> 0 -> is_zero r = false.
Proof. intros H. unfold is_zero. destruct (Req_dec_T r 0); [contradiction | reflexivity]. Qed.

Lemma is_zero_true : is_zero 0 = true.
Proof. unfold is_zero. destruct (Req_dec_T 0 0); [reflexivity | congruence]. Qed.

Lemma is_neg_false (r : R) : 0 <= r -> is_neg r = false.
Proof. intros H. unfold is_neg. destruct (Rlt_dec r 0); [lra | reflexivity]. Qed.

Lemma fdiv_fin (a b : R) : b <> 0 -> fdiv (Fin a) (Fin b) = Fin (a / b).
Proof. intros H. unfold fdiv. rewrite is_zero_false by exact H. reflexivity. Qed.

Lemma fsqrt_fin (a : R) : 0 <= a -> fsqrt (Fin a) = Fin (sqrt a).
Proof. intros H. unfold fsqrt. rewrite is_neg_false by exact H. reflexivity. Qed.

Lemma sum_sqr_nonneg (u v : R) : 0 <= u * u + - v * - v.
Proof.
  pose proof (Rle_0_sqr u). pose proof (Rle_0_sqr v). unfold Rsqr in *. lra.
Qed.

Lemma seg_length_pos (a b : R * R) : a <> b -> 0 < seg_length a b.
Proof.
  intros H. unfold seg_length. apply sqrt_lt_R0.
  destruct a as [ax ay], b as [bx by_]. simpl.
  pose proof (Rle_0_sqr (by_ + - ay)) as Sy.
  pose proof (Rle_0_sqr (bx + - ax)) as Sx.
  assert (N : bx + - ax <> 0 \/ by_ + - ay <> 0).
  { destruct (Req_dec bx ax) as [->|]; [|left; lra].
    destruct (Req_dec by_ ay) as [->|]; [|right; lra].
    exfalso. apply H. reflexivity. }
  destruct N as [N|N]; apply Rlt_0_sqr in N; unfold Rsqr in *; lra.
Qed.

Lemma seg_length_sqr (a b : R * R) :
  seg_length a b * seg_length a b
  = (snd b - snd a) * (snd b - snd a) + (fst b - fst a) * (fst b - fst a).
Proof.
  unfold seg_length. rewrite sqrt_sqrt; [ring | apply sum_sqr_nonneg].
Qed.

Lemma seg_length_sym (a b : R * R) : seg_length b a = seg_length a b.
Proof. unfold seg_length. f_equal. ring. Qed.

Lemma segment_normal_fin (a b : R * R) :
  a <> b -> segment_normal (fin a) (fin b) = fin (unit_normal a b).
Proof.
  intros H. pose proof (seg_length_pos H) as L.
  unfold segment_normal, vdiv, norm, vsub, fsub, fin, unit_normal.
  cbn [fst snd fopp fadd fmul].
  rewrite fsqrt_fin by apply sum_sqr_nonneg. fold (seg_length a b).
  rewrite !fdiv_fin by lra. reflexivity.
Qed.

(** A zero-length segment has no normal: both coordinates are NaN. *)
Lemma segment_normal_degenerate (a : R * R) :
  segment_normal (fin a) (fin a) = (NaN, NaN).
Proof.
  unfold segment_normal, vdiv, norm, vsub, fsub, fin.
  cbn [fst snd fopp fadd fmul].
  replace (snd a + - snd a) with 0 by lra.
  replace (fst a + - fst a) with 0 by lra.
  replace (0 * 0 + - 0 * - 0) with 0 by lra.
  rewrite fsqrt_fin by lra. rewrite sqrt_0.
  unfold fdiv. replace (- 0) with 0 by lra. rewrite is_zero_true. reflexivity.
Qed.

Lemma unit_normal_unit (a b : R * R) :
  a <> b ->
  fst (unit_normal a b) * fst (unit_normal a b)
  + snd (unit_normal a b) * snd (unit_normal a b) = 1.
Proof.
  intros H. pose proof (seg_length_pos H) as L.
  pose proof (seg_length_sqr a b) as S.
  unfold unit_normal. cbn [fst snd].
  set (l := seg_length a b) in *.
  replace ((snd b + - snd a) / l * ((snd b + - snd a) / l)
           + - (fst b + - fst a) / l * (- (fst b + - fst a) / l))
    with (((snd b - snd a) * (snd b - snd a) + (fst b - fst a) * (fst b - fst a))
          / (l * l)) by (field; lra).
  rewrite <- S. field. lra.
Qed.

Lemma unit_normal_flip (a b : R * R) :
  vopp (fin (unit_normal b a)) = fin (unit_normal a b).
Proof.
  unfold vopp, fin, unit_normal. cbn [fst snd fopp].
  rewrite (seg_length_sym a b).
  f_equal; f_equal; unfold Rdiv; ring.
Qed.

(** The miter of two equal unit normals is that normal: the cap of an open
    path is square. *)
Lemma cap_miter (n : R * R) :
  fst n * fst n + snd n * snd n = 1 ->
  vscale (Fin (1 / 2)) (vdiv (mean2 (fin n) (fin n)) (dot (mean2 (fin n) (fin n)) (fin n)))
  = vscale (Fin (1 / 2)) (fin n).
Proof.
  intros U. destruct n as [x y]. cbn [fst snd] in U.
  unfold mean2, vadd, vdiv, dot, fin. cbn [fst snd fadd fmul].
  rewrite !fdiv_fin by lra. cbn [fst snd fadd fmul].
  assert (D : (x + x) / 2 * x + (y + y) / 2 * y = 1) by lra.
  rewrite D. rewrite !fdiv_fin by lra.
  unfold vscale. cbn [fst snd fmul]. f_equal; f_equal; lra.
Qed.

(** *** The arrays built before the loop *)

Lemma on_pairs_spec A B (f : A -> A -> B) (l : list A) (n : nat) :
  (n < length l)%nat ->
  exists r, on_pairs f l n = Some r /\ length r = n /\
    forall i a b, (i < n)%nat -> nth_error l i = Some a ->
                  nth_error l (S i) = Some b -> nth_error r i = Some (f a b).
Proof.
  revert l; induction n as [|n IH]; intros l H.
  - exists []. split; [reflexivity|]. split; [reflexivity|].
    intros i a b Hi. inversion Hi.
  - destruct l as [|a [|b l]]; simpl in H; try lia.
    destruct (IH (b :: l)) as (r & E & L & S); [simpl; lia|].
    cbn [on_pairs]. rewrite E. exists (f a b :: r).
    repeat split; [simpl; lia|].
    intros [|i] x y Hi Hx Hy; simpl in *.
    + congruence.
    + apply S; auto. lia.
Qed.

Lemma negate_last_spec (l : list (fl * fl)) (x : fl * fl) :
  negate_last (l ++ [x]) = Some (l ++ [vopp x]).
Proof.
  unfold negate_last. rewrite rev_app_distr. simpl.
  rewrite rev_involutive. reflexivity.
Qed.

Lemma window_means_length (l : list (fl * fl)) (n : nat) :
  length (window_means l n) = n.
Proof.
  revert l; induction n as [|n IH]; intros l; simpl; auto.
  destruct l as [|a [|b l]]; simpl; rewrite IH; reflexivity.
Qed.

Lemma window_means_nth (l : list (fl * fl)) (n i : nat) a b :
  (i < n)%nat -> nth_error l i = Some a -> nth_error l (S i) = Some b ->
  nth_error (window_means l n) i = Some (mean2 a b).
Proof.
  revert l i; induction n as [|n IH]; intros l i Hi Ha Hb; [lia|].
  destruct l as [|x [|y l]].
  - destruct i; simpl in *; congruence.
  - destruct i as [|[|i]]; simpl in *; congruence.
  - destruct i as [|i]; simpl in *.
    + congruence.
    + apply IH; auto. lia.
Qed.

Lemma normalise_spec (ms fn : list (fl * fl)) :
  (length ms <= length fn)%nat ->
  exists r, normalise ms fn = Some r /\ length r = length ms /\
    forall i m n, nth_error ms i = Some m -> nth_error fn i = Some n ->
                  nth_error r i = Some (vdiv m (dot m n)).
Proof.
  revert fn; induction ms as [|m ms IH]; intros fn H.
  - exists []. repeat split. intros [|i]; discriminate.
  - destruct fn as [|n fn]; simpl in H; [lia|].
    destruct (IH fn) as (r & E & L & S); [lia|].
    simpl. rewrite E. eexists; repeat split; [simpl; lia|].
    intros [|i] x y Hx Hy; simpl in *; [congruence | auto].
Qed.

Lemma py_get_last A (l : list A) (x : A) : py_get (l ++ [x]) (-1) = Some x.
Proof.
  unfold py_get, py_index. rewrite length_app. simpl.
  destruct (Z.leb_spec 0 (-1)); [lia|]. simpl.
  destruct (Z.leb_spec (- Z.of_nat (length l + 1)) (-1)); [|lia]. simpl.
  replace (Z.to_nat (Z.of_nat (length l + 1) + -1)) with (length l) by lia.
  rewrite nth_error_app2, Nat.sub_diag by lia. reflexivity.
Qed.

Lemma py_get_before_last A (l : list A) (x y : A) :
  py_get (l ++ [x; y]) (-2) = Some x.
Proof.
  unfold py_get, py_index. rewrite length_app. simpl.
  destruct (Z.leb_spec 0 (-2)); [lia|]. simpl.
  destruct (Z.leb_spec (- Z.of_nat (length l + 2)) (-2)); [|lia]. simpl.
  replace (Z.to_nat (Z.of_nat (length l + 2) + -2)) with (length l) by lia.
  rewrite nth_error_app2, Nat.sub_diag by lia. reflexivity.
Qed.

Lemma py_get_nat A (l : list A) (i : nat) :
  (i < length l)%nat -> py_get l (Z.of_nat i) = nth_error l i.
Proof.
  intros H. unfold py_get, py_index.
  destruct (Z.leb_spec 0 (Z.of_nat i)); [|lia].
  destruct (Z.ltb_spec (Z.of_nat i) (Z.of_nat (length l))); [|lia].
  simpl. rewrite Nat2Z.id. reflexivity.
Qed.

(** A list of at least two entries ends in two entries. *)
Lemma two_last A (l : list A) :
  (2 <= length l)%nat -> exists l' x y, l = l' ++ [x; y].
Proof.
  intros H. destruct (exists_last (l := l)) as (l1 & y & ->).
  { destruct l; [simpl in H; lia | discriminate]. }
  rewrite length_app in H. simpl in H.
  destruct (exists_last (l := l1)) as (l2 & x & ->).
  { destruct l1; [simpl in H; lia | discriminate]. }
  exists l2, x, y. rewrite <- app_assoc. reflexivity.
Qed.

(** The open case of the preparation: the path itself, one normal more than
    points, one miter per point; the first miter is taken between the first
    normal and itself, the last one between the last normal and the negated
    normal of the reversed last segment. *)
Lemma prepare_open (path : list (fl * fl)) :
  (2 <= length path)%nat ->
  exists p, prepare path false = Some p /\
    full_path p = path /\
    length (full_normals p) = S (length path) /\
    length (miters p) = length path /\
    (forall a b, nth_error path 0 = Some a -> nth_error path 1 = Some b ->
       nth_error (miters p) 0
       = Some (let n := segment_normal a b in
               vdiv (mean2 n n) (dot (mean2 n n) n))) /\
    (forall c d, nth_error path (length path - 2) = Some c ->
                 nth_error path (length path - 1) = Some d ->
       nth_error (miters p) (length path - 1)
       = Some (let n := segment_normal c d in
               let n' := vopp (segment_normal d c) in
               vdiv (mean2 n n') (dot (mean2 n n') n))).
Proof.
  intros H. destruct (@two_last _ _ H) as (l' & x & y & E).
  unfold prepare.
  assert (Eb : py_get path (-2) = Some x) by (rewrite E; apply py_get_before_last).
  rewrite Eb.
  destruct (@on_pairs_spec _ _ segment_normal (path ++ [x]) (length path))
    as (normals & -> & Ln & Sn); [rewrite length_app; simpl; lia|].
  destruct (exists_last (l := normals)) as (ns & nl & En).
  { destruct normals; [simpl in Ln; lia | discriminate]. }
  rewrite En, negate_last_spec.
  assert (Lns : length ns = (length path - 1)%nat).
  { rewrite En, length_app in Ln. simpl in Ln. lia. }
  assert (E0 : exists n0, py_get (ns ++ [vopp nl]) 0 = Some n0 /\
                          nth_error (ns ++ [vopp nl]) 0 = Some n0).
  { destruct ns as [|n0 ns']; [simpl in Lns; lia|]. exists n0.
    split; [|reflexivity].
    unfold py_get, py_index. simpl. reflexivity. }
  destruct E0 as (n0 & -> & En0).
  set (fn := [n0] ++ ns ++ [vopp nl]).
  assert (Lfn : length fn = S (length path)).
  { unfold fn. simpl. rewrite length_app. simpl. lia. }
  destruct (@normalise_spec (window_means fn (length path)) fn)
    as (ms & -> & Lms & Sms); [rewrite window_means_length; lia|].
  rewrite window_means_length in Lms.
  eexists; split; [reflexivity|]. cbn [full_path full_normals miters].
  split; [reflexivity|]. split; [exact Lfn|]. split; [exact Lms|].
  (* the entries of the normals *)
  assert (Nfirst : forall a b, nth_error path 0 = Some a -> nth_error path 1 = Some b ->
                               n0 = segment_normal a b).
  { intros a b Ha Hb.
    assert (Q : nth_error normals 0 = Some (segment_normal a b)).
    { apply Sn; [lia | |]; rewrite nth_error_app1 by lia; assumption. }
    rewrite En in Q. destruct ns as [|n1 ns']; [simpl in Lns; lia|].
    simpl in Q, En0. congruence. }
  assert (Nbefore : forall c d, nth_error path (length path - 2) = Some c ->
                                nth_error path (length path - 1) = Some d ->
                                nth_error fn (length path - 1) = Some (segment_normal c d)).
  { intros c d Hc Hd.
    assert (Q : nth_error normals (length path - 2) = Some (segment_normal c d)).
    { apply Sn; [lia | |]; rewrite nth_error_app1 by lia;
        [assumption | replace (S (length path - 2)) with (length path - 1)%nat by lia;
                      assumption]. }
    unfold fn. replace (length path - 1)%nat with (S (length path - 2)) by lia.
    cbn [app nth_error]. rewrite En in Q.
    rewrite nth_error_app1 in Q by lia. rewrite nth_error_app1 by lia. exact Q. }
  assert (Nlast : forall c d, nth_error path (length path - 2) = Some c ->
                              nth_error path (length path - 1) = Some d ->
                              nth_error fn (length path) = Some (vopp (segment_normal d c))).
  { intros c d Hc Hd.
    assert (Q : nth_error normals (length path - 1) = Some (segment_normal d x)).
    { apply Sn; [lia | rewrite nth_error_app1 by lia; assumption |].
      replace (S (length path - 1)) with (length path) by lia.
      rewrite nth_error_app2, Nat.sub_diag by lia. reflexivity. }
    assert (x = c).
    { rewrite E in Hc. rewrite length_app in Hc. simpl in Hc.
      replace (length l' + 2 - 2)%nat with (length l') in Hc by lia.
      rewrite nth_error_app2, Nat.sub_diag in Hc by lia. simpl in Hc. congruence. }
    subst x. rewrite En in Q.
    rewrite nth_error_app2 in Q by lia.
    replace (length path - 1 - length ns)%nat with 0%nat in Q by lia.
    simpl in Q. injection Q as ->.
    unfold fn. replace (length path) with (S (length ns)) by lia.
    cbn [app nth_error]. rewrite nth_error_app2, Nat.sub_diag by lia.
    reflexivity. }
  split.
  - intros a b Ha Hb. pose proof (Nfirst a b Ha Hb) as Hn0. subst n0.
    assert (F1 : nth_error fn 1 = Some (segment_normal a b)).
    { destruct (Nat.eq_dec (length path) 2) as [L2|L2].
      - rewrite <- (Nbefore a b); [f_equal; lia | |]; rewrite L2; assumption.
      - unfold fn. assert (Q : nth_error normals 0 = Some (segment_normal a b)).
        { apply Sn; [lia | |]; rewrite nth_error_app1 by lia; assumption. }
        rewrite En in Q. destruct ns as [|n1 ns']; [simpl in Lns; lia|].
        simpl in Q. simpl. exact Q. }
    rewrite (Sms 0%nat (mean2 (segment_normal a b) (segment_normal a b))
                 (segment_normal a b)); [reflexivity | | reflexivity].
    apply window_means_nth; [lia | reflexivity | exact F1].
  - intros c d Hc Hd.
    rewrite (Sms (length path - 1)%nat
                 (mean2 (segment_normal c d) (vopp (segment_normal d c)))
                 (segment_normal c d));
      [reflexivity | | apply (Nbefore c d Hc Hd)].
    apply window_means_nth; [lia | apply (Nbefore c d Hc Hd) |].
    replace (S (length path - 1)) with (length path) by lia.
    apply (Nlast c d Hc Hd).
Qed.

(** *** The loop on an open path without bevel corners *)

Lemma py_get_some A (l : list A) (v : Z) :
  (0 <= v < len l)%Z -> exists x, py_get l v = Some x.
Proof.
  intros H. rewrite HitFacts.py_get_in by exact H.
  destruct (nth_error l (Z.to_nat v)) eqn:E; eauto.
  apply nth_error_None in E. unfold len in H. lia.
Qed.

Lemma join_cases a b ray t1 t2 t2' :
  join a b ray t1 t2 t2' = [t1; t2] \/ join a b ray t1 t2 t2' = [t1; t2'].
Proof. unfold join. destruct (fgt _ _); auto. Qed.

Lemma step_open_first (limit : fl) (p : prepared) pt mt ml :
  nth_error (full_path p) 0 = Some pt ->
  nth_error (half_miters p) 0 = Some mt ->
  nth_error (miter_lengths p) 0 = Some ml ->
  step false false limit p start 0
  = Some (mkMesh [vopp mt; mt] [pt; pt] [] 0).
Proof.
  intros Hp Hm Hl. unfold step.
  assert (G : forall A (l : list A) x, nth_error l 0 = Some x -> py_get l 0 = Some x).
  { intros A l x E. destruct l; [discriminate|]. simpl in E.
    rewrite HitFacts.py_get_head. exact E. }
  rewrite (G _ _ _ Hp), (G _ _ _ Hm), (G _ _ _ Hl).
  cbn [Z.eqb]. rewrite andb_false_r. reflexivity.
Qed.

Lemma step_open_next (limit : fl) (p : prepared) (st : mesh) (k : nat) pt mt ml :
  (0 < k < length (full_path p))%nat ->
  nth_error (full_path p) k = Some pt ->
  nth_error (half_miters p) k = Some mt ->
  nth_error (miter_lengths p) k = Some ml ->
  ((k < length (full_path p) - 1)%nat -> fgt ml limit = false) ->
  len (vertex_offsets st) = (m st + 2)%Z -> (0 <= m st)%Z ->
  exists t2,
    step false false limit p st (Z.of_nat k)
    = Some (mkMesh (vertex_offsets st ++ [vopp mt; mt])
                   (central_path st ++ [pt; pt])
                   (faces st ++ [(m st, m st + 1, m st + 3)%Z; t2])
                   (if (k =? length (full_path p) - 1)%nat then m st
                    else (m st + 2)%Z)) /\
    (t2 = (m st, m st + 2, m st + 3)%Z \/ t2 = (m st + 1, m st + 2, m st + 3)%Z).
Proof.
  intros Hk Hp Hm Hl Hlim Hlen Hm0. unfold step.
  rewrite !py_get_nat
    by (try (unfold half_miters, miter_lengths in *);
        apply nth_error_Some; congruence).
  rewrite Hp, Hm, Hl.
  destruct (Z.eqb_spec (Z.of_nat k) 0); [lia|].
  destruct (@py_get_some _ (full_path p) (Z.of_nat k - 1)%Z)
    as [prev Eprev]; [unfold len; lia|].
  destruct (@py_get_some _ (vertex_offsets st ++ [vopp mt; mt]) (m st + 1)%Z)
    as [a0 Ea]; [rewrite len_app; unfold len at 2; simpl; lia|].
  destruct (@py_get_some _ (vertex_offsets st ++ [vopp mt; mt]) (m st + 3)%Z)
    as [b0 Eb]; [rewrite len_app; unfold len at 2; simpl; lia|].
  destruct (Z.eqb_spec (Z.of_nat k) (len (full_path p) - 1)) as [Elast|Emid].
  - assert (K : (k =? length (full_path p) - 1)%nat = true)
      by (apply Nat.eqb_eq; unfold len in Elast; lia).
    rewrite K, Eprev, Ea, Eb.
    destruct (join_cases (vsub a0 prev) (vsub b0 prev) (vsub pt prev)
                (m st, m st + 1, m st + 3)%Z (m st, m st + 2, m st + 3)%Z
                (m st + 1, m st + 2, m st + 3)%Z) as [J|J];
      rewrite J; eexists; split; [reflexivity | auto | reflexivity | auto].
  - assert (K : (k =? length (full_path p) - 1)%nat = false)
      by (apply Nat.eqb_neq; unfold len in Emid; lia).
    rewrite K, Hlim by (unfold len in Emid; lia).
    cbn [orb]. rewrite Eprev, Ea, Eb.
    destruct (join_cases (vsub a0 prev) (vsub b0 prev) (vsub pt prev)
                (m st, m st + 1, m st + 3)%Z (m st, m st + 2, m st + 3)%Z
                (m st + 1, m st + 2, m st + 3)%Z) as [J|J];
      rewrite J; eexists; split; [reflexivity | auto | reflexivity | auto].
Qed.

Lemma both_sides_length (l : list (fl * fl)) :
  length (both_sides l) = (2 * length l)%nat.
Proof. unfold both_sides. induction l; simpl; lia. Qed.

Lemma twice_length (l : list (fl * fl)) :
  length (twice l) = (2 * length l)%nat.
Proof. unfold twice. induction l; simpl; lia. Qed.

Lemma both_sides_snoc (l : list (fl * fl)) h :
  both_sides (l ++ [h]) = both_sides l ++ [vopp h; h].
Proof. unfold both_sides. rewrite flat_map_app. simpl. reflexivity. Qed.

Lemma twice_snoc (l : list (fl * fl)) c : twice (l ++ [c]) = twice l ++ [c; c].
Proof. unfold twice. rewrite flat_map_app. simpl. reflexivity. Qed.

Lemma firstn_snoc A (l : list A) (k : nat) (x : A) :
  nth_error l k = Some x -> firstn (S k) l = firstn k l ++ [x].
Proof.
  revert k; induction l as [|y l IH]; intros [|k] H; simpl in *;
    try discriminate.
  - congruence.
  - rewrite (IH k H). reflexivity.
Qed.

Lemma both_sides_nth (l : list (fl * fl)) (i : nat) h :
  nth_error l i = Some h ->
  nth_error (both_sides l) (2 * i) = Some (vopp h) /\
  nth_error (both_sides l) (2 * i + 1) = Some h.
Proof.
  revert i; induction l as [|x l IH]; intros [|i] H; simpl in *;
    try discriminate.
  - inversion H. auto.
  - replace (i + S (i + 0))%nat with (S (2 * i)) by lia.
    replace (i + S (i + 0) + 1)%nat with (S (2 * i + 1)) by lia.
    simpl. apply IH. exact H.
Qed.

(** The loop from step [k] on, on an open path without bevel corners. *)
Lemma loop_open (limit : fl) (p : prepared) (n : nat) :
  forall (k : nat) (st : mesh),
    (0 < k)%nat -> (k + n = length (full_path p))%nat ->
    length (miters p) = length (full_path p) ->
    (forall i ml, (0 < i < length (full_path p) - 1)%nat ->
                  nth_error (miter_lengths p) i = Some ml -> fgt ml limit = false) ->
    vertex_offsets st = both_sides (firstn k (half_miters p)) ->
    central_path st = twice (firstn k (full_path p)) ->
    length (faces st) = (2 * (k - 1))%nat ->
    ((0 < n)%nat -> m st = Z.of_nat (2 * (k - 1))) ->
    exists st',
      loop false false limit p st (zseq (Z.of_nat k) n) = Some st' /\
      vertex_offsets st' = both_sides (half_miters p) /\
      central_path st' = twice (full_path p) /\
      length (faces st') = (2 * (length (full_path p) - 1))%nat.
Proof.
  induction n as [|n IH]; intros k st Hk Hkn Lm Hlim Hvo Hcp Hf Hm.
  - exists st. simpl. split; [reflexivity|].
    assert (k = length (full_path p)) by lia. subst k.
    rewrite Hvo, Hcp, Hf.
    rewrite !firstn_all2
      by (unfold half_miters; rewrite ?length_map; lia).
    auto.
  - assert (Lh : length (half_miters p) = length (full_path p))
      by (unfold half_miters; rewrite length_map; exact Lm).
    assert (Ll : length (miter_lengths p) = length (full_path p))
      by (unfold miter_lengths; rewrite length_map; exact Lm).
    destruct (nth_error (full_path p) k) as [pt|] eqn:Ept;
      [|apply nth_error_None in Ept; lia].
    destruct (nth_error (half_miters p) k) as [mt|] eqn:Emt;
      [|apply nth_error_None in Emt; lia].
    destruct (nth_error (miter_lengths p) k) as [ml|] eqn:Eml;
      [|apply nth_error_None in Eml; lia].
    destruct (@step_open_next limit p st k pt mt ml) as (t2 & Es & _); auto.
    + lia.
    + intros Hlt. apply (Hlim k ml); [lia | exact Eml].
    + rewrite Hvo. unfold len. rewrite both_sides_length, length_firstn.
      rewrite Hm by lia. lia.
    + rewrite Hm by lia. lia.
    + cbn [zseq loop]. rewrite Es.
      replace (Z.of_nat k + 1)%Z with (Z.of_nat (S k)) by lia.
      apply IH; cbn [vertex_offsets central_path faces m]; auto; try lia.
      * rewrite (@firstn_snoc _ _ _ _ Emt), both_sides_snoc, Hvo. reflexivity.
      * rewrite (@firstn_snoc _ _ _ _ Ept), twice_snoc, Hcp. reflexivity.
      * rewrite length_app, Hf. simpl. lia.
      * intros Hn. destruct (Nat.eqb_spec k (length (full_path p) - 1)); [lia|].
        rewrite Hm by lia. lia.
Qed.

Lemma no_repeat_nth (pts : list (R * R)) (i : nat) c d :
  no_repeat pts -> nth_error pts i = Some c -> nth_error pts (S i) = Some d ->
  c <> d.
Proof.
  revert i; induction pts as [|x pts IH]; intros i H Hc Hd.
  - destruct i; discriminate.
  - destruct pts as [|y pts]; [destruct i as [|[|i]]; discriminate|].
    destruct H as [Hxy H']. destruct i as [|i].
    + simpl in Hc, Hd. congruence.
    + apply (IH i H'); assumption.
Qed.

(** C4.  For an open path of N >= 2 points without equal consecutive points
    and without an interior miter longer than the limit, [path_triangulate]
    returns every point twice as the centres (2N of them), 2N offsets, which
    are each halved miter negated and then itself, and 2(N-1) triangles; the
    two offsets at the first point are minus and plus half the unit normal
    of the first segment, and the two at the last point minus and plus half
    the unit normal of the last segment: both caps are square. *)
Theorem path_triangulate_open (pts : list (R * R)) (limit : fl) :
  (2 <= length pts)%nat -> no_repeat pts ->
  within_limit (map fin pts) limit ->
  exists p offsets triangles,
    prepare (map fin pts) false = Some p /\
    path_triangulate (map fin pts) false limit false
    = Some (twice (map fin pts), offsets, triangles) /\
    offsets = both_sides (half_miters p) /\
    length (twice (map fin pts)) = (2 * length pts)%nat /\
    length offsets = (2 * length pts)%nat /\
    length triangles = (2 * (length pts - 1))%nat /\
    (forall a b, nth_error pts 0 = Some a -> nth_error pts 1 = Some b ->
       let h := vscale (Fin (1 / 2)) (segment_normal (fin a) (fin b)) in
       nth_error offsets 0 = Some (vopp h) /\ nth_error offsets 1 = Some h) /\
    (forall c d, nth_error pts (length pts - 2) = Some c ->
                 nth_error pts (length pts - 1) = Some d ->
       let h := vscale (Fin (1 / 2)) (segment_normal (fin c) (fin d)) in
       nth_error offsets (2 * length pts - 2) = Some (vopp h) /\
       nth_error offsets (2 * length pts - 1) = Some h).
Proof.
  intros HN Hnr Hlim.
  set (path := map fin pts) in *.
  assert (Lp : length path = length pts) by (unfold path; apply length_map).
  destruct (@prepare_open path) as (p & Ep & Efp & Lfn & Lm & M0 & Ml); [lia|].
  assert (Lh : length (half_miters p) = length pts)
    by (unfold half_miters; rewrite length_map; lia).
  (* the first step *)
  destruct (nth_error (full_path p) 0) as [pt|] eqn:Ept;
    [|apply nth_error_None in Ept; rewrite Efp in Ept; lia].
  destruct (nth_error (half_miters p) 0) as [mt|] eqn:Emt;
    [|apply nth_error_None in Emt; lia].
  destruct (nth_error (miter_lengths p) 0) as [ml|] eqn:Eml;
    [|apply nth_error_None in Eml; unfold miter_lengths in Eml;
      rewrite length_map in Eml; lia].
  pose proof (@step_open_first limit p pt mt ml Ept Emt Eml) as E0.
  destruct (@loop_open limit p (length pts - 1) 1
              (mkMesh [vopp mt; mt] [pt; pt] [] 0))
    as (st & El & Hvo & Hcp & Hf); cbn [vertex_offsets central_path faces m];
    try lia; auto.
  { rewrite Efp. lia. }
  { rewrite Efp. lia. }
  { intros i ml' Hi Hml. apply (Hlim p i ml' Ep); [rewrite Efp in Hi; lia | exact Hml]. }
  { rewrite (@firstn_snoc _ _ 0%nat _ Emt). reflexivity. }
  { rewrite (@firstn_snoc _ _ 0%nat _ Ept). reflexivity. }
  exists p, (vertex_offsets st), (faces st).
  split; [exact Ep|]. split.
  { unfold path_triangulate. rewrite Ep. rewrite Efp, Lp.
    destruct (length pts) as [|n] eqn:En; [lia|].
    cbn [zseq loop]. rewrite E0.
    replace (S n - 1)%nat with n in El by lia. change (0 + 1)%Z with (Z.of_nat 1).
    rewrite El, Hcp, Efp. reflexivity. }
  split; [exact Hvo|].
  split; [rewrite twice_length; lia|].
  split; [rewrite Hvo, both_sides_length; lia|].
  split; [rewrite Hf, Efp; lia|].
  split.
  - intros a b Ha Hb. cbv zeta.
    set (h := vscale (Fin (1 / 2)) (segment_normal (fin a) (fin b))).
    assert (Hab : a <> b) by (apply (@no_repeat_nth pts 0%nat a b Hnr Ha Hb)).
    assert (Q : nth_error (half_miters p) 0 = Some h).
    { unfold half_miters. rewrite nth_error_map.
      rewrite (M0 (fin a) (fin b)) by (unfold path; rewrite nth_error_map, ?Ha, ?Hb; reflexivity).
      cbn [option_map]. unfold h. rewrite segment_normal_fin by exact Hab.
      f_equal. apply cap_miter. apply unit_normal_unit. exact Hab. }
    rewrite Hvo. apply (@both_sides_nth _ 0%nat _ Q).
  - intros c d Hc Hd. cbv zeta.
    set (h := vscale (Fin (1 / 2)) (segment_normal (fin c) (fin d))).
    assert (Hcd : c <> d).
    { apply (@no_repeat_nth pts (length pts - 2) c d Hnr Hc).
      replace (S (length pts - 2)) with (length pts - 1)%nat by lia. exact Hd. }
    assert (Q : nth_error (half_miters p) (length pts - 1) = Some h).
    { unfold half_miters. rewrite nth_error_map. rewrite <- Lp.
      rewrite (Ml (fin c) (fin d))
        by (unfold path; rewrite nth_error_map, length_map, ?Hc, ?Hd; reflexivity).
      cbn [option_map]. unfold h.
      rewrite !segment_normal_fin by (auto; congruence).
      rewrite unit_normal_flip.
      f_equal. apply cap_miter. apply unit_normal_unit. exact Hcd. }
    rewrite Hvo.
    replace (2 * length pts - 2)%nat with (2 * (length pts - 1))%nat by lia.
    replace (2 * length pts - 1)%nat with (2 * (length pts - 1) + 1)%nat by lia.
    apply (@both_sides_nth _ _ _ Q).
Qed.

(** *** The loop never raises *)

Lemma prepare_closed (path : list (fl * fl)) :
  (1 <= length path)%nat ->
  exists p, prepare path true = Some p /\
    length (full_path p) = S (length path) /\
    length (full_normals p) = S (length path) /\
    length (miters p) = S (length path).
Proof.
  intros H. unfold prepare.
  destruct (exists_last (l := path)) as (l' & y & E).
  { destruct path; [simpl in H; lia | discriminate]. }
  assert (El : py_get path (-1) = Some y) by (rewrite E; apply py_get_last).
  rewrite El.
  destruct path as [|x path']; [simpl in H; lia|].
  rewrite HitFacts.py_get_head.
  destruct (@on_pairs_spec _ _ segment_normal ([y] ++ (x :: path') ++ [x])
              (length (x :: path')))
    as (normals & -> & Ln & _); [rewrite !length_app; simpl; lia|].
  destruct normals as [|n0 normals']; [simpl in Ln; lia|].
  rewrite HitFacts.py_get_head.
  destruct (@normalise_spec
              (window_means ((n0 :: normals') ++ [n0])
                            (length ((x :: path') ++ [x])))
              ((n0 :: normals') ++ [n0]))
    as (ms & -> & Lms & _).
  { rewrite window_means_length, !length_app. simpl in *. lia. }
  rewrite window_means_length in Lms.
  eexists; split; [reflexivity|]. cbn [full_path full_normals miters].
  rewrite Lms, !length_app. simpl in *. lia.
Qed.

Lemma prepare_some (path : list (fl * fl)) (closed : bool) :
  (2 <= length path)%nat ->
  exists p, prepare path closed = Some p /\
    (2 <= length (full_path p))%nat /\
    length (miters p) = length (full_path p) /\
    (length (full_path p) <= length (full_normals p))%nat.
Proof.
  intros H. destruct closed.
  - destruct (@prepare_closed path) as (p & E & L1 & L2 & L3); [lia|].
    exists p. repeat split; auto; lia.
  - destruct (@prepare_open path H) as (p & E & L1 & L2 & L3 & _).
    exists p. rewrite L1. repeat split; auto; lia.
Qed.

Lemma step_some (closed bevel : bool) (limit : fl) (p : prepared)
  (st : mesh) (k : nat) :
  (k < length (full_path p))%nat ->
  length (miters p) = length (full_path p) ->
  (length (full_path p) <= length (full_normals p))%nat ->
  ready k st ->
  exists st', step closed bevel limit p st (Z.of_nat k) = Some st' /\
              ((S k < length (full_path p))%nat -> ready (S k) st').
Proof.
  intros Hk Lm Lfn R. unfold step.
  assert (Lh : length (half_miters p) = length (full_path p))
    by (unfold half_miters; rewrite length_map; exact Lm).
  assert (Ll : length (miter_lengths p) = length (full_path p))
    by (unfold miter_lengths; rewrite length_map; exact Lm).
  destruct (@py_get_some _ (full_path p) (Z.of_nat k)) as [pt ->];
    [unfold len; lia|].
  destruct (@py_get_some _ (half_miters p) (Z.of_nat k)) as [mt ->];
    [unfold len; lia|].
  destruct (@py_get_some _ (miter_lengths p) (Z.of_nat k)) as [ml ->];
    [unfold len; lia|].
  destruct (@py_get_some _ (full_normals p) (Z.of_nat k)) as [nk Enk];
    [unfold len; lia|].
  destruct k as [|k].
  - (* the first point *)
    cbn [Z.of_nat Z.eqb]. cbn [Z.of_nat] in Enk. simpl in R. subst st.
    destruct ((bevel || fgt ml limit) && closed).
    + rewrite Enk. eexists; split; [reflexivity|]. intros _.
      unfold ready, bevel_offsets, len. simpl. lia.
    + eexists; split; [reflexivity|]. intros _.
      unfold ready, len. simpl. lia.
  - destruct R as [Rl Rm].
    destruct (Z.eqb_spec (Z.of_nat (S k)) 0); [lia|].
    destruct (@py_get_some _ (full_path p) (Z.of_nat (S k) - 1)) as [prev ->];
      [unfold len; lia|].
    assert (A2 : forall extra, exists x,
               py_get (vertex_offsets st ++ extra) (m st + 1) = Some x).
    { intros extra. apply py_get_some. rewrite len_app.
      pose proof (len_nonneg extra). lia. }
    assert (A3 : forall u v w extra, exists x,
               py_get (vertex_offsets st ++ u :: v :: w :: extra) (m st + 3) = Some x).
    { intros u v w extra. apply py_get_some. rewrite len_app.
      unfold len at 2. simpl. lia. }
    assert (B3 : forall u v, exists x,
               py_get (vertex_offsets st ++ [u; v]) (m st + 3) = Some x).
    { intros u v. apply py_get_some. rewrite len_app.
      unfold len at 2. simpl. lia. }
    destruct (Z.eqb_spec (Z.of_nat (S k)) (len (full_path p) - 1)) as [Elast|Emid].
    + (* the last point *)
      destruct closed.
      * destruct (A2 []) as [a0 Ea]. rewrite app_nil_r in Ea. rewrite Ea.
        destruct (@py_get_some _ (vertex_offsets st) 1) as [b0 ->]; [lia|].
        eexists; split; [reflexivity|]. unfold len in Elast. lia.
      * destruct (A2 [vopp mt; mt]) as [a0 ->].
        destruct (B3 (vopp mt) mt) as [b0 ->].
        eexists; split; [reflexivity|]. unfold len in Elast. lia.
    + destruct (bevel || fgt ml limit).
      * rewrite Enk. unfold bevel_offsets.
        match goal with
        | |- context [py_get (vertex_offsets st ++ ?e) (m st + 1)] =>
            destruct (A2 e) as [a0 ->]
        end.
        match goal with
        | |- context [py_get (vertex_offsets st ++ [?u; ?v; ?w]) (m st + 3)] =>
            destruct (A3 u v w []) as [b0 ->]
        end.
        eexists; split; [reflexivity|]. intros _.
        unfold ready. cbn [vertex_offsets m]. rewrite len_app.
        unfold len at 2. simpl. lia.
      * destruct (A2 [vopp mt; mt]) as [a0 ->].
        destruct (B3 (vopp mt) mt) as [b0 ->].
        eexists; split; [reflexivity|]. intros _.
        unfold ready. cbn [vertex_offsets m]. rewrite len_app.
        unfold len at 2. simpl. lia.
Qed.

Lemma loop_some (closed bevel : bool) (limit : fl) (p : prepared) (n : nat) :
  forall (k : nat) (st : mesh),
    (k + n = length (full_path p))%nat ->
    length (miters p) = length (full_path p) ->
    (length (full_path p) <= length (full_normals p))%nat ->
    ((0 < n)%nat -> ready k st) ->
    exists st', loop closed bevel limit p st (zseq (Z.of_nat k) n) = Some st'.
Proof.
  induction n as [|n IH]; intros k st Hkn Lm Lfn R.
  - exists st. reflexivity.
  - assert (Rk : ready k st) by (apply R; lia).
    assert (Hk : (k < length (full_path p))%nat) by lia.
    destruct (@step_some closed bevel limit p st k Hk Lm Lfn Rk) as (st1 & E & R1).
    cbn [zseq loop]. rewrite E.
    replace (Z.of_nat k + 1)%Z with (Z.of_nat (S k)) by lia.
    apply IH; auto; try lia.
    intros Hn. apply R1. lia.
Qed.

(** [path_triangulate] returns on every path of at least two points. *)
Lemma path_triangulate_some (path : list (fl * fl)) (closed : bool)
  (limit : fl) (bevel : bool) :
  (2 <= length path)%nat ->
  exists r, path_triangulate path closed limit bevel = Some r.
Proof.
  intros H. destruct (@prepare_some path closed H) as (p & E & L & Lm & Lfn).
  unfold path_triangulate. rewrite E.
  destruct (@loop_some closed bevel limit p (length (full_path p)) 0 start)
    as (st & El); auto.
  { intros _. reflexivity. }
  change (Z.of_nat 0) with 0%Z in El. rewrite El. eauto.
Qed.

(** *** Caps and winding *)



Lemma normal_cross (a b : R * R) :
  a <> b ->
  fst (unit_normal a b) * (snd b - snd a) - snd (unit_normal a b) * (fst b - fst a)
  = seg_length a b.
Proof.
  intros H. pose proof (seg_length_pos H) as L.
  pose proof (seg_length_sqr a b) as S.
  unfold unit_normal. cbn [fst snd]. set (l := seg_length a b) in *.
  replace ((snd b + - snd a) / l * (snd b - snd a)
           - - (fst b + - fst a) / l * (fst b - fst a))
    with (((snd b - snd a) * (snd b - snd a) + (fst b - fst a) * (fst b - fst a)) / l)
    by (field; lra).
  rewrite <- S. field. lra.
Qed.





(** C6, as the code has it.  [path_triangulate] raises on no path of at
    least two points, open or closed, whatever the limit: there is no
    [DegenerateGeometryError].  The normal of a segment of length zero is
    (NaN, NaN). *)
Theorem path_triangulate_never_fails (path : list (fl * fl)) (closed : bool)
  (limit : fl) (bevel : bool) :
  (2 <= length path)%nat ->
  (exists r, path_triangulate path closed limit bevel = Some r) /\
  (forall a, segment_normal (fin a) (fin a) = (NaN, NaN)).
Proof.
  intros H. split.
  - apply path_triangulate_some. exact H.
  - apply segment_normal_degenerate.
Qed.

Lemma path_triangulate_never_fails_witness :
  (2 <= length (map fin standstill))%nat /\
  (exists r, path_triangulate (map fin standstill) false (Fin 5) false = Some r) /\
  (forall a, segment_normal (fin a) (fin a) = (NaN, NaN)).
Proof.
  assert (H : (2 <= length (map fin standstill))%nat) by (simpl; lia).
  split; [exact H|].
  exact (@path_triangulate_never_fails (map fin standstill) false (Fin 5) false H).
Defined.

(** C6, as stated, fails: the path that stays at (0,0) is triangulated
    without an error. *)
Lemma standstill_is_triangulated :
  path_triangulate (map fin standstill) false (Fin 5) false <> None.
Proof.
  destruct (@path_triangulate_some (map fin standstill) false (Fin 5) false)
    as [r E]; [simpl; lia|].
  rewrite E. discriminate.
Qed.

(** The miter at the corner of [corner] has length sqrt 2, below the
    limit 5. *)
Lemma corner_within_limit : within_limit (map fin corner) (Fin 5).
Proof.
  intros p i ml Ep Hi Hml. simpl in Hi. assert (i = 1%nat) by lia. subst i.
  assert (N0 : segment_normal (fin (0, 0)) (fin (1, 0)) = (Fin 0, Fin (-1))).
  { rewrite segment_normal_fin by (intros H; injection H; lra).
    unfold unit_normal, seg_length, fin. cbn [fst snd].
    match goal with |- context [sqrt ?e] => replace e with 1 by lra end.
    rewrite sqrt_1. f_equal; f_equal; lra. }
  assert (N1 : segment_normal (fin (1, 0)) (fin (1, 1)) = (Fin 1, Fin 0)).
  { rewrite segment_normal_fin by (intros H; injection H; lra).
    unfold unit_normal, seg_length, fin. cbn [fst snd].
    match goal with |- context [sqrt ?e] => replace e with 1 by lra end.
    rewrite sqrt_1. f_equal; f_equal; lra. }
  unfold prepare, corner in Ep.
  cbn [map py_get py_index length Z.of_nat Z.leb Z.ltb Z.compare Z.opp
       Pos.of_succ_nat Pos.succ Pos.compare Pos.compare_cont andb Z.add
       Z.pos_sub Z.to_nat Pos.to_nat Pos.iter_op Nat.add Pos.pred_double
       nth_error app on_pairs] in Ep.
  rewrite N0, N1 in Ep.
  cbn [negate_last rev app py_get py_index length Z.of_nat Z.leb Z.ltb
       Z.compare Pos.of_succ_nat Pos.succ andb Z.to_nat nth_error
       window_means normalise] in Ep.
  injection Ep as <-. unfold miter_lengths in Hml. cbn [miters map nth_error] in Hml.
  injection Hml as <-.
  unfold mean2, vadd, vdiv, dot, norm. cbn [fst snd fadd fmul].
  rewrite !fdiv_fin by lra. cbn [fst snd fadd fmul].
  rewrite !fdiv_fin by lra. cbn [fst snd fadd fmul].
  rewrite fsqrt_fin by (apply Rplus_le_le_0_compat; apply Rle_0_sqr).
  unfold fgt.
  match goal with |- context [Rlt_dec 5 ?x] => destruct (Rlt_dec 5 x) as [G|G] end;
    [|reflexivity].
  exfalso.
  match type of G with
  | 5 < sqrt ?e => assert (S : e = 2) by field
  end.
  rewrite S in G.
  assert (sqrt 2 <= sqrt 25) by (apply sqrt_le_1; lra).
  replace 25 with (5 * 5) in H by lra. rewrite sqrt_square in H; lra.
Qed.

Lemma path_triangulate_open_witness :
  (2 <= length corner)%nat /\ no_repeat corner /\
  within_limit (map fin corner) (Fin 5) /\
  exists offsets triangles,
    path_triangulate (map fin corner) false (Fin 5) false
    = Some (twice (map fin corner), offsets, triangles) /\
    length offsets = 6%nat /\ length triangles = 4%nat.
Proof.
  assert (H1 : (2 <= length corner)%nat) by (simpl; lia).
  assert (H2 : no_repeat corner).
  { simpl. repeat split; intros H; injection H; lra. }
  split; [exact H1|]. split; [exact H2|]. split; [exact corner_within_limit|].
  destruct (@path_triangulate_open corner (Fin 5) H1 H2 corner_within_limit)
    as (p & offsets & triangles & _ & E & _ & _ & Lo & Lt & _).
  exists offsets, triangles. split; [exact E|]. split; [exact Lo | exact Lt].
Defined.

End StrokeFacts.

(** ** Bounding boxes *)

Module BoxFacts.

Import Layer Box.

Local Open Scope Q_scope.

Ltac conj := repeat match goal with |- _ /\ _ => split end.

(** Linear arithmetic on rationals, with the divisions by 2 and 4 of the
    handles written as products. *)
Ltac qlra :=
  unfold Qdiv in *;
  change (/ 2) with (1 # 2) in *; change (/ 4) with (1 # 4) in *;
  Lqa.lra.

Lemma qle_false (a b : Q) : Qle_bool a b = false -> b < a.
Proof.
  intros E. apply Qnot_le_lt. intros H.
  apply Qle_bool_iff in H. congruence.
Qed.

Lemma qmin_spec (a b : Q) :
  qmin a b <= a /\ qmin a b <= b /\ (qmin a b = a \/ qmin a b = b).
Proof.
  unfold qmin. destruct (Qle_bool a b) eqn:E.
  - apply Qle_bool_iff in E. conj; auto. apply Qle_refl.
  - apply qle_false in E. conj; auto; [apply Qlt_le_weak; exact E | apply Qle_refl].
Qed.

Lemma qmax_spec (a b : Q) :
  a <= qmax a b /\ b <= qmax a b /\ (qmax a b = a \/ qmax a b = b).
Proof.
  unfold qmax. destruct (Qle_bool a b) eqn:E.
  - apply Qle_bool_iff in E. conj; auto. apply Qle_refl.
  - apply qle_false in E. conj; auto; [apply Qle_refl | apply Qlt_le_weak; exact E].
Qed.

Lemma fold_qmin_spec (l : list Q) :
  forall x, fold_left qmin l x <= x /\
            Forall (fun y => fold_left qmin l x <= y) l /\
            (fold_left qmin l x = x \/ In (fold_left qmin l x) l).
Proof.
  induction l as [|y l IH]; intros x; simpl.
  - conj; auto. apply Qle_refl.
  - destruct (IH (qmin x y)) as (H1 & H2 & H3).
    destruct (qmin_spec x y) as (M1 & M2 & M3).
    conj.
    + eapply Qle_trans; eauto.
    + constructor; auto. eapply Qle_trans; eauto.
    + destruct H3 as [H3|H3]; auto.
      rewrite H3. destruct M3 as [->| ->]; auto.
Qed.

Lemma fold_qmax_spec (l : list Q) :
  forall x, x <= fold_left qmax l x /\
            Forall (fun y => y <= fold_left qmax l x) l /\
            (fold_left qmax l x = x \/ In (fold_left qmax l x) l).
Proof.
  induction l as [|y l IH]; intros x; simpl.
  - conj; auto. apply Qle_refl.
  - destruct (IH (qmax x y)) as (H1 & H2 & H3).
    destruct (qmax_spec x y) as (M1 & M2 & M3).
    conj.
    + eapply Qle_trans; eauto.
    + constructor; auto. eapply Qle_trans; eauto.
    + destruct H3 as [H3|H3]; auto.
      rewrite H3. destruct M3 as [->| ->]; auto.
Qed.

Lemma column_min_spec (c : list Q) (m : Q) :
  column_min c = Some m -> In m c /\ Forall (fun y => m <= y) c.
Proof.
  destruct c as [|x c]; simpl; [discriminate|]. intros E. injection E as <-.
  destruct (fold_qmin_spec c x) as (H1 & H2 & H3).
  split; [destruct H3; [left; auto | right; auto]|]. constructor; auto.
Qed.

Lemma column_max_spec (c : list Q) (m : Q) :
  column_max c = Some m -> In m c /\ Forall (fun y => y <= m) c.
Proof.
  destruct c as [|x c]; simpl; [discriminate|]. intros E. injection E as <-.
  destruct (fold_qmax_spec c x) as (H1 & H2 & H3).
  split; [destruct H3; [left; auto | right; auto]|]. constructor; auto.
Qed.

Lemma expand_box_handles (corners : list point) :
  _expand_box corners
  = (x0 <- column_min (map fst corners) ;; y0 <- column_min (map snd corners) ;;
     x1 <- column_max (map fst corners) ;; y1 <- column_max (map snd corners) ;;
     Some (handles x0 y0 x1 y1)).
Proof. reflexivity. Qed.

Lemma expand_box_bounds (corners : list point) :
  corners <> [] ->
  exists x0 y0 x1 y1,
    _expand_box corners = Some (handles x0 y0 x1 y1) /\
    In x0 (map fst corners) /\ In y0 (map snd corners) /\
    In x1 (map fst corners) /\ In y1 (map snd corners) /\
    forall p, In p corners ->
              x0 <= fst p /\ fst p <= x1 /\ y0 <= snd p /\ snd p <= y1.
Proof.
  intros Hne.
  rewrite expand_box_handles.
  destruct corners as [|c corners]; [congruence|].
  destruct (column_min (map fst (c :: corners))) as [x0|] eqn:Ex0;
    [|discriminate].
  destruct (column_min (map snd (c :: corners))) as [y0|] eqn:Ey0;
    [|discriminate].
  destruct (column_max (map fst (c :: corners))) as [x1|] eqn:Ex1;
    [|discriminate].
  destruct (column_max (map snd (c :: corners))) as [y1|] eqn:Ey1;
    [|discriminate].
  apply column_min_spec in Ex0, Ey0. apply column_max_spec in Ex1, Ey1.
  destruct Ex0 as [I0 F0], Ey0 as [J0 G0], Ex1 as [I1 F1], Ey1 as [J1 G1].
  exists x0, y0, x1, y1. conj; auto.
  intros p Hp. rewrite Forall_forall in F0, G0, F1, G1. conj.
  - apply F0. apply in_map. exact Hp.
  - apply F1. apply in_map. exact Hp.
  - apply G0. apply in_map. exact Hp.
  - apply G1. apply in_map. exact Hp.
Qed.

(** X9.  [_expand_box] raises on an empty array of points ([min] of an empty
    column).  Otherwise it returns the nine handles of the bounding box of
    the points: the two corners take each coordinate from some point of the
    array, and every point lies between them. *)
Theorem expand_box_encloses (corners : list point) :
  (corners = [] -> _expand_box corners = None) /\
  (corners <> [] ->
   exists x0 y0 x1 y1,
     _expand_box corners = Some (handles x0 y0 x1 y1) /\
     In x0 (map fst corners) /\ In y0 (map snd corners) /\
     In x1 (map fst corners) /\ In y1 (map snd corners) /\
     forall p, In p corners ->
               x0 <= fst p /\ fst p <= x1 /\ y0 <= snd p /\ snd p <= y1).
Proof.
  split.
  - intros ->. reflexivity.
  - apply expand_box_bounds.
Qed.

Lemma qle_refl_bool (a : Q) : Qle_bool a a = true.
Proof. apply Qle_bool_iff. apply Qle_refl. Qed.

Lemma py_min_le_max (a b : Q) : Qle_bool (py_min a b) (py_max a b) = true.
Proof.
  unfold py_min, py_max.
  destruct (Qle_bool a b) eqn:E1, (Qle_bool b a) eqn:E2;
    auto using qle_refl_bool.
Qed.

Lemma py_max_le_min (a b : Q) :
  Qle_bool (py_max a b) (py_min a b) = true -> py_min a b = py_max a b.
Proof.
  unfold py_min, py_max.
  destruct (Qle_bool a b) eqn:E1, (Qle_bool b a) eqn:E2; auto; congruence.
Qed.

Lemma column_rectangle (mn mx : Q) :
  Qle_bool mn mx = true -> (Qle_bool mx mn = true -> mn = mx) ->
  column_min [mn; mx; mx; mn] = Some mn /\
  column_max [mn; mx; mx; mn] = Some mx.
Proof.
  intros H1 H2. unfold column_min, column_max, qmin, qmax. simpl.
  rewrite H1. rewrite ?H1, ?qle_refl_bool. rewrite ?H1, ?qle_refl_bool.
  split; [reflexivity|].
  destruct (Qle_bool mx mn) eqn:E; [rewrite H2; auto | reflexivity].
Qed.

(** X10.  The vertices that [_expand_rectangle] gives for two opposite
    corners are the four corner handles of their bounding box, and the
    vertices that [_expand_ellipse] gives are the four handles in the middle
    of its sides. *)
Theorem rectangle_box (c0 c1 : point) :
  exists box,
    _expand_box (_expand_rectangle c0 c1) = Some box /\
    take box [0; 2; 4; 6]%Z = Some (_expand_rectangle c0 c1) /\
    take box [1; 3; 5; 7]%Z = Some (_expand_ellipse c0 c1).
Proof.
  rewrite expand_box_handles. unfold _expand_rectangle.
  cbn [map fst snd].
  destruct (@column_rectangle (py_min (fst c0) (fst c1)) (py_max (fst c0) (fst c1)))
    as [-> Ex]; auto using py_min_le_max, py_max_le_min.
  assert (Ey0 : column_min [py_min (snd c0) (snd c1); py_min (snd c0) (snd c1);
                            py_max (snd c0) (snd c1); py_max (snd c0) (snd c1)]
                = Some (py_min (snd c0) (snd c1))).
  { unfold column_min, qmin. simpl.
    rewrite !qle_refl_bool, !py_min_le_max. reflexivity. }
  assert (Ey1 : column_max [py_min (snd c0) (snd c1); py_min (snd c0) (snd c1);
                            py_max (snd c0) (snd c1); py_max (snd c0) (snd c1)]
                = Some (py_max (snd c0) (snd c1))).
  { unfold column_max, qmax. simpl.
    rewrite !qle_refl_bool, !py_min_le_max, ?qle_refl_bool. reflexivity. }
  rewrite Ey0, Ex, Ey1.
  eexists. split; [reflexivity|]. split; reflexivity.
Qed.

Lemma py_min_comm (a b : Q) : py_min a b == py_min b a.
Proof.
  unfold py_min.
  destruct (Qle_bool a b) eqn:E1, (Qle_bool b a) eqn:E2; try reflexivity.
  - apply Qle_bool_iff in E1, E2. apply Qle_antisym; assumption.
  - apply qle_false in E1, E2. exfalso.
    apply (Qlt_irrefl a). eapply Qlt_trans; eauto.
Qed.

Lemma py_max_comm (a b : Q) : py_max a b == py_max b a.
Proof.
  unfold py_max.
  destruct (Qle_bool a b) eqn:E1, (Qle_bool b a) eqn:E2; try reflexivity.
  - apply Qle_bool_iff in E1, E2. apply Qle_antisym; assumption.
  - apply qle_false in E1, E2. exfalso.
    apply (Qlt_irrefl a). eapply Qlt_trans; eauto.
Qed.

(** X11.  [_expand_rectangle] and [_expand_ellipse] do not depend on which
    of the two opposite corners comes first. *)
Theorem expand_rectangle_corner_order (c0 c1 : point) :
  same_points (_expand_rectangle c0 c1) (_expand_rectangle c1 c0) /\
  same_points (_expand_ellipse c0 c1) (_expand_ellipse c1 c0).
Proof.
  pose proof (py_min_comm (fst c0) (fst c1)) as Hx0.
  pose proof (py_min_comm (snd c0) (snd c1)) as Hy0.
  pose proof (py_max_comm (fst c0) (fst c1)) as Hx1.
  pose proof (py_max_comm (snd c0) (snd c1)) as Hy1.
  unfold same_points, _expand_rectangle, _expand_ellipse, peq, pdiv, padd.
  split; repeat constructor; simpl; auto; qlra.
Qed.

Lemma handles_compat (x0 y0 x1 y1 x0' y0' x1' y1' : Q) :
  x0' == x0 -> y0' == y0 -> x1' == x1 -> y1' == y1 ->
  same_points (handles x0' y0' x1' y1') (handles x0 y0 x1 y1).
Proof.
  intros Hx0 Hy0 Hx1 Hy1.
  unfold same_points, handles, peq, pdiv, padd.
  repeat constructor; simpl; auto; qlra.
Qed.

Lemma handles_columns (x0 y0 x1 y1 : Q) :
  x0 <= x1 -> y0 <= y1 ->
  Forall (fun x => x0 <= x /\ x <= x1) (map fst (handles x0 y0 x1 y1)) /\
  Forall (fun y => y0 <= y /\ y <= y1) (map snd (handles x0 y0 x1 y1)).
Proof.
  intros Hx Hy. unfold handles, pdiv, padd.
  split; repeat constructor; simpl; qlra.
Qed.

(** X12.  The bounding box of the nine handles of a bounding box is that
    box again. *)
Theorem expand_box_idempotent (corners box : list point) :
  _expand_box corners = Some box ->
  exists box', _expand_box box = Some box' /\ same_points box' box.
Proof.
  intros E.
  destruct (@expand_box_bounds corners)
    as (x0 & y0 & x1 & y1 & E' & I0 & J0 & I1 & J1 & B).
  { intros ->. discriminate. }
  assert (Eb : box = handles x0 y0 x1 y1) by congruence. subst box.
  assert (Hx : x0 <= x1 /\ y0 <= y1).
  { destruct corners as [|p corners]; [discriminate|].
    destruct (B p (or_introl eq_refl)) as (A1 & A2 & A3 & A4).
    split; eapply Qle_trans; eauto. }
  destruct Hx as [Hx Hy].
  destruct (handles_columns Hx Hy) as [Cx Cy].
  rewrite Forall_forall in Cx, Cy.
  destruct (@expand_box_bounds (handles x0 y0 x1 y1))
    as (x0' & y0' & x1' & y1' & E2 & I0' & J0' & I1' & J1' & B').
  { discriminate. }
  exists (handles x0' y0' x1' y1'). split; [exact E2|].
  assert (Ptl : In (x0, y0) (handles x0 y0 x1 y1)) by (left; reflexivity).
  assert (Pbr : In (x1, y1) (handles x0 y0 x1 y1))
    by (do 4 right; left; reflexivity).
  destruct (B' _ Ptl) as (T1 & _ & T3 & _).
  destruct (B' _ Pbr) as (_ & U2 & _ & U4).
  cbn [fst snd] in *.
  apply handles_compat; apply Qle_antisym; auto.
  - apply (Cx _ I0').
  - apply (Cy _ J0').
  - apply (Cx _ I1').
  - apply (Cy _ J1').
Qed.

Lemma expand_box_idempotent_witness :
  _expand_box [(0, 0); (30, 40)] = Some (handles 0 0 30 40) /\
  exists box', _expand_box (handles 0 0 30 40) = Some box' /\
               same_points box' (handles 0 0 30 40).
Proof.
  assert (E : _expand_box [(0, 0); (30, 40)] = Some (handles 0 0 30 40))
    by reflexivity.
  split; [exact E|].
  exact (@expand_box_idempotent [(0, 0); (30, 40)] (handles 0 0 30 40) E).
Defined.

End BoxFacts.

(** ** Normals, ellipses and fans *)

Module GeometryFacts.

Import Float Stroke Ellipse EllipseFacts StrokeFacts.

Local Open Scope R_scope.

Ltac conj := repeat match goal with |- _ /\ _ => split end.

(** X13.  For two distinct points [segment_normal] returns a vector of
    length one, orthogonal to the segment, on the side that makes
    [cross(normal, b - a)] positive; the reversed segment has the opposite
    normal. *)
Theorem segment_normal_unit (a b : R * R) :
  a <> b ->
  exists n : R * R,
    segment_normal (fin a) (fin b) = fin n /\
    fst n * fst n + snd n * snd n = 1 /\
    fst n * (fst b - fst a) + snd n * (snd b - snd a) = 0 /\
    0 < fst n * (snd b - snd a) - snd n * (fst b - fst a) /\
    vopp (segment_normal (fin b) (fin a)) = fin n.
Proof.
  intros H. assert (H' : b <> a) by congruence.
  pose proof (seg_length_pos H) as L.
  exists (unit_normal a b). conj.
  - apply segment_normal_fin, H.
  - apply unit_normal_unit, H.
  - unfold unit_normal. cbn [fst snd]. field. lra.
  - rewrite normal_cross by exact H. exact L.
  - rewrite (segment_normal_fin H'). apply unit_normal_flip.
Qed.

Lemma segment_normal_unit_witness :
  (0, 0) <> (3, 4) /\
  exists n : R * R,
    segment_normal (fin (0, 0)) (fin (3, 4)) = fin n /\
    fst n * fst n + snd n * snd n = 1.
Proof.
  assert (H : (0, 0) <> (3, 4)) by (intros E; injection E; lra).
  split; [exact H|].
  destruct (@segment_normal_unit (0, 0) (3, 4) H) as (n & E & U & _).
  exists n. split; [exact E | exact U].
Defined.




Lemma fan_snoc (k : nat) :
  fan (S k) = fan k ++ [(0, Z.of_nat k + 1, Z.of_nat k + 2)%Z].
Proof. unfold fan. rewrite seq_S, map_app. reflexivity. Qed.

Lemma close_fan_snoc (l : list (Z * Z * Z)) (a b c : Z) :
  close_fan (l ++ [(a, b, c)]) = l ++ [(a, b, 1%Z)].
Proof.
  unfold close_fan. rewrite rev_app_distr. cbn [rev app].
  rewrite rev_involutive. reflexivity.
Qed.

Lemma fan_bound (k : nat) :
  Forall (tri_all (fun v => (0 <= v <= Z.of_nat k + 1)%Z)) (fan k).
Proof.
  unfold fan. rewrite Forall_map. rewrite Forall_forall. intros i Hi.
  apply in_seq in Hi. simpl. lia.
Qed.

(** X15.  The fill of an ellipse with [n >= 1] segments: closing the fan
    [[0, i+1, i+2]] onto vertex 1 gives [n] triangles that all index the
    [n + 1] points of the ellipse, the last one being [[0, n, 1]]; before the
    closing assignment the last triangle names the vertex [n + 1], which
    does not exist. *)
Theorem closed_fan_valid (n : nat) :
  (1 <= n)%nat ->
  length (close_fan (fan n)) = n /\
  Forall (tri_all (fun v => (0 <= v <= Z.of_nat n)%Z)) (close_fan (fan n)) /\
  nth_error (close_fan (fan n)) (n - 1) = Some (0, Z.of_nat n, 1)%Z /\
  nth_error (fan n) (n - 1) = Some (0, Z.of_nat n, Z.of_nat n + 1)%Z.
Proof.
  intros H. destruct n as [|k]; [lia|].
  rewrite fan_snoc, close_fan_snoc.
  assert (L : length (fan k) = k)
    by (unfold fan; rewrite length_map, length_seq; reflexivity).
  replace (S k - 1)%nat with k by lia.
  rewrite !nth_error_app2, L, Nat.sub_diag by lia.
  rewrite length_app, L. cbn [length nth_error].
  replace (Z.of_nat k + 1)%Z with (Z.of_nat (S k)) by lia.
  replace (Z.of_nat k + 2)%Z with (Z.of_nat (S k) + 1)%Z by lia.
  conj; try reflexivity; try lia.
  apply Forall_app. split.
  - pose proof (fan_bound k) as F.
    eapply Forall_impl; [|exact F]. intros [[a b] c]. simpl. lia.
  - repeat constructor; simpl; lia.
Qed.

Lemma closed_fan_valid_witness :
  (1 <= _ellipse_segments)%nat /\
  length fill_faces = _ellipse_segments /\
  Forall (tri_all (fun v => (0 <= v <= Z.of_nat _ellipse_segments)%Z))
         fill_faces.
Proof.
  assert (H : (1 <= _ellipse_segments)%nat) by (unfold _ellipse_segments; lia).
  split; [exact H|].
  destruct (@closed_fan_valid _ellipse_segments H) as (L & F & _).
  split; [exact L | exact F].
Defined.

End GeometryFacts.

(** ** What [path_triangulate] returns, corner by corner *)

Module StrokeCounts.

Import Float Stroke StrokeFacts.

Ltac conj := repeat match goal with |- _ /\ _ => split end.

Lemma py_get_of_nat A (l : list A) (k : nat) (x : A) :
  py_get l (Z.of_nat k) = Some x -> nth_error l k = Some x.
Proof.
  unfold py_get, py_index.
  destruct (Z.leb_spec 0 (Z.of_nat k)); [|lia].
  destruct (Z.ltb_spec (Z.of_nat k) (Z.of_nat (length l))); simpl.
  - rewrite Nat2Z.id. auto.
  - destruct (Z.ltb_spec (Z.of_nat k) 0); [lia|].
    rewrite andb_false_r. discriminate.
Qed.

Lemma bevelled_get (bevel : bool) (limit : fl) (p : prepared) (k : nat) ml :
  py_get (miter_lengths p) (Z.of_nat k) = Some ml ->
  bevelled bevel limit p k = bevel || fgt ml limit.
Proof.
  intros E. apply py_get_of_nat in E. unfold bevelled. rewrite E. reflexivity.
Qed.

Lemma join_length a b ray t1 t2 t2' : length (join a b ray t1 t2 t2') = 2%nat.
Proof. destruct (join_cases a b ray t1 t2 t2') as [-> | ->]; reflexivity. Qed.

Lemma join_valid (P : Z -> Prop) a b ray t1 t2 t2' :
  tri_all P t1 -> tri_all P t2 -> tri_all P t2' ->
  Forall (tri_all P) (join a b ray t1 t2 t2').
Proof.
  intros H1 H2 H3.
  destruct (join_cases a b ray t1 t2 t2') as [-> | ->]; repeat constructor; auto.
Qed.

Lemma valid_grows (vo extra : list (fl * fl)) (fs : list (Z * Z * Z)) :
  Forall (tri_all (fun v => (0 <= v < len vo)%Z)) fs ->
  Forall (tri_all (fun v => (0 <= v < len (vo ++ extra))%Z)) fs.
Proof.
  apply Forall_impl. intros [[a b] c]. rewrite len_app.
  pose proof (len_nonneg extra). simpl. lia.
Qed.

Ltac grow Cv L :=
  eapply Forall_impl; [|exact Cv]; intros [[? ?] ?]; simpl; rewrite ?L; lia.

Section Steps.

Variable closed bevel : bool.
Variable limit : fl.
Variable p : prepared.

Lemma step_first (st' : mesh) :
  step closed bevel limit p start 0 = Some st' ->
  counted closed bevel limit p 1 st'.
Proof.
  unfold step. cbn [vertex_offsets central_path faces m start].
  destruct (py_get (full_path p) 0) as [pt|]; [|discriminate].
  destruct (py_get (half_miters p) 0) as [mt|]; [|discriminate].
  destruct (py_get (miter_lengths p) 0) as [ml|] eqn:Eml; [|discriminate].
  pose proof (@bevelled_get bevel limit p 0 ml Eml) as B.
  assert (F : first_bevel closed bevel limit p
              = if (bevel || fgt ml limit) && closed then 1%nat else 0%nat)
    by (unfold first_bevel; rewrite B, andb_comm; reflexivity).
  cbn [Z.eqb].
  destruct ((bevel || fgt ml limit) && closed).
  - destruct (py_get (full_normals p) 0) as [nk|]; [|discriminate].
    intros E. injection E as <-.
    constructor; cbn [vertex_offsets central_path faces m bevels_below];
      rewrite ?F; unfold bevel_offsets, len; simpl; try lia.
    repeat constructor; lia.
  - intros E. injection E as <-.
    constructor; cbn [vertex_offsets central_path faces m bevels_below];
      rewrite ?F; unfold len; simpl; try lia.
    constructor.
Qed.

Lemma step_mid (st st' : mesh) (k : nat) :
  (1 <= k)%nat -> (S k < length (full_path p))%nat ->
  counted closed bevel limit p k st ->
  step closed bevel limit p st (Z.of_nat k) = Some st' ->
  counted closed bevel limit p (S k) st'.
Proof.
  intros Hk Hlast [Co Cc Cf Cm Cm0 Cv]. unfold step.
  destruct (py_get (full_path p) (Z.of_nat k)) as [pt|]; [|discriminate].
  destruct (py_get (half_miters p) (Z.of_nat k)) as [mt|]; [|discriminate].
  destruct (py_get (miter_lengths p) (Z.of_nat k)) as [ml|] eqn:Eml;
    [|discriminate].
  pose proof (@bevelled_get bevel limit p k ml Eml) as B.
  destruct (Z.eqb_spec (Z.of_nat k) 0); [lia|].
  destruct (Z.eqb_spec (Z.of_nat k) (len (full_path p) - 1));
    [unfold len in *; lia|].
  assert (Bk : bevels_below bevel limit p (S k)
               = (bevels_below bevel limit p k
                  + (if bevel || fgt ml limit then 1 else 0))%nat).
  { cbn [bevels_below]. rewrite B.
    destruct (Nat.leb_spec 1 k); [reflexivity | lia]. }
  destruct (bevel || fgt ml limit).
  - destruct (py_get (full_path p) (Z.of_nat k - 1)) as [prev|]; [|discriminate].
    destruct (py_get (full_normals p) (Z.of_nat k)) as [nk|]; [|discriminate].
    destruct (py_get _ (m st + 1)) as [a0|]; [|discriminate].
    destruct (py_get _ (m st + 3)) as [b0|]; [|discriminate].
    intros E. injection E as <-.
    assert (L : len (vertex_offsets st ++ bevel_offsets mt nk)
                = (len (vertex_offsets st) + 3)%Z)
      by (rewrite len_app; reflexivity).
    constructor; cbn [vertex_offsets central_path faces m];
      rewrite ?length_app, ?join_length, ?Bk, ?L; simpl; try lia.
    apply Forall_app. split; [grow Cv L|].
    apply Forall_app. split.
    + apply join_valid; simpl; rewrite ?L; lia.
    + repeat constructor; rewrite ?L; lia.
  - destruct (py_get (full_path p) (Z.of_nat k - 1)) as [prev|]; [|discriminate].
    destruct (py_get _ (m st + 1)) as [a0|]; [|discriminate].
    destruct (py_get _ (m st + 3)) as [b0|]; [|discriminate].
    intros E. injection E as <-.
    assert (L : len (vertex_offsets st ++ [vopp mt; mt])
                = (len (vertex_offsets st) + 2)%Z)
      by (rewrite len_app; reflexivity).
    constructor; cbn [vertex_offsets central_path faces m];
      rewrite ?length_app, ?join_length, ?Bk, ?L; simpl; try lia.
    apply Forall_app. split; [grow Cv L|].
    apply join_valid; simpl; rewrite ?L; lia.
Qed.

(** The last point appends two offsets and two centres on an open path and
    none on a closed one, and two triangles on both. *)
Lemma step_last (st st' : mesh) (k : nat) :
  (1 <= k)%nat -> S k = length (full_path p) ->
  counted closed bevel limit p k st ->
  step closed bevel limit p st (Z.of_nat k) = Some st' ->
  length (vertex_offsets st')
  = ((if closed then 0 else 2) + length (vertex_offsets st))%nat /\
  length (central_path st')
  = ((if closed then 0 else 2) + length (central_path st))%nat /\
  length (faces st') = (2 + length (faces st))%nat /\
  Forall (tri_all (fun v => (0 <= v < len (vertex_offsets st'))%Z)) (faces st').
Proof.
  intros Hk Hlast [Co Cc Cf Cm Cm0 Cv]. unfold step.
  destruct (py_get (full_path p) (Z.of_nat k)) as [pt|]; [|discriminate].
  destruct (py_get (half_miters p) (Z.of_nat k)) as [mt|]; [|discriminate].
  destruct (py_get (miter_lengths p) (Z.of_nat k)) as [ml|]; [|discriminate].
  destruct (Z.eqb_spec (Z.of_nat k) 0); [lia|].
  destruct (Z.eqb_spec (Z.of_nat k) (len (full_path p) - 1));
    [|unfold len in *; lia].
  destruct (py_get (full_path p) (Z.of_nat k - 1)) as [prev|]; [|discriminate].
  destruct closed.
  - destruct (py_get _ (m st + 1)) as [a0|]; [|discriminate].
    destruct (py_get _ 1) as [b0|]; [|discriminate].
    intros E. injection E as <-.
    cbn [vertex_offsets central_path faces m].
    rewrite ?length_app, ?join_length. conj; try lia.
    apply Forall_app. split; [exact Cv|].
    apply join_valid; simpl; lia.
  - destruct (py_get _ (m st + 1)) as [a0|]; [|discriminate].
    destruct (py_get _ (m st + 3)) as [b0|]; [|discriminate].
    intros E. injection E as <-.
    assert (L : len (vertex_offsets st ++ [vopp mt; mt])
                = (len (vertex_offsets st) + 2)%Z)
      by (rewrite len_app; reflexivity).
    cbn [vertex_offsets central_path faces m].
    rewrite ?length_app, ?join_length. simpl. conj; try lia.
    apply Forall_app. split; [grow Cv L|].
    apply join_valid; simpl; rewrite ?L; lia.
Qed.

Lemma loop_mid (n : nat) :
  forall (k : nat) (st st' : mesh),
    (1 <= k)%nat -> (k + n < length (full_path p))%nat ->
    counted closed bevel limit p k st ->
    loop closed bevel limit p st (zseq (Z.of_nat k) n) = Some st' ->
    counted closed bevel limit p (k + n) st'.
Proof.
  induction n as [|n IH]; intros k st st' Hk Hn C E.
  - cbn [zseq loop] in E. injection E as <-. rewrite Nat.add_0_r. exact C.
  - cbn [zseq loop] in E.
    destruct (step closed bevel limit p st (Z.of_nat k)) as [st1|] eqn:E1;
      [|discriminate].
    replace (Z.of_nat k + 1)%Z with (Z.of_nat (S k)) in E by lia.
    replace (k + S n)%nat with (S k + n)%nat by lia.
    apply (IH (S k) st1 st'); auto; try lia.
    apply (@step_mid st st1 k); auto. lia.
Qed.

Lemma zseq_snoc (k : Z) (n : nat) :
  zseq k (S n) = zseq k n ++ [(k + Z.of_nat n)%Z].
Proof.
  revert k; induction n as [|n IH]; intros k.
  - simpl. f_equal. lia.
  - change (zseq k (S (S n))) with (k :: zseq (k + 1) (S n)).
    rewrite IH. cbn [zseq app]. do 3 f_equal. lia.
Qed.

Lemma loop_app (l1 l2 : list Z) :
  forall st, loop closed bevel limit p st (l1 ++ l2)
             = (st1 <- loop closed bevel limit p st l1 ;;
                loop closed bevel limit p st1 l2).
Proof.
  induction l1 as [|i l1 IH]; intros st; cbn [app loop]; [reflexivity|].
  destruct (step closed bevel limit p st i); [apply IH | reflexivity].
Qed.

(** The whole loop, on a path of at least two points. *)
Lemma loop_counts (st' : mesh) :
  (2 <= length (full_path p))%nat ->
  loop closed bevel limit p start (zseq 0 (length (full_path p))) = Some st' ->
  let b0 := first_bevel closed bevel limit p in
  let B := bevels_below bevel limit p (length (full_path p) - 1) in
  let ends := (if closed then 0 else 2)%nat in
  (length (vertex_offsets st') + 2 = 2 * length (full_path p) + ends + b0 + B)%nat /\
  (length (central_path st') + 2 * B + 2
   = 2 * length (full_path p) + ends + b0)%nat /\
  (length (faces st') + 2 = 2 * length (full_path p) + b0 + B)%nat /\
  Forall (tri_all (fun v => (0 <= v < len (vertex_offsets st'))%Z)) (faces st').
Proof.
  intros H E.
  destruct (length (full_path p)) as [|[|n]] eqn:L; try lia.
  rewrite zseq_snoc in E. cbn [zseq] in E.
  rewrite loop_app in E. cbn [loop] in E.
  destruct (step closed bevel limit p start 0) as [st1|] eqn:E1; [|discriminate].
  change (0 + 1)%Z with (Z.of_nat 1) in E.
  destruct (loop closed bevel limit p st1 (zseq (Z.of_nat 1) n)) as [st2|] eqn:E2;
    [|discriminate].
  destruct (step closed bevel limit p st2 (0 + Z.of_nat (S n))) as [st3|] eqn:E3;
    [|discriminate].
  injection E as <-.
  pose proof (step_first E1) as C1.
  assert (C2 : counted closed bevel limit p (1 + n) st2)
    by (apply (@loop_mid n 1 st1 st2); auto; lia).
  change (0 + Z.of_nat (S n))%Z with (Z.of_nat (S n)) in E3.
  destruct (@step_last st2 st3 (S n)) as (Lo & Lc & Lf & V); auto; try lia.
  destruct C2 as [Co Cc Cf _ _ _]. cbn [Nat.add] in *.
  replace (S (S n) - 1)%nat with (S n) by lia.
  cbv zeta. rewrite Lo, Lc, Lf. conj; try exact V; destruct closed; lia.
Qed.

End Steps.

Lemma full_path_length (path : list (fl * fl)) (closed : bool) (p : prepared) :
  (2 <= length path)%nat -> prepare path closed = Some p ->
  length (full_path p) = (length path + if closed then 1 else 0)%nat.
Proof.
  intros H E. destruct closed.
  - destruct (@prepare_closed path) as (p' & E' & L & _); [lia|].
    assert (p' = p) by congruence. subst p'. lia.
  - destruct (@prepare_open path H) as (p' & E' & L & _).
    assert (p' = p) by congruence. subst p'. rewrite L. lia.
Qed.

(** [path_triangulate] on a path of at least two points, with what its loop
    has appended. *)
Lemma path_triangulate_counted (path : list (fl * fl)) (closed : bool)
      (limit : fl) (bevel : bool) :
  (2 <= length path)%nat ->
  exists p centers offsets triangles,
    prepare path closed = Some p /\
    path_triangulate path closed limit bevel
    = Some (centers, offsets, triangles) /\
    length offsets
    = (2 * length path + first_bevel closed bevel limit p
       + interior_bevels bevel limit p)%nat /\
    (length centers + 2 * interior_bevels bevel limit p
     = 2 * length path + first_bevel closed bevel limit p)%nat /\
    (length triangles + 2
     = 2 * length (full_path p) + first_bevel closed bevel limit p
       + interior_bevels bevel limit p)%nat /\
    Forall (tri_all (fun v => (0 <= v < len offsets)%Z)) triangles.
Proof.
  intros H.
  destruct (@path_triangulate_some path closed limit bevel H) as (r & E).
  pose proof E as E0. unfold path_triangulate in E0.
  destruct (prepare path closed) as [p|] eqn:Ep; [|discriminate].
  destruct (loop closed bevel limit p start (zseq 0 (length (full_path p))))
    as [st|] eqn:El; [|discriminate].
  injection E0 as <-.
  pose proof (@full_path_length path closed p H Ep) as L.
  destruct (@loop_counts closed bevel limit p st) as (Co & Cc & Cf & V);
    auto; [destruct closed; lia|].
  exists p, (central_path st), (vertex_offsets st), (faces st).
  unfold interior_bevels. conj; auto; destruct closed; lia.
Qed.

(** X16.  The sizes of what [path_triangulate] returns for a path of [N]
    points, open or closed: every point gives two offsets and two centres,
    except that a bevelled corner between the ends gives three offsets and
    no centre, and a bevelled first point of a closed path three of each.
    So there are as many centres as offsets only when no corner between the
    ends is bevelled. *)
Theorem stroke_counts (path : list (fl * fl)) (closed : bool) (limit : fl)
  (bevel : bool) :
  (2 <= length path)%nat ->
  exists p centers offsets triangles,
    prepare path closed = Some p /\
    path_triangulate path closed limit bevel
    = Some (centers, offsets, triangles) /\
    length offsets
    = (2 * length path + first_bevel closed bevel limit p
       + interior_bevels bevel limit p)%nat /\
    (length centers + 2 * interior_bevels bevel limit p
     = 2 * length path + first_bevel closed bevel limit p)%nat /\
    (length triangles + 2
     = 2 * length (full_path p) + first_bevel closed bevel limit p
       + interior_bevels bevel limit p)%nat /\
    (length centers = length offsets <-> interior_bevels bevel limit p = 0%nat).
Proof.
  intros H.
  destruct (@path_triangulate_counted path closed limit bevel H)
    as (p & c & o & t & Ep & E & Lo & Lc & Lt & _).
  exists p, c, o, t. conj; auto; lia.
Qed.

(** X17.  Every triangle that [path_triangulate] returns for a path of at
    least two points indexes a row of the offsets it returns, whatever the
    limit and the [bevel] flag. *)
Theorem stroke_triangles_valid (path : list (fl * fl)) (closed : bool)
  (limit : fl) (bevel : bool) :
  (2 <= length path)%nat ->
  exists centers offsets triangles,
    path_triangulate path closed limit bevel
    = Some (centers, offsets, triangles) /\
    Forall (tri_all (fun v => (0 <= v < len offsets)%Z)) triangles.
Proof.
  intros H.
  destruct (@path_triangulate_counted path closed limit bevel H)
    as (p & c & o & t & Ep & E & _ & _ & _ & V).
  exists c, o, t. split; [exact E | exact V].
Qed.

End StrokeCounts.

(** ** [_compute_meshes] *)

Module MeshFacts.

Import Float Stroke StrokeFacts StrokeCounts Meshes.

Local Open Scope R_scope.

Ltac conj := repeat match goal with |- _ /\ _ => split end.

Lemma bevels_below_le (bevel : bool) (limit : fl) (p : prepared) (k : nat) :
  (bevels_below bevel limit p k <= k - 1)%nat.
Proof.
  induction k as [|k IH]; cbn [bevels_below]; [lia|].
  destruct (Nat.leb_spec 1 k); cbn [andb]; [|lia].
  destruct (bevelled bevel limit p k); lia.
Qed.

Lemma broadcast_add_none (a b : list (fl * fl)) :
  length a <> length b -> length a <> 1%nat -> length b <> 1%nat ->
  broadcast_add fadd a b = None.
Proof.
  intros H Ha Hb. unfold broadcast_add.
  destruct (Nat.eqb_spec (length a) (length b)); [contradiction|].
  destruct a as [|x [|y a]], b as [|u [|v b]]; simpl in *;
    try reflexivity; congruence.
Qed.


Section Compute.

Variable triangulate : list (fl * fl) -> option (list (fl * fl) * list (Z * Z * Z)).

(** X18.  [_compute_meshes] with [edge=True] raises on every path of at
    least two points that has a bevelled corner between its ends (a miter
    longer than 5): [path_triangulate] returns fewer centres than offsets
    and [centers + thickness*offsets] cannot be formed.  Nothing has been
    appended at that point. *)
Theorem compute_meshes_sharp_corner (d : ShapesData) (points : list (fl * fl))
  (closed fill : bool) (t : fl) (idx : Z * Z)
  (fill_vertices : option (list (fl * fl)))
  (fill_faces : option (list (Z * Z * Z))) (p : prepared) :
  (2 <= length points)%nat ->
  prepare points closed = Some p ->
  (1 <= interior_bevels false (Fin 5) p)%nat ->
  _compute_meshes triangulate d points closed fill true t idx
                  fill_vertices fill_faces = None.
Proof.
  intros H Ep HB.
  destruct (@path_triangulate_counted points closed (Fin 5) false H)
    as (p' & c & o & tr & Ep' & E & Lo & Lc & Lt & _).
  assert (p' = p) by congruence. subst p'.
  pose proof (@full_path_length points closed p H Ep) as L.
  pose proof (bevels_below_le false (Fin 5) p (length (full_path p) - 1)) as Hle.
  fold (interior_bevels false (Fin 5) p) in Hle.
  unfold _compute_meshes. rewrite E.
  rewrite broadcast_add_none; [reflexivity | | |];
    rewrite ?length_map; unfold first_bevel in *;
    destruct closed; simpl in *; try lia;
    destruct (bevelled false (Fin 5) p 0); lia.
Qed.


End Compute.

(** The miter at the second point of [spike] is (5, -1), of length
    sqrt 26 > 5. *)
Lemma spike_bevelled (p : prepared) :
  prepare (map fin spike) false = Some p ->
  interior_bevels false (Fin 5) p = 1%nat.
Proof.
  intros Ep.
  assert (N0 : segment_normal (fin (0, 0)) (fin (1, 0)) = (Fin 0, Fin (-1))).
  { rewrite segment_normal_fin by (intros H; injection H; lra).
    unfold unit_normal, seg_length, fin. cbn [fst snd].
    match goal with |- context [sqrt ?e] => replace e with 1 by lra end.
    rewrite sqrt_1. f_equal; f_equal; lra. }
  assert (N1 : segment_normal (fin (1, 0)) (fin (-11, 5))
               = (Fin (5 / 13), Fin (12 / 13))).
  { rewrite segment_normal_fin by (intros H; injection H; lra).
    unfold unit_normal, seg_length, fin. cbn [fst snd].
    match goal with
    | |- context [sqrt ?e] => replace e with (13 * 13) by lra
    end.
    rewrite sqrt_square by lra. f_equal; f_equal; lra. }
  unfold prepare, spike in Ep.
  cbn [map py_get py_index length Z.of_nat Z.leb Z.ltb Z.compare Z.opp
       Pos.of_succ_nat Pos.succ Pos.compare Pos.compare_cont andb Z.add
       Z.pos_sub Z.to_nat Pos.to_nat Pos.iter_op Nat.add Pos.pred_double
       nth_error app on_pairs] in Ep.
  rewrite N0, N1 in Ep.
  cbn [negate_last rev app py_get py_index length Z.of_nat Z.leb Z.ltb
       Z.compare Pos.of_succ_nat Pos.succ andb Z.to_nat nth_error
       window_means normalise] in Ep.
  injection Ep as <-.
  unfold interior_bevels. cbn [full_path length Nat.sub bevels_below Nat.leb andb].
  unfold bevelled, miter_lengths. cbn [miters map nth_error orb Nat.add].
  unfold mean2, vadd, vdiv, dot, norm, vopp. cbn [fst snd fadd fmul fopp].
  rewrite !fdiv_fin by lra. cbn [fst snd fadd fmul].
  rewrite !fdiv_fin by lra. cbn [fst snd fadd fmul].
  rewrite fsqrt_fin by (apply Rplus_le_le_0_compat; apply Rle_0_sqr).
  unfold fgt.
  match goal with |- context [Rlt_dec 5 ?x] => destruct (Rlt_dec 5 x) as [G|G] end;
    [reflexivity|].
  exfalso. apply G.
  match goal with
  | |- 5 < sqrt ?e => assert (S : e = 26) by field
  end.
  rewrite S.
  replace 5 with (sqrt (5 * 5)) at 1 by (apply sqrt_square; lra).
  apply sqrt_lt_1; lra.
Qed.

Lemma corner_no_bevel (p : prepared) :
  prepare (map fin corner) false = Some p ->
  interior_bevels false (Fin 5) p = 0%nat.
Proof.
  intros Ep.
  pose proof (@full_path_length (map fin corner) false p) as L.
  unfold interior_bevels. rewrite L by (simpl; auto).
  cbn [map corner length Nat.add Nat.sub bevels_below Nat.leb andb].
  unfold bevelled. cbn [orb].
  destruct (nth_error (miter_lengths p) 1) as [ml|] eqn:E; [|reflexivity].
  rewrite (@corner_within_limit p 1%nat ml Ep); [reflexivity | | exact E].
  simpl. lia.
Qed.

Lemma stroke_counts_witness :
  (2 <= length (map fin corner))%nat /\
  exists centers offsets triangles,
    path_triangulate (map fin corner) false (Fin 5) false
    = Some (centers, offsets, triangles) /\
    length centers = 6%nat /\ length offsets = 6%nat /\
    length triangles = 4%nat.
Proof.
  assert (H : (2 <= length (map fin corner))%nat) by (simpl; lia).
  split; [exact H|].
  destruct (@stroke_counts (map fin corner) false (Fin 5) false H)
    as (p & c & o & t & Ep & E & Lo & Lc & Lt & _).
  pose proof (corner_no_bevel Ep) as B.
  pose proof (@full_path_length (map fin corner) false p H Ep) as L.
  exists c, o, t. unfold first_bevel in *. simpl in *.
  split; [exact E|]. lia.
Defined.

Lemma stroke_triangles_valid_witness :
  (2 <= length (map fin spike))%nat /\
  exists centers offsets triangles,
    path_triangulate (map fin spike) false (Fin 5) true
    = Some (centers, offsets, triangles) /\
    Forall (tri_all (fun v => (0 <= v < len offsets)%Z)) triangles.
Proof.
  assert (H : (2 <= length (map fin spike))%nat) by (simpl; lia).
  split; [exact H|].
  exact (@stroke_triangles_valid (map fin spike) false (Fin 5) true H).
Defined.

Lemma compute_meshes_sharp_corner_witness :
  (2 <= length (map fin spike))%nat /\
  exists p,
    prepare (map fin spike) false = Some p /\
    (1 <= interior_bevels false (Fin 5) p)%nat /\
    _compute_meshes (fun _ => None)
      (mkShapesData (Fin 1) [] [] [] [] [] [] [] [] [] [])
      (map fin spike) false false true (Fin 1) (0, 3)%Z None None = None.
Proof.
  assert (H : (2 <= length (map fin spike))%nat) by (simpl; lia).
  split; [exact H|].
  destruct (@prepare_open (map fin spike) H) as (p & Ep & _).
  assert (B : (1 <= interior_bevels false (Fin 5) p)%nat)
    by (rewrite (spike_bevelled Ep); lia).
  exists p. split; [exact Ep|]. split; [exact B|].
  exact (@compute_meshes_sharp_corner (fun _ => None)
           (mkShapesData (Fin 1) [] [] [] [] [] [] [] [] [] [])
           (map fin spike) false false (Fin 1) (0, 3)%Z None None p H Ep B).
Defined.


End MeshFacts.

(** ** More of the layer *)

Module LayerMore.

Import Layer.

Local Open Scope Q_scope.

Ltac conj := repeat match goal with |- _ /\ _ => split end.

(** X20.  [_get_shape] returns [[1, 1]] for a layer without vertices, and
    otherwise a point that exceeds every vertex by at least one in both
    coordinates, and some vertex by exactly one in each. *)
Theorem get_shape_bounds (l : Shapes) :
  (_vertices (data l) = [] -> _get_shape l = (1, 1)) /\
  (forall v, In v (_vertices (data l)) ->
             fst v + 1 <= fst (_get_shape l) /\
             snd v + 1 <= snd (_get_shape l)) /\
  (_vertices (data l) <> [] ->
   (exists v, In v (_vertices (data l)) /\ fst (_get_shape l) = fst v + 1) /\
   (exists v, In v (_vertices (data l)) /\ snd (_get_shape l) = snd v + 1)).
Proof.
  unfold _get_shape. destruct (_vertices (data l)) as [|v0 rest].
  - split; [reflexivity|]. split; [intros v []|]. intros H. congruence.
  - destruct (BoxFacts.fold_qmax_spec (map fst rest) (fst v0)) as (X1 & X2 & X3).
    destruct (BoxFacts.fold_qmax_spec (map snd rest) (snd v0)) as (Y1 & Y2 & Y3).
    rewrite Forall_forall in X2, Y2. cbn [fst snd].
    split; [discriminate|]. split.
    + intros v [<-|H]; split; apply Qplus_le_l; auto;
        [apply X2 | apply Y2]; apply in_map; exact H.
    + intros _. split.
      * destruct X3 as [E|E].
        -- exists v0. rewrite E. split; [left|]; reflexivity.
        -- apply in_map_iff in E. destruct E as (v & E & Hv).
           exists v. rewrite <- E. split; [right; exact Hv | reflexivity].
      * destruct Y3 as [E|E].
        -- exists v0. rewrite E. split; [left|]; reflexivity.
        -- apply in_map_iff in E. destruct E as (v & E & Hv).
           exists v. rewrite <- E. split; [right; exact Hv | reflexivity].
Qed.

(** *** [np.unique] *)

Lemma insert_uniq_in (x y : Z) (l : list Z) :
  In y (insert_uniq x l) <-> y = x \/ In y l.
Proof.
  induction l as [|z l IH]; simpl.
  - intuition.
  - destruct (Z.ltb_spec x z); simpl; [intuition|].
    destruct (Z.eqb_spec x z); simpl; [subst; intuition|].
    rewrite IH. intuition.
Qed.

Lemma increasing_cons (x : Z) (l : list Z) :
  increasing l -> (forall y, In y l -> (x < y)%Z) -> increasing (x :: l).
Proof.
  destruct l as [|y l]; simpl; auto.
Qed.

Lemma increasing_head (x : Z) (l : list Z) :
  increasing (x :: l) -> increasing l /\ forall y, In y l -> (x < y)%Z.
Proof.
  revert x; induction l as [|z l IH]; intros x H; simpl in *.
  - split; [exact I | intros y []].
  - destruct H as [Hxz H]. split; [exact H|].
    destruct (IH z H) as [_ Hz].
    intros y [<-|Hy]; [exact Hxz|]. specialize (Hz y Hy). lia.
Qed.

Lemma insert_uniq_increasing (x : Z) (l : list Z) :
  increasing l -> increasing (insert_uniq x l).
Proof.
  induction l as [|z l IH]; intros H; [exact I|].
  cbn [insert_uniq].
  destruct (Z.ltb_spec x z).
  - apply increasing_cons; auto.
    destruct (@increasing_head z l H) as [_ Hz].
    intros y [<-|Hy]; [exact H0|]. specialize (Hz y Hy). lia.
  - destruct (Z.eqb_spec x z); [exact H|].
    destruct (@increasing_head z l H) as [Hl Hz].
    apply increasing_cons; auto.
    intros y Hy. apply insert_uniq_in in Hy. destruct Hy as [->|Hy]; [lia|auto].
Qed.

Lemma unique_spec (a : list Z) :
  increasing (unique a) /\ forall x, In x (unique a) <-> In x a.
Proof.
  induction a as [|y a [IH1 IH2]]; simpl.
  - split; [exact I | tauto].
  - split; [apply insert_uniq_increasing, IH1|].
    intros x. rewrite insert_uniq_in, IH2. intuition.
Qed.

Lemma mask_get_lengths A (mask : list bool) (a r : list A) :
  mask_get mask a = Some r -> length mask = length a.
Proof.
  revert a r; induction mask as [|b mask IH]; intros [|x a] r H;
    simpl in *; try discriminate; auto.
  destruct (mask_get mask a) as [r'|] eqn:E; [|discriminate].
  f_equal. eapply IH. exact E.
Qed.

Lemma triangle_corners_spec (mv : list (Q * Q)) (mt : list (Z * Z * Z)) cs :
  triangle_corners mv mt = Some cs ->
  Forall2 (fun t c => corners mv t = Some c) mt cs.
Proof.
  revert cs; induction mt as [|t mt IH]; intros cs H; simpl in H.
  - injection H as <-. constructor.
  - destruct (corners mv t) as [c|] eqn:Ec; [|discriminate].
    destruct (triangle_corners mv mt) as [cs'|]; [|discriminate].
    injection H as <-. constructor; auto.
Qed.

Lemma points_inside_any (lo hi : Q * Q) (c : (Q * Q) * (Q * Q) * (Q * Q)) :
  existsb (fun b => b) (points_inside lo hi c) = true <->
  pge hi (corner c 0) = true /\
  exists i, (i < 3)%nat /\ pge (corner c i) lo = true.
Proof.
  unfold points_inside. cbn [map existsb]. rewrite orb_false_r.
  destruct (pge hi (corner c 0)); cbn [andb orb].
  - split.
    + intros H. split; [reflexivity|].
      destruct (pge (corner c 0) lo) eqn:E0; [exists 0%nat; split; [lia | exact E0]|].
      destruct (pge (corner c 1) lo) eqn:E1; [exists 1%nat; split; [lia | exact E1]|].
      destruct (pge (corner c 2) lo) eqn:E2; [exists 2%nat; split; [lia | exact E2]|].
      discriminate.
    + intros [_ (i & Hi & E)].
      destruct i as [|[|[|i]]]; [| | | lia];
        rewrite E; simpl; rewrite ?orb_true_r; reflexivity.
  - split; [discriminate | intros [H _]; discriminate].
Qed.

(** X21.  What [_shapes_in_box] returns, as the code has it: the strictly
    increasing list of the shapes that have a mesh triangle whose corner 0
    lies below the upper corner of the bounding box of the two given points
    while some corner of that triangle lies above its lower corner. *)
Theorem shapes_in_box_exact (l : Shapes) (box : list (Q * Q)) (r : list Z) :
  _shapes_in_box l box = Some r ->
  exists b lo hi,
    _expand_box box = Some b /\
    nth_error b 0 = Some lo /\ nth_error b 4 = Some hi /\
    increasing r /\
    forall s, In s r <-> touches (data l) lo hi s.
Proof.
  unfold _shapes_in_box, create_box. intros H.
  destruct (_expand_box box) as [b|] eqn:Eb; [|discriminate].
  pose proof Eb as Eh. rewrite BoxFacts.expand_box_handles in Eh.
  destruct (column_min (map fst box)) as [x0|]; [|discriminate].
  destruct (column_min (map snd box)) as [y0|]; [|discriminate].
  destruct (column_max (map fst box)) as [x1|]; [|discriminate].
  destruct (column_max (map snd box)) as [y1|]; [|discriminate].
  injection Eh as <-.
  change (take (Box.handles x0 y0 x1 y1) [0; 4]%Z)
    with (Some [(x0, y0); (x1, y1)]) in H.
  cbv beta iota in H.
  change (py_get [(x0, y0); (x1, y1)] 0%Z) with (Some (x0, y0)) in H.
  change (py_get [(x0, y0); (x1, y1)] 1%Z) with (Some (x1, y1)) in H.
  cbv beta iota in H.
  destruct (triangle_corners (_mesh_vertices (data l)) (_mesh_triangles (data l)))
    as [cs|] eqn:Ec; [|discriminate].
  apply triangle_corners_spec in Ec.
  match type of H with
  | context [mask_get ?m ?a] => destruct (mask_get m a) as [shapes|] eqn:Em
  end; [|discriminate].
  injection H as <-.
  pose proof (mask_get_lengths _ _ Em) as Lm. rewrite length_map in Lm.
  rewrite HitFacts.mask_get_map in Em by exact Lm. injection Em as <-.
  exists (Box.handles x0 y0 x1 y1), (x0, y0), (x1, y1).
  destruct (unique_spec
              (map snd (filter (fun x => existsb (fun b => b)
                                           (points_inside (x0, y0) (x1, y1) (fst x)))
                               (combine cs (col0 (_mesh_triangles_index (data l)))))))
    as [U1 U2].
  conj; try reflexivity; [exact U1|].
  intros s. rewrite U2, in_map_iff. unfold touches. split.
  - intros ([c s'] & E & Hin). simpl in E. subst s'.
    apply filter_In in Hin. destruct Hin as [Hin Hf]. simpl in Hf.
    apply HitFacts.In_combine_nth in Hin. destruct Hin as (k & Hc & Hs).
    unfold col0 in Hs. rewrite nth_error_map in Hs.
    destruct (nth_error (_mesh_triangles_index (data l)) k) as [tg|] eqn:Et;
      [|discriminate].
    injection Hs as Hs.
    destruct (@HitFacts.Forall2_nth_error_r _ _ _ _ _ _ _ Ec Hc) as (t & Hk & Hcor).
    apply points_inside_any in Hf. destruct Hf as [Hhi Hlo].
    exists k, t, tg, c. conj; auto.
  - intros (k & t & tg & c & Hk & Ht & Hs & Hcor & Hhi & Hlo).
    destruct (@HitFacts.Forall2_nth_error _ _ _ _ _ _ _ Ec Hk) as (c' & Hc & Hcor').
    assert (c' = c) by congruence. subst c'.
    exists (c, s). split; [reflexivity|].
    apply filter_In. split.
    + apply HitFacts.In_combine_nth. exists k. split; [exact Hc|].
      unfold col0. rewrite nth_error_map, Ht. simpl. congruence.
    + simpl. apply points_inside_any. auto.
Qed.

Lemma shapes_in_box_exact_witness :
  _shapes_in_box (Demo.fresh Demo.one_line) [(20, 5); (25, 10)] = Some [0%Z] /\
  exists b lo hi,
    _expand_box [(20, 5); (25, 10)] = Some b /\
    nth_error b 0 = Some lo /\ nth_error b 4 = Some hi /\
    increasing [0%Z] /\
    forall s, In s [0%Z] <-> touches (data (Demo.fresh Demo.one_line)) lo hi s.
Proof.
  assert (E : _shapes_in_box (Demo.fresh Demo.one_line) [(20, 5); (25, 10)]
              = Some [0%Z]) by (vm_compute; reflexivity).
  split; [exact E|].
  exact (@shapes_in_box_exact (Demo.fresh Demo.one_line) [(20, 5); (25, 10)]
           [0%Z] E).
Defined.

Section Modes.

Variable remove : ShapesList Q (Q * Q * Q * Q) -> option Z
                  -> option (ShapesList Q (Q * Q * Q * Q)).
Variable edit : ShapesList Q (Q * Q * Q * Q) -> option Z -> list (Q * Q)
                -> option (ShapesList Q (Q * Q * Q * Q)).

Lemma mode_known (mode : string) :
  mode_attributes mode = None <-> ~ In mode modes.
Proof.
  unfold mode_attributes, modes. cbn [In].
  repeat match goal with
         | |- context [String.eqb mode ?s] =>
             destruct (String.eqb_spec mode s) as [->|?]
         end;
    split; intros H; try discriminate; try reflexivity;
    try (exfalso; apply H; tauto).
  intros [E|[E|[E|[E|[E|[E|[E|[E|[E|[E|[]]]]]]]]]]]; congruence.
Qed.

Lemma finish_drawing_error (l : Shapes) (msg : string) :
  snd (_finish_drawing remove edit l) <> Some (ValueError msg).
Proof.
  unfold _finish_drawing.
  match goal with
  | |- context [match ?r with Some _ => _ | None => _ end] =>
      destruct r as [d1|]; [|discriminate]
  end.
  match goal with
  | |- context [match ?r with Some _ => _ | None => _ end] =>
      destruct r as [d2|]; discriminate
  end.
Qed.

(** X22.  The [mode] setter raises its [ValueError] exactly when the mode
    is none of the ten it knows and differs from the current mode; the layer
    is then unchanged. *)
Theorem set_mode_value_error (l : Shapes) (mode : string) :
  ((exists msg, snd (set_mode remove edit l mode) = Some (ValueError msg))
   <-> mode <> _mode l /\ ~ In mode modes) /\
  (mode <> _mode l -> ~ In mode modes ->
   set_mode remove edit l mode
   = (l, Some (ValueError "Mode not recongnized"))).
Proof.
  unfold set_mode.
  destruct (String.eqb_spec mode (_mode l)) as [E|E].
  - split.
    + split.
      * intros [msg H]. discriminate.
      * intros [H _]. contradiction.
    + intros H. contradiction.
  - destruct (mode_attributes mode) as [[[cur inter] hlp]|] eqn:A.
    + assert (K : In mode modes).
      { destruct (in_dec string_dec mode modes) as [K|K]; [exact K|].
        apply mode_known in K. congruence. }
      split.
      * split.
        -- intros [msg H].
           destruct (vertex_editing mode && vertex_editing (_mode l));
             [discriminate|].
           exfalso. exact (finish_drawing_error _ H).
        -- intros [_ N]. contradiction.
      * intros _ N. contradiction.
    + apply mode_known in A. split.
      * split; [intros _; split; assumption|].
        intros _. eexists. reflexivity.
      * reflexivity.
Qed.

(** X23.  [_finish_drawing] that returns without an exception has nothing
    left to do: called again (a second [Escape]), it leaves the layer as it
    is. *)
Theorem finish_drawing_idempotent (l l' : Shapes) :
  _finish_drawing remove edit l = (l', None) ->
  _finish_drawing remove edit l' = (l', None).
Proof.
  unfold _finish_drawing at 1.
  match goal with
  | |- context [match ?r with Some _ => _ | None => _ end] =>
      destruct r as [d1|]; [|discriminate]
  end.
  match goal with
  | |- context [match ?r with Some _ => _ | None => _ end] =>
      destruct r as [d2|]; [|discriminate]
  end.
  intros H. injection H as <-.
  destruct l as [d o aa hl ss sst sb hs hst ds fv sv im db rc cr md cu ia he st].
  destruct hl;
    cbv beta iota zeta delta [_finish_drawing _unselect with_creating
      with_data reset_drag _highlight _creating _mode _selected_vertex data
      _opacity _apply_all _selected_shapes _selected_shapes_stored
      _selected_box _hover_shapes _hover_shapes_stored _drag_start
      _fixed_vertex _is_moving _drag_box _ready_to_create cursor interactive
      help status fst andb];
    reflexivity.
Qed.

End Modes.

(** *** The view *)

Lemma py_get_none A (a : list A) (z : Z) :
  py_get a z = None <-> ~ (- len a <= z < len a)%Z.
Proof.
  unfold py_get, py_index, len.
  destruct (Z.leb_spec 0 z) as [P1|P1],
           (Z.ltb_spec z (Z.of_nat (length a))) as [P2|P2];
    cbn [andb];
    try (destruct (Z.leb_spec (- Z.of_nat (length a)) z) as [P3|P3],
                  (Z.ltb_spec z 0) as [P4|P4]; cbn [andb]);
    try (split; [lia | reflexivity]); try lia;
    (split; [|lia]); intros N; apply nth_error_None in N; lia.
Qed.





(** *** The keyboard *)

Section Keyboard.

Variable remove : ShapesList Q (Q * Q * Q * Q) -> option Z
                  -> option (ShapesList Q (Q * Q * Q * Q)).
Variable edit : ShapesList Q (Q * Q * Q * Q) -> option Z -> list (Q * Q)
                -> option (ShapesList Q (Q * Q * Q * Q)).
Variable select_box : ShapesList Q (Q * Q * Q * Q) -> list Z
                      -> option (option (list (Q * Q))).
Variable _move : Keys -> Q * Q -> Keys * option exn.

(** [_finish_drawing] when there is no path or polygon in progress. *)
Lemma finish_drawing_idle (l : Shapes) :
  _creating l = false \/
  (_mode l <> "add_path"%string /\ _mode l <> "add_polygon"%string) ->
  exists l',
    _finish_drawing remove edit l = (l', None) /\
    data l' = data l /\ _mode l' = _mode l /\ _creating l' = false /\
    _selected_shapes l' = [] /\ _selected_vertex l' = (None, None).
Proof.
  intros H. unfold _finish_drawing. cbv zeta.
  assert (C1 : _creating (reset_drag l)
               && String.eqb (_mode (reset_drag l)) "add_path" = false).
  { cbn [reset_drag _creating _mode]. destruct H as [->|[H _]]; [reflexivity|].
    destruct (String.eqb_spec (_mode l) "add_path"); [contradiction|].
    apply andb_false_r. }
  rewrite C1. cbv beta iota.
  assert (C2 : _creating (with_data (reset_drag l) (data (reset_drag l)))
               && String.eqb (_mode (with_data (reset_drag l) (data (reset_drag l))))
                             "add_polygon" = false).
  { cbn [reset_drag with_data _creating _mode].
    destruct H as [->|[_ H]]; [reflexivity|].
    destruct (String.eqb_spec (_mode l) "add_polygon"); [contradiction|].
    apply andb_false_r. }
  rewrite C2. cbv beta iota.
  eexists; split; [reflexivity|].
  unfold _unselect. cbn [with_creating with_data reset_drag _highlight].
  destruct (_highlight l); cbn [with_creating with_data reset_drag data _mode
    _creating _selected_shapes _selected_vertex]; conj; reflexivity.
Qed.

(** The [mode] setter on a transition that calls [_finish_drawing] with no
    path or polygon in progress. *)
Lemma set_mode_idle (l : Shapes) (mode : string) :
  mode <> _mode l -> In mode modes ->
  vertex_editing mode && vertex_editing (_mode l) = false ->
  _creating l = false \/
  (mode <> "add_path"%string /\ mode <> "add_polygon"%string) ->
  exists l',
    set_mode remove edit l mode = (l', None) /\
    data l' = data l /\ _mode l' = mode /\ _creating l' = false /\
    _selected_shapes l' = [] /\ _selected_vertex l' = (None, None).
Proof.
  intros Hne Hin Hv Hc. unfold set_mode.
  destruct (String.eqb_spec mode (_mode l)); [contradiction|].
  destruct (mode_attributes mode) as [[[cur inter] hlp]|] eqn:A.
  - rewrite Hv.
    destruct (@finish_drawing_idle (with_mode l mode cur inter hlp))
      as (l' & E & Hd & Hm & Hcr & Hs & Hsv); [exact Hc|].
    exists l'. conj; auto.
  - apply mode_known in A. contradiction.
Qed.

(** X24.  Holding the space bar: from any mode other than [pan/zoom], the
    press of the key switches to [pan/zoom] and its release switches back to
    the mode and restores the selection, with the collection untouched; but
    the [creating] flag and the selected vertex are cleared, so a path or
    polygon that was being drawn is no longer in progress (and stays in the
    collection as it is). *)
Theorem space_round_trip (k : Keys) :
  _mode (layer k) <> "pan/zoom"%string ->
  In (_mode (layer k)) modes ->
  (_selected_shapes (layer k) = [] \/
   exists b, select_box (data (layer k)) (_selected_shapes (layer k)) = Some b) ->
  exists k1 k2,
    on_key_press remove edit select_box _move k false " "%string = (k1, None) /\
    _mode (layer k1) = "pan/zoom"%string /\
    on_key_release remove edit select_box _move k1 " "%string = (k2, None) /\
    _mode (layer k2) = _mode (layer k) /\
    _selected_shapes (layer k2) = _selected_shapes (layer k) /\
    data (layer k2) = data (layer k) /\
    _creating (layer k2) = false /\
    _selected_vertex (layer k2) = (None, None).
Proof.
  intros Hm Hin Hb.
  destruct (@set_mode_idle (layer k) "pan/zoom")
    as (l1 & E1 & D1 & M1 & C1 & S1 & V1); auto.
  { unfold modes. simpl. tauto. }
  { right. split; discriminate. }
  destruct (@set_mode_idle l1 (_mode (layer k)))
    as (l2 & E2 & D2 & M2 & C2 & S2 & V2); auto.
  { rewrite M1. exact Hm. }
  { rewrite M1. apply andb_false_r. }
  assert (R : exists l3,
             set_selected_shapes select_box l2 (_selected_shapes (layer k))
             = (l3, None) /\
             _mode l3 = _mode l2 /\
             _selected_shapes l3 = _selected_shapes (layer k) /\
             data l3 = data l2 /\ _creating l3 = _creating l2 /\
             _selected_vertex l3 = _selected_vertex l2).
  { unfold set_selected_shapes. rewrite D2, D1.
    destruct Hb as [E0|[b Hb]].
    - rewrite E0. eexists; split; [reflexivity|]. cbn; conj; reflexivity.
    - rewrite Hb.
      destruct (_selected_shapes (layer k)); eexists; (split; [reflexivity|]);
        cbn; conj; reflexivity. }
  destruct R as (l3 & E3 & M3 & S3 & D3 & C3 & V3).
  unfold on_key_press, on_key_release, on_layer.
  cbn [String.eqb Ascii.eqb Bool.eqb andb negb].
  destruct (String.eqb_spec (_mode (layer k)) "pan/zoom"); [contradiction|].
  cbn [negb]. rewrite E1. cbn [fst snd with_layer layer _mode_history
    _selected_shapes_history].
  eexists; eexists. split; [reflexivity|]. split; [exact M1|].
  cbn [layer _mode_history _selected_shapes_history with_layer].
  destruct (String.eqb_spec (_mode (layer k)) "pan/zoom"); [contradiction|].
  cbn [negb]. rewrite E2, E3. split; [reflexivity|].
  cbn [layer with_layer]. unfold _select.
  match goal with |- context [if ?c then _ else _] => destruct c end;
    cbn [_mode _selected_shapes data _creating _selected_vertex];
    conj; congruence.
Qed.

End Keyboard.

Lemma finish_drawing_idempotent_witness :
  exists l',
    _finish_drawing
      (fun d i => match i with Some i => remove_one d i true | None => None end)
      (fun d _ _ => Some d) Demo.drawing = (l', None) /\
    _finish_drawing
      (fun d i => match i with Some i => remove_one d i true | None => None end)
      (fun d _ _ => Some d) l' = (l', None).
Proof.
  eexists. split; [vm_compute; reflexivity|].
  apply (@finish_drawing_idempotent
           (fun d i => match i with Some i => remove_one d i true | None => None end)
           (fun d _ _ => Some d) Demo.drawing).
  vm_compute. reflexivity.
Defined.

Lemma space_round_trip_witness :
  _mode Demo.drawing <> "pan/zoom"%string /\
  In (_mode Demo.drawing) modes /\
  exists k1 k2,
    on_key_press (fun _ _ => None) (fun _ _ _ => None)
                 (fun _ _ => Some None) (fun k _ => (k, None))
                 (mkKeys Demo.drawing "pan/zoom" [] false 1 (0, 0)) false
                 " "%string = (k1, None) /\
    _mode (layer k1) = "pan/zoom"%string /\
    on_key_release (fun _ _ => None) (fun _ _ _ => None)
                   (fun _ _ => Some None) (fun k _ => (k, None)) k1
                   " "%string = (k2, None) /\
    _mode (layer k2) = "add_path"%string /\
    _selected_shapes (layer k2) = [0%Z] /\
    data (layer k2) = Demo.one_stub /\
    _creating (layer k2) = false /\
    _selected_vertex (layer k2) = (None, None).
Proof.
  split; [discriminate|]. split; [simpl; tauto|].
  apply (@space_round_trip (fun _ _ => None) (fun _ _ _ => None)
           (fun _ _ => Some None) (fun k _ => (k, None))
           (mkKeys Demo.drawing "pan/zoom" [] false 1 (0, 0))).
  - discriminate.
  - simpl. tauto.
  - right. exists None. reflexivity.
Defined.

End LayerMore.

(** ** The transformations of [ShapesData] *)

Module TransformFacts.

Import Float Meshes Transforms.

Ltac conj := repeat match goal with |- _ /\ _ => split end.

Lemma len_snoc A (pre : list A) (x : A) : len (pre ++ [x]) = (len pre + 1)%Z.
Proof. unfold len. rewrite length_app. simpl. lia. Qed.

Lemma py_index_mid (n m : nat) : py_index (n + S m) (Z.of_nat n) = Some n.
Proof.
  unfold py_index.
  destruct (Z.leb_spec 0 (Z.of_nat n)); [|lia].
  destruct (Z.ltb_spec (Z.of_nat n) (Z.of_nat (n + S m))); [|lia].
  simpl. rewrite Nat2Z.id. reflexivity.
Qed.

Lemma py_get_mid A (pre : list A) (x : A) (a : list A) :
  py_get (pre ++ x :: a) (len pre) = Some x.
Proof.
  unfold py_get, len. rewrite length_app. simpl length.
  rewrite py_index_mid. rewrite nth_error_app2 by lia.
  rewrite Nat.sub_diag. reflexivity.
Qed.

Lemma py_set_mid A (pre : list A) (x y : A) (a : list A) :
  py_set (pre ++ x :: a) (len pre) y = Some (pre ++ y :: a).
Proof.
  unfold py_set, len. rewrite length_app. simpl length.
  rewrite py_index_mid.
  rewrite firstn_app, Nat.sub_diag, firstn_all. simpl firstn.
  rewrite app_nil_r.
  replace (S (length pre)) with (length pre + 1)%nat by lia.
  rewrite skipn_app, skipn_all2 by lia.
  replace (length pre + 1 - length pre)%nat with 1%nat by lia.
  reflexivity.
Qed.

Lemma on_rows_length A (mask : list bool) (f : A -> A) (a : list A) :
  length (on_rows mask f a) = length a.
Proof.
  revert a; induction mask as [|b m IH]; intros [|x a]; simpl; auto.
Qed.

(** [a[np.where(mask)[0]] = f(a[np.where(mask)[0]])] for a mask as long as
    the array. *)
Lemma update_where_from A (f : A -> A) (mask : list bool) :
  forall (a pre : list A),
    length mask = length a ->
    exists x,
      Layer.take (pre ++ a) (where_from (len pre) mask) = Some x /\
      forall pre', length pre' = length pre ->
        put (pre' ++ a) (where_from (len pre') mask) (map f x)
        = Some (pre' ++ on_rows mask f a).
Proof.
  induction mask as [|b m IH]; intros [|x a] pre L; try discriminate.
  - exists []. split; [reflexivity|]. intros pre' _. reflexivity.
  - simpl in L. injection L as L.
    destruct (IH a (pre ++ [x]) L) as (xs & T & P).
    rewrite len_snoc, <- app_assoc in T. simpl in T.
    destruct b; cbn [where_from map put Layer.take on_rows].
    + exists (x :: xs). split.
      * rewrite py_get_mid, T. reflexivity.
      * intros pre' Lp. change (map f (x :: xs)) with (f x :: map f xs).
        cbv beta iota. rewrite py_set_mid.
        specialize (P (pre' ++ [f x])).
        rewrite len_snoc, <- !app_assoc in P. simpl in P.
        apply P. rewrite !length_app. simpl. lia.
    + exists xs. split; [exact T|].
      intros pre' Lp. specialize (P (pre' ++ [x])).
      rewrite len_snoc, <- !app_assoc in P. simpl in P.
      apply P. rewrite !length_app. simpl. lia.
Qed.

Lemma update_where A (f : A -> A) (mask : list bool) (a : list A) :
  length mask = length a ->
  update a (where_ mask) f = Some (on_rows mask f a).
Proof.
  intros L. destruct (update_where_from f mask a [] L) as (x & T & P).
  specialize (P [] eq_refl). cbn [app] in T, P.
  change (@len A []) with 0%Z in T, P.
  unfold update, where_. rewrite T. exact P.
Qed.

Lemma on_rows_none A (mask : list bool) (f : A -> A) (a : list A) :
  Forall (fun b => b = false) mask -> on_rows mask f a = a.
Proof.
  intros H; revert a; induction H as [|b m E _ IH]; intros [|x a]; simpl;
    auto.
  subst b. rewrite IH. reflexivity.
Qed.

Lemma on_rows_twice A (mask : list bool) (f g : A -> A) (a : list A) :
  on_rows mask g (on_rows mask f a) = on_rows mask (fun x => g (f x)) a.
Proof.
  revert a; induction mask as [|b m IH]; intros [|x a]; simpl; auto.
  rewrite IH. destruct b; reflexivity.
Qed.

Lemma on_rows_ext A (P : A -> Prop) (mask : list bool) (f g : A -> A)
  (a : list A) :
  Forall P a -> (forall x, P x -> f x = g x) ->
  on_rows mask f a = on_rows mask g a.
Proof.
  intros H E; revert mask; induction H as [|x a Hx _ IH]; intros [|b m];
    simpl; auto.
  rewrite IH. destruct b; [rewrite (E x Hx)|]; reflexivity.
Qed.

Lemma on_rows_id A (P : A -> Prop) (mask : list bool) (f : A -> A)
  (a : list A) :
  Forall P a -> (forall x, P x -> f x = x) -> on_rows mask f a = a.
Proof.
  intros H E; revert mask; induction H as [|x a Hx _ IH]; intros [|b m];
    simpl; auto.
  rewrite IH. destruct b; [rewrite (E x Hx)|]; reflexivity.
Qed.

Lemma on_rows_Forall A (P : A -> Prop) (mask : list bool) (f : A -> A)
  (a : list A) :
  Forall P a -> (forall x, P x -> P (f x)) -> Forall P (on_rows mask f a).
Proof.
  intros H E; revert mask; induction H as [|x a Hx Ha IH]; intros [|b m];
    simpl; auto.
  constructor; [destruct b; auto | apply IH].
Qed.

Lemma on_rows_nth A (mask : list bool) (f : A -> A) (a : list A) (k : nat)
  (x : A) :
  nth_error a k = Some x ->
  nth_error (on_rows mask f a) k
  = Some (match nth_error mask k with Some true => f x | _ => x end).
Proof.
  revert a k; induction mask as [|b m IH]; intros a k H.
  - destruct a; simpl; rewrite H; destruct k; reflexivity.
  - destruct a as [|y a]; [destruct k; discriminate|].
    destruct k; simpl in *.
    + injection H as <-. destruct b; reflexivity.
    + apply IH. exact H.
Qed.

Lemma on_row_split A (f : A -> A) (l1 l2 : list A) (x : A) :
  on_row (length l1) f (l1 ++ x :: l2) = l1 ++ f x :: l2.
Proof.
  unfold on_row.
  rewrite firstn_app, Nat.sub_diag, firstn_all. cbn [firstn].
  rewrite app_nil_r.
  rewrite !skipn_app, skipn_all, Nat.sub_diag.
  replace (skipn (S (length l1)) l1) with (@nil A)
    by (symmetry; apply skipn_all2; lia).
  replace (S (length l1) - length l1)%nat with 1%nat by lia.
  reflexivity.
Qed.

Lemma on_row_at A (k : nat) (f : A -> A) (a : list A) (x : A) :
  nth_error a k = Some x ->
  on_row k f a = firstn k a ++ f x :: skipn (S k) a.
Proof.
  intros H.
  destruct (nth_error_split a k H) as (l1 & l2 & -> & <-).
  rewrite on_row_split.
  rewrite firstn_app, Nat.sub_diag, firstn_all. cbn [firstn].
  rewrite app_nil_r.
  rewrite skipn_app.
  replace (skipn (S (length l1)) l1) with (@nil A)
    by (symmetry; apply skipn_all2; lia).
  replace (S (length l1) - length l1)%nat with 1%nat by lia.
  reflexivity.
Qed.

Lemma on_row_twice A (k : nat) (f g : A -> A) (a : list A) :
  on_row k g (on_row k f a) = on_row k (fun x => g (f x)) a.
Proof.
  destruct (nth_error a k) as [x|] eqn:H.
  - destruct (nth_error_split a k H) as (l1 & l2 & -> & <-).
    rewrite !on_row_split. reflexivity.
  - apply nth_error_None in H. unfold on_row.
    rewrite !(skipn_all2 a) by lia. cbn [firstn map app].
    rewrite !app_nil_r. rewrite (firstn_all2 a) by lia.
    rewrite !(skipn_all2 a) by lia. rewrite (firstn_all2 a) by lia.
    cbn [firstn map app]. rewrite app_nil_r. reflexivity.
Qed.

Lemma on_row_ext A (P : A -> Prop) (k : nat) (f g : A -> A) (a : list A) :
  Forall P a -> (forall x, P x -> f x = g x) -> on_row k f a = on_row k g a.
Proof.
  intros H E. unfold on_row. f_equal. f_equal.
  apply map_ext_in. intros x Hx. apply E.
  rewrite Forall_forall in H. apply H.
  rewrite <- (firstn_skipn k a). apply in_or_app. right.
  rewrite <- (firstn_skipn 1 (skipn k a)). apply in_or_app. left. exact Hx.
Qed.

Lemma on_row_id A (P : A -> Prop) (k : nat) (f : A -> A) (a : list A) :
  Forall P a -> (forall x, P x -> f x = x) -> on_row k f a = a.
Proof.
  intros H E. rewrite (@on_row_ext A P k f (fun x => x) a H E).
  unfold on_row. rewrite map_id.
  change (S k) with (1 + k)%nat. rewrite <- skipn_skipn.
  rewrite firstn_skipn. apply firstn_skipn.
Qed.

Lemma in_first A (k : nat) (a : list A) (x : A) :
  In x (firstn k a) -> In x a.
Proof.
  intros H. rewrite <- (firstn_skipn k a). apply in_or_app. left. exact H.
Qed.

Lemma in_rest A (k : nat) (a : list A) (x : A) :
  In x (skipn k a) -> In x a.
Proof.
  intros H. rewrite <- (firstn_skipn k a). apply in_or_app. right. exact H.
Qed.

Lemma on_row_Forall A (P : A -> Prop) (k : nat) (f : A -> A) (a : list A) :
  Forall P a -> (forall x, P x -> P (f x)) -> Forall P (on_row k f a).
Proof.
  intros H E. rewrite Forall_forall in *. intros y Hy. unfold on_row in Hy.
  apply in_app_or in Hy. destruct Hy as [Hy|Hy].
  - apply H. eapply in_first; eauto.
  - apply in_app_or in Hy. destruct Hy as [Hy|Hy].
    + apply in_map_iff in Hy. destruct Hy as (x & <- & Hx).
      apply E, H. eapply in_rest. eapply in_first. exact Hx.
    + apply H. eapply in_rest; eauto.
Qed.

Lemma on_row_length A (k : nat) (f : A -> A) (a : list A) :
  length (on_row k f a) = length a.
Proof.
  unfold on_row. rewrite !length_app, length_map, !length_firstn, !length_skipn.
  lia.
Qed.

Lemma position_index (n : nat) (i : Z) :
  (- Z.of_nat n <= i < Z.of_nat n)%Z ->
  py_index n i = Some (position n i) /\ (position n i < n)%nat.
Proof.
  intros H. unfold py_index, position.
  destruct (Z.ltb_spec i 0).
  - destruct (Z.leb_spec 0 i); [lia|]. simpl.
    destruct (Z.leb_spec (- Z.of_nat n) i); [|lia]. simpl.
    split; [reflexivity | lia].
  - destruct (Z.leb_spec 0 i); [|lia].
    destruct (Z.ltb_spec i (Z.of_nat n)); [|lia]. simpl.
    split; [reflexivity | lia].
Qed.

(** [_transform_shapes] with an index in range. *)
Lemma transform_closed (d : ShapesData) (t : fl * fl * fl * (fl * fl * fl))
  (i : Z) :
  shaped d ->
  (- len (boxes d) <= i < len (boxes d))%Z ->
  _transform_shapes d t i
  = Some (transformed d t i (position (length (boxes d)) i)).
Proof.
  intros S R. unfold _transform_shapes, _select_meshes.
  rewrite update_where by (rewrite length_map; apply (sh_mesh S)).
  rewrite update_where
    by (rewrite length_map, (sh_mesh S), (sh_centers S); reflexivity).
  rewrite update_where
    by (rewrite length_map, (sh_mesh S), (sh_offsets S); reflexivity).
  destruct (@position_index (length (boxes d)) i R) as [P L].
  unfold py_get, py_set. rewrite P.
  destruct (nth_error (boxes d) (position (length (boxes d)) i))
    as [box|] eqn:B; [|apply nth_error_None in B; lia].
  pose proof (sh_boxes S) as F. rewrite Forall_forall in F.
  rewrite (F box (nth_error_In _ _ B)). cbn [Nat.eqb negb].
  rewrite update_where by (rewrite length_map; apply (sh_vertices S)).
  unfold transformed. rewrite (@on_row_at _ _ (map (affine t)) _ _ B). reflexivity.
Qed.

Lemma transformed_shaped (d : ShapesData) (t : fl * fl * fl * (fl * fl * fl))
  (i : Z) (k : nat) :
  shaped d -> shaped (transformed d t i k).
Proof.
  intros S. constructor; cbn [transformed index vertices boxes _mesh_vertices
    _mesh_vertices_index _mesh_vertices_centers _mesh_vertices_offsets].
  - rewrite on_rows_length. apply (sh_vertices S).
  - rewrite on_rows_length. apply (sh_mesh S).
  - rewrite !on_rows_length. apply (sh_centers S).
  - rewrite !on_rows_length. apply (sh_offsets S).
  - apply on_row_Forall; [apply (sh_boxes S)|].
    intros b Hb. rewrite length_map. exact Hb.
Qed.

(** X26.  [_transform_shapes] for an integer index on arrays of matching
    lengths: it raises exactly when the index is outside
    [-len(boxes) .. len(boxes)-1]; otherwise it applies the transform to the
    mesh vertices, the centres and the vertices of the object, the
    transposed linear part to its offsets, and the transform to one box,
    and leaves every other row and the index arrays as they are.  A negative
    index selects no row of the object arrays, so that only the box counted
    from the end moves. *)
Theorem transform_shapes_rows (d : ShapesData)
  (t : fl * fl * fl * (fl * fl * fl)) (i : Z) :
  shaped d ->
  (_transform_shapes d t i = None
   <-> ~ (- len (boxes d) <= i < len (boxes d))%Z) /\
  ((- len (boxes d) <= i < len (boxes d))%Z ->
   _transform_shapes d t i
   = Some (transformed d t i (position (length (boxes d)) i)) /\
   shaped (transformed d t i (position (length (boxes d)) i))) /\
  ((- len (boxes d) <= i < 0)%Z ->
   Forall (fun r => 0 <= fst (fst r))%Z (_mesh_vertices_index d) ->
   Forall (fun j => 0 <= j)%Z (index d) ->
   _transform_shapes d t i
   = Some (mkShapesData (thickness d) (id d) (vertices d) (index d)
             (on_row (Z.to_nat (len (boxes d) + i)) (map (affine t))
                     (boxes d))
             (_mesh_vertices d) (_mesh_vertices_index d) (_mesh_faces d)
             (_mesh_faces_index d) (_mesh_vertices_centers d)
             (_mesh_vertices_offsets d))).
Proof.
  intros S. conj.
  - destruct (Z_le_dec (- len (boxes d)) i) as [A|A];
      [destruct (Z_lt_dec i (len (boxes d))) as [B|B]|].
    + rewrite transform_closed by (auto; lia). split; [discriminate|lia].
    + split; [lia|]. intros _. unfold _transform_shapes, _select_meshes.
      rewrite update_where by (rewrite length_map; apply (sh_mesh S)).
      rewrite update_where
        by (rewrite length_map, (sh_mesh S), (sh_centers S); reflexivity).
      rewrite update_where
        by (rewrite length_map, (sh_mesh S), (sh_offsets S); reflexivity).
      assert (G : py_get (boxes d) i = None)
        by (apply LayerMore.py_get_none; lia).
      rewrite G. reflexivity.
    + split; [lia|]. intros _. unfold _transform_shapes, _select_meshes.
      rewrite update_where by (rewrite length_map; apply (sh_mesh S)).
      rewrite update_where
        by (rewrite length_map, (sh_mesh S), (sh_centers S); reflexivity).
      rewrite update_where
        by (rewrite length_map, (sh_mesh S), (sh_offsets S); reflexivity).
      assert (G : py_get (boxes d) i = None)
        by (apply LayerMore.py_get_none; lia).
      rewrite G. reflexivity.
  - intros R. split; [apply transform_closed; auto|].
    apply transformed_shaped. exact S.
  - intros R Hm Hv. rewrite transform_closed by (auto; lia).
    unfold transformed, position, len.
    destruct (Z.ltb_spec i 0); [|lia].
    assert (M : Forall (fun b => b = false) (mesh_rows d i)).
    { unfold mesh_rows. rewrite Forall_map.
      eapply Forall_impl; [|exact Hm]. intros r Hr. cbv beta in *.
      apply Z.eqb_neq. lia. }
    assert (V : Forall (fun b => b = false) (vertex_rows d i)).
    { unfold vertex_rows. rewrite Forall_map.
      eapply Forall_impl; [|exact Hv]. intros r Hr. cbv beta in *.
      apply Z.eqb_neq. lia. }
    rewrite !(on_rows_none _ _ M), (on_rows_none _ _ V). reflexivity.
Qed.

(** *** Exact arithmetic on finite data *)

Local Open Scope R_scope.

Lemma affine_fin m p : affine (fmat m) (fin p) = fin (raffine m p).
Proof. destruct m as [[[a b] c] [[d e] f]]. reflexivity. Qed.

Lemma linear_fin m p : linear (fmat m) (fin p) = fin (rlinear m p).
Proof. destruct m as [[[a b] c] [[d e] f]]. reflexivity. Qed.

Lemma affine_finite m v : finite_vec v -> finite_vec (affine (fmat m) v).
Proof. intros [p ->]. rewrite affine_fin. eexists; reflexivity. Qed.

Lemma linear_finite m v : finite_vec v -> finite_vec (linear (fmat m) v).
Proof. intros [p ->]. rewrite linear_fin. eexists; reflexivity. Qed.

Lemma transformed_finite d m i k :
  finite d -> finite (transformed d (fmat m) i k).
Proof.
  intros F. constructor; cbn [transformed vertices boxes _mesh_vertices
    _mesh_vertices_centers _mesh_vertices_offsets].
  - apply on_rows_Forall; [apply (fin_vertices F) | apply affine_finite].
  - apply on_rows_Forall; [apply (fin_mesh F) | apply affine_finite].
  - apply on_rows_Forall; [apply (fin_centers F) | apply affine_finite].
  - apply on_rows_Forall; [apply (fin_offsets F) | apply linear_finite].
  - apply on_row_Forall; [apply (fin_boxes F)|].
    intros b Hb. rewrite Forall_map.
    eapply Forall_impl; [|exact Hb]. apply affine_finite.
Qed.

(** Two transforms in a row are the transform that composes them. *)
Lemma transformed_twice d m1 m2 m i k :
  finite d ->
  (forall p, raffine m2 (raffine m1 p) = raffine m p) ->
  (forall p, rlinear m2 (rlinear m1 p) = rlinear m p) ->
  transformed (transformed d (fmat m1) i k) (fmat m2) i k
  = transformed d (fmat m) i k.
Proof.
  intros F Ha Hl.
  assert (A : forall v, finite_vec v ->
                affine (fmat m2) (affine (fmat m1) v) = affine (fmat m) v).
  { intros v [p ->]. rewrite !affine_fin, Ha. reflexivity. }
  assert (L : forall v, finite_vec v ->
                linear (fmat m2) (linear (fmat m1) v) = linear (fmat m) v).
  { intros v [p ->]. rewrite !linear_fin, Hl. reflexivity. }
  unfold transformed, mesh_rows, vertex_rows.
  cbn [thickness id vertices index boxes _mesh_vertices _mesh_vertices_index
       _mesh_faces _mesh_faces_index _mesh_vertices_centers
       _mesh_vertices_offsets].
  rewrite !on_rows_twice, on_row_twice.
  f_equal.
  - apply (on_rows_ext (P := finite_vec)); [apply (fin_vertices F) | exact A].
  - apply (on_row_ext (P := Forall finite_vec)); [apply (fin_boxes F)|].
    intros b Hb. rewrite map_map. apply map_ext_in. intros v Hv.
    apply A. rewrite Forall_forall in Hb. auto.
  - apply (on_rows_ext (P := finite_vec)); [apply (fin_mesh F) | exact A].
  - apply (on_rows_ext (P := finite_vec)); [apply (fin_centers F) | exact A].
  - apply (on_rows_ext (P := finite_vec)); [apply (fin_offsets F) | exact L].
Qed.

Lemma transformed_id d m i k :
  finite d ->
  (forall p, raffine m p = p) -> (forall p, rlinear m p = p) ->
  transformed d (fmat m) i k = d.
Proof.
  intros F Ha Hl.
  assert (A : forall v, finite_vec v -> affine (fmat m) v = v).
  { intros v [p ->]. rewrite affine_fin, Ha. reflexivity. }
  assert (L : forall v, finite_vec v -> linear (fmat m) v = v).
  { intros v [p ->]. rewrite linear_fin, Hl. reflexivity. }
  destruct F as [Fv Fm Fc Fo Fb]. destruct d.
  unfold transformed, mesh_rows, vertex_rows.
  cbn [thickness id vertices index boxes _mesh_vertices _mesh_vertices_index
       _mesh_faces _mesh_faces_index _mesh_vertices_centers
       _mesh_vertices_offsets] in *.
  f_equal.
  - apply (on_rows_id (P := finite_vec)); auto.
  - apply (on_row_id (P := Forall finite_vec)); auto.
    intros b Hb. rewrite <- (map_id b) at 2. apply map_ext_in. intros v Hv.
    apply A. rewrite Forall_forall in Hb. auto.
  - apply (on_rows_id (P := finite_vec)); auto.
  - apply (on_rows_id (P := finite_vec)); auto.
  - apply (on_rows_id (P := finite_vec)); auto.
Qed.

Lemma transformed_boxes d t i k :
  length (boxes (transformed d t i k)) = length (boxes d).
Proof. cbn [transformed boxes]. apply on_row_length. Qed.

(** A method with a centre applies one affine map. *)
Lemma about_closed d m o i :
  shaped d -> finite d ->
  (- len (boxes d) <= i < len (boxes d))%Z ->
  about d (fmat m) (option_map fin o) i
  = Some (transformed d (fmat (centred m o)) i
            (position (length (boxes d)) i)).
Proof.
  intros S F R. destruct o as [[ox oy]|]; cbn [about option_map centred].
  - unfold shift_shapes.
    change ((Fin 1, Fin 0, fst (vopp (fin (ox, oy)))),
            (Fin 0, Fin 1, snd (vopp (fin (ox, oy)))))
      with (fmat ((1, 0, - ox), (0, 1, - oy))).
    rewrite transform_closed by auto.
    destruct m as [[[a b] c] [[e f] g]]. cbn [fmat].
    change ((Fin a, Fin b, fst (fin (ox, oy))),
            (Fin e, Fin f, snd (fin (ox, oy))))
      with (fmat ((a, b, ox), (e, f, oy))).
    rewrite transform_closed;
      [|apply transformed_shaped; exact S
       |unfold len; rewrite transformed_boxes; exact R].
    rewrite transformed_boxes. f_equal.
    apply (@transformed_twice d ((1, 0, - ox), (0, 1, - oy))
             ((a, b, ox), (e, f, oy))
             ((a, b, ox - (a * ox + b * oy)),
              (e, f, oy - (e * ox + f * oy))) i
             (position (length (boxes d)) i));
      [exact F| |];
      intros [x y]; unfold raffine, rlinear; cbn [fst snd]; f_equal; ring.
  - apply transform_closed; auto.
Qed.

Lemma shift_closed d (a : R * R) i :
  shaped d -> (- len (boxes d) <= i < len (boxes d))%Z ->
  shift_shapes d (fin a) i
  = Some (transformed d (fmat ((1, 0, fst a), (0, 1, snd a))) i
            (position (length (boxes d)) i)).
Proof. intros S R. unfold shift_shapes. apply transform_closed; auto. Qed.

Lemma transformed_undo d m1 m2 i k :
  finite d ->
  (forall p, raffine m2 (raffine m1 p) = p) ->
  (forall p, rlinear m2 (rlinear m1 p) = p) ->
  transformed (transformed d (fmat m1) i k) (fmat m2) i k = d.
Proof.
  intros F Ha Hl.
  rewrite (@transformed_twice d m1 m2 ((1, 0, 0), (0, 1, 0)) i k F).
  - apply transformed_id; [exact F| |]; intros [x y];
      unfold raffine, rlinear; cbn [fst snd]; f_equal; ring.
  - intros p. rewrite Ha. destruct p as [x y].
    unfold raffine; cbn [fst snd]; f_equal; ring.
  - intros p. rewrite Hl. destruct p as [x y].
    unfold rlinear; cbn [fst snd]; f_equal; ring.
Qed.

Lemma about_undo d m1 m2 o i :
  shaped d -> finite d ->
  (- len (boxes d) <= i < len (boxes d))%Z ->
  (forall p, raffine (centred m2 o) (raffine (centred m1 o) p) = p) ->
  (forall p, rlinear (centred m2 o) (rlinear (centred m1 o) p) = p) ->
  exists d1,
    about d (fmat m1) (option_map fin o) i = Some d1 /\
    about d1 (fmat m2) (option_map fin o) i = Some d.
Proof.
  intros S F R Ha Hl. eexists. split; [apply about_closed; auto|].
  rewrite about_closed;
    [|apply transformed_shaped; exact S
     |apply transformed_finite; exact F
     |unfold len; rewrite transformed_boxes; exact R].
  rewrite transformed_boxes. f_equal.
  apply transformed_undo; auto.
Qed.

(** X27.  In exact arithmetic, on finite data: two calls of [shift_shapes]
    on an object give what one call with the sum of the offsets gives, and
    the shift by the negated offset restores the data. *)
Theorem shift_shapes_compose (d : ShapesData) (a b : R * R) (i : Z) :
  shaped d -> finite d ->
  (- len (boxes d) <= i < len (boxes d))%Z ->
  exists d1,
    shift_shapes d (fin a) i = Some d1 /\
    shift_shapes d1 (fin b) i
    = shift_shapes d (fin (fst a + fst b, snd a + snd b)) i /\
    shift_shapes d1 (vopp (fin a)) i = Some d.
Proof.
  intros S F R. eexists. split; [apply shift_closed; auto|].
  set (d1 := transformed d (fmat ((1, 0, fst a), (0, 1, snd a))) i
               (position (length (boxes d)) i)).
  assert (S1 : shaped d1) by (apply transformed_shaped; exact S).
  assert (L1 : length (boxes d1) = length (boxes d))
    by apply transformed_boxes.
  assert (R1 : (- len (boxes d1) <= i < len (boxes d1))%Z)
    by (unfold len; rewrite L1; exact R).
  split.
  - rewrite !shift_closed by auto. rewrite L1. f_equal.
    apply transformed_twice; [exact F| |]; intros [x y];
      unfold raffine, rlinear; cbn [fst snd]; f_equal; ring.
  - change (vopp (fin a)) with (fin (- fst a, - snd a)).
    rewrite shift_closed by auto. rewrite L1. f_equal.
    apply transformed_undo; [exact F| |]; intros [x y];
      unfold raffine, rlinear; cbn [fst snd]; f_equal; ring.
Qed.

(** X28.  In exact arithmetic, on finite data, with or without a centre:
    each of the two flips is its own inverse, and [rotate_shapes] by the
    negated angle undoes [rotate_shapes]; vertices, mesh vertices, centres,
    offsets and the box are restored. *)
Theorem flip_rotate_undo (d : ShapesData) (o : option (R * R)) (angle : R)
  (i : Z) :
  shaped d -> finite d ->
  (- len (boxes d) <= i < len (boxes d))%Z ->
  (exists d1,
     flip_vertical_shapes d (option_map fin o) i = Some d1 /\
     flip_vertical_shapes d1 (option_map fin o) i = Some d) /\
  (exists d1,
     flip_horizontal_shapes d (option_map fin o) i = Some d1 /\
     flip_horizontal_shapes d1 (option_map fin o) i = Some d) /\
  (exists d1,
     rotate_shapes d (Fin angle) (option_map fin o) i = Some d1 /\
     rotate_shapes d1 (Fin (- angle)) (option_map fin o) i = Some d).
Proof.
  intros S F R. conj.
  - apply (@about_undo d ((-1, 0, 0), (0, 1, 0)) ((-1, 0, 0), (0, 1, 0))
             o i S F R);
      intros [x y]; destruct o as [[ox oy]|];
      unfold raffine, rlinear, centred; cbn [fst snd]; f_equal; ring.
  - apply (@about_undo d ((1, 0, 0), (0, -1, 0)) ((1, 0, 0), (0, -1, 0))
             o i S F R);
      intros [x y]; destruct o as [[ox oy]|];
      unfold raffine, rlinear, centred; cbn [fst snd]; f_equal; ring.
  - unfold rotate_shapes, radians. cbn [fmul fcos fsin fopp].
    replace (- angle * (PI / 180)) with (- (angle * (PI / 180))) by ring.
    rewrite cos_neg, sin_neg.
    set (t := angle * (PI / 180)).
    pose proof (sin2_cos2 t) as Q. unfold Rsqr in Q.
    apply (@about_undo d ((cos t, sin t, 0), (- sin t, cos t, 0))
             ((cos t, - sin t, 0), (- - sin t, cos t, 0)) o i S F R);
      intros [x y]; destruct o as [[ox oy]|];
      unfold raffine, rlinear, centred; cbn [fst snd]; f_equal.
    + transitivity (x + (sin t * sin t + cos t * cos t - 1) * (x - ox));
        [ring | rewrite Q; ring].
    + transitivity (y + (sin t * sin t + cos t * cos t - 1) * (y - oy));
        [ring | rewrite Q; ring].
    + transitivity (x + (sin t * sin t + cos t * cos t - 1) * x);
        [ring | rewrite Q; ring].
    + transitivity (y + (sin t * sin t + cos t * cos t - 1) * y);
        [ring | rewrite Q; ring].
    + transitivity (x + (sin t * sin t + cos t * cos t - 1) * x);
        [ring | rewrite Q; ring].
    + transitivity (y + (sin t * sin t + cos t * cos t - 1) * y);
        [ring | rewrite Q; ring].
    + transitivity (x + (sin t * sin t + cos t * cos t - 1) * x);
        [ring | rewrite Q; ring].
    + transitivity (y + (sin t * sin t + cos t * cos t - 1) * y);
        [ring | rewrite Q; ring].
Qed.

Lemma on_rows_nth_inv A (mask : list bool) (f : A -> A) (a : list A)
  (k : nat) (v : A) :
  nth_error (on_rows mask f a) k = Some v ->
  exists x, nth_error a k = Some x /\
            v = match nth_error mask k with Some true => f x | _ => x end.
Proof.
  intros H. destruct (nth_error a k) as [x|] eqn:E.
  - rewrite (@on_rows_nth A mask f a k x E) in H. injection H as <-.
    exists x. auto.
  - apply nth_error_None in E. rewrite <- (on_rows_length mask f a) in E.
    apply nth_error_None in E. congruence.
Qed.

Lemma nth_finite (a : list (fl * fl)) (k : nat) (v : fl * fl) :
  Forall finite_vec a -> nth_error a k = Some v -> finite_vec v.
Proof.
  intros F H. rewrite Forall_forall in F. apply F.
  eapply nth_error_In. exact H.
Qed.

(** A transform whose linear part is symmetric keeps the relation between
    mesh vertices, centres and offsets. *)
Lemma stroked_transformed d th m i k :
  finite d -> thickness d = Fin th -> stroked d ->
  snd (fst (fst m)) = fst (fst (snd m)) ->
  stroked (transformed d (fmat m) i k).
Proof.
  intros F T K Hs n v c o Hv Hc Ho.
  cbn [transformed _mesh_vertices _mesh_vertices_centers
       _mesh_vertices_offsets thickness] in *.
  apply on_rows_nth_inv in Hv. destruct Hv as (v0 & Ev & ->).
  apply on_rows_nth_inv in Hc. destruct Hc as (c0 & Ec & ->).
  apply on_rows_nth_inv in Ho. destruct Ho as (o0 & Eo & ->).
  pose proof (K n v0 c0 o0 Ev Ec Eo) as Q.
  destruct (nth_error (mesh_rows d i) n) as [[|]|]; try exact Q.
  destruct (@nth_finite _ n _ (fin_centers F) Ec) as [[cx cy] ->].
  destruct (@nth_finite _ n _ (fin_offsets F) Eo) as [[ox oy] ->].
  rewrite Q, T.
  destruct m as [[[a b] c] [[e f] g]]. cbn [fst snd] in Hs. subst e.
  unfold affine, linear, vadd, vscale, fin, fmat. cbn [fst snd fadd fmul].
  f_equal; f_equal; ring.
Qed.

Lemma about_stroked d th m o i :
  shaped d -> finite d -> thickness d = Fin th -> stroked d ->
  (- len (boxes d) <= i < len (boxes d))%Z ->
  snd (fst (fst m)) = fst (fst (snd m)) ->
  exists d', about d (fmat m) (option_map fin o) i = Some d' /\ stroked d'.
Proof.
  intros S F T K R Hs. eexists. split; [apply about_closed; auto|].
  apply (@stroked_transformed d th); auto.
  destruct o as [[ox oy]|]; [|exact Hs].
  destruct m as [[[a b] c] [[e f] g]]. exact Hs.
Qed.

(** X29.  In exact arithmetic, on finite data in which every mesh vertex is
    its centre plus [thickness] times its offset: [shift_shapes],
    [scale_shapes] and the two flips, with or without a centre, keep that
    relation. *)
Theorem symmetric_transforms_keep_strokes (d : ShapesData) (th : R) (i : Z)
  (o : option (R * R)) (s0 s1 : R) (a : R * R) :
  shaped d -> finite d -> thickness d = Fin th -> stroked d ->
  (- len (boxes d) <= i < len (boxes d))%Z ->
  (exists d', shift_shapes d (fin a) i = Some d' /\ stroked d') /\
  (exists d', scale_shapes d (Pair (Fin s0) (Fin s1)) (option_map fin o) i
              = Some d' /\ stroked d') /\
  (exists d', scale_shapes d (Scalar (Fin s0)) (option_map fin o) i
              = Some d' /\ stroked d') /\
  (exists d', flip_vertical_shapes d (option_map fin o) i = Some d' /\
              stroked d') /\
  (exists d', flip_horizontal_shapes d (option_map fin o) i = Some d' /\
              stroked d').
Proof.
  intros S F T K R. conj.
  - eexists. split; [apply shift_closed; auto|].
    apply (@stroked_transformed d th); auto.
  - apply (@about_stroked d th ((s0, 0, 0), (0, s1, 0)) o i); auto.
  - apply (@about_stroked d th ((s0, 0, 0), (0, s0, 0)) o i); auto.
  - apply (@about_stroked d th ((-1, 0, 0), (0, 1, 0)) o i); auto.
  - apply (@about_stroked d th ((1, 0, 0), (0, -1, 0)) o i); auto.
Qed.

(** X30.  [rotate_shapes] turns the mesh vertices and the centres of the
    object by the angle, and its offsets by the opposite angle (they are
    multiplied by the transform and not by its transpose): for a row whose
    vertex was [c + thickness * o], the new vertex is the new centre plus
    [thickness] times [o] turned by the angle, while the stored offset is
    [o] turned the other way. *)
Theorem rotate_shapes_turns_offsets_back (d : ShapesData) (angle th : R)
  (i : Z) (n : nat) (tag : Z * Z * Z) (c o : R * R) :
  shaped d ->
  (- len (boxes d) <= i < len (boxes d))%Z ->
  nth_error (_mesh_vertices_index d) n = Some tag -> fst (fst tag) = i ->
  nth_error (_mesh_vertices_centers d) n = Some (fin c) ->
  nth_error (_mesh_vertices_offsets d) n = Some (fin o) ->
  nth_error (_mesh_vertices d) n
  = Some (fin (fst c + th * fst o, snd c + th * snd o)) ->
  exists d',
    rotate_shapes d (Fin angle) None i = Some d' /\
    nth_error (_mesh_vertices_centers d') n
    = Some (fin (turn (angle * (PI / 180)) c)) /\
    nth_error (_mesh_vertices_offsets d') n
    = Some (fin (turn (- (angle * (PI / 180))) o)) /\
    nth_error (_mesh_vertices d') n
    = Some (fin (fst (turn (angle * (PI / 180)) c)
                 + th * fst (turn (angle * (PI / 180)) o),
                 snd (turn (angle * (PI / 180)) c)
                 + th * snd (turn (angle * (PI / 180)) o))).
Proof.
  intros S R Ht Hi Hc Ho Hv.
  unfold rotate_shapes, radians, about. cbn [fmul fcos fsin fopp].
  set (t := angle * (PI / 180)).
  rewrite transform_closed by auto.
  eexists. split; [reflexivity|].
  assert (M : nth_error (mesh_rows d i) n = Some true).
  { unfold mesh_rows. rewrite nth_error_map, Ht. cbn [option_map].
    rewrite Hi, Z.eqb_refl. reflexivity. }
  cbn [transformed _mesh_vertices _mesh_vertices_centers
       _mesh_vertices_offsets].
  rewrite (@on_rows_nth _ (mesh_rows d i) _ _ n _ Hc).
  rewrite (@on_rows_nth _ (mesh_rows d i) _ _ n _ Ho).
  rewrite (@on_rows_nth _ (mesh_rows d i) _ _ n _ Hv).
  rewrite M. destruct c as [cx cy], o as [ox oy].
  unfold affine, linear, turn, fin. cbn [fst snd fadd fmul].
  rewrite cos_neg, sin_neg.
  conj; f_equal; f_equal; f_equal; ring.
Qed.

(** The segment of the examples. *)
Lemma segment_shaped : shaped segment.
Proof.
  constructor; try reflexivity. repeat constructor.
Qed.

Lemma segment_finite : finite segment.
Proof.
  constructor; cbn;
    repeat (constructor; [try (eexists; reflexivity)|]);
    repeat (constructor; [try (eexists; reflexivity)|]); constructor.
Qed.

Lemma segment_stroked : stroked segment.
Proof.
  intros n v c o Hv Hc Ho.
  destruct n as [|[|[|[|n]]]]; cbn in Hv, Hc, Ho;
    try (destruct n; discriminate);
    injection Hv as <-; injection Hc as <-; injection Ho as <-;
    unfold vadd, vscale, fin; cbn [fst snd fadd fmul segment thickness];
    f_equal; f_equal; lra.
Qed.

Lemma segment_range : (- len (boxes segment) <= 0 < len (boxes segment))%Z.
Proof. unfold len. cbn. lia. Qed.

Lemma transform_shapes_rows_witness :
  shaped segment /\
  _transform_shapes segment (fmat ((1, 0, 2), (0, 1, 5))) 0
  = Some (transformed segment (fmat ((1, 0, 2), (0, 1, 5))) 0 0) /\
  _transform_shapes segment (fmat ((1, 0, 2), (0, 1, 5))) 1 = None.
Proof.
  split; [exact segment_shaped|].
  destruct (@transform_shapes_rows segment (fmat ((1, 0, 2), (0, 1, 5)))
              0%Z segment_shaped) as (_ & H & _).
  destruct (@transform_shapes_rows segment (fmat ((1, 0, 2), (0, 1, 5)))
              1%Z segment_shaped) as (N & _ & _).
  split.
  - exact (proj1 (H segment_range)).
  - apply N. unfold len. cbn. lia.
Defined.

Lemma shift_shapes_compose_witness :
  shaped segment /\ finite segment /\
  (- len (boxes segment) <= 0 < len (boxes segment))%Z /\
  exists d1,
    shift_shapes segment (fin (2, 5)) 0 = Some d1 /\
    shift_shapes d1 (fin (1, 1)) 0
    = shift_shapes segment (fin (fst (2, 5) + fst (1, 1),
                                 snd (2, 5) + snd (1, 1))) 0 /\
    shift_shapes d1 (vopp (fin (2, 5))) 0 = Some segment.
Proof.
  split; [exact segment_shaped|]. split; [exact segment_finite|].
  split; [exact segment_range|].
  exact (@shift_shapes_compose segment (2, 5) (1, 1) 0%Z segment_shaped
           segment_finite segment_range).
Defined.

Lemma flip_rotate_undo_witness :
  shaped segment /\ finite segment /\
  (- len (boxes segment) <= 0 < len (boxes segment))%Z /\
  exists d1,
    rotate_shapes segment (Fin 90) (option_map fin (Some (3, 0))) 0
    = Some d1 /\
    rotate_shapes d1 (Fin (- 90)) (option_map fin (Some (3, 0))) 0
    = Some segment.
Proof.
  split; [exact segment_shaped|]. split; [exact segment_finite|].
  split; [exact segment_range|].
  exact (proj2 (proj2 (@flip_rotate_undo segment (Some (3, 0)) 90 0%Z
                         segment_shaped segment_finite segment_range))).
Defined.

Lemma symmetric_transforms_keep_strokes_witness :
  shaped segment /\ finite segment /\ thickness segment = Fin 1 /\
  stroked segment /\
  (- len (boxes segment) <= 0 < len (boxes segment))%Z /\
  exists d',
    scale_shapes segment (Pair (Fin 2) (Fin 3)) (option_map fin (Some (3, 0)))
                 0 = Some d' /\
    stroked d'.
Proof.
  split; [exact segment_shaped|]. split; [exact segment_finite|].
  split; [reflexivity|]. split; [exact segment_stroked|].
  split; [exact segment_range|].
  exact (proj1 (proj2 (@symmetric_transforms_keep_strokes segment 1 0%Z
                         (Some (3, 0)) 2 3 (0, 0) segment_shaped
                         segment_finite eq_refl segment_stroked
                         segment_range))).
Defined.

Lemma rotate_shapes_turns_offsets_back_witness :
  shaped segment /\
  (- len (boxes segment) <= 0 < len (boxes segment))%Z /\
  nth_error (_mesh_vertices_index segment) 2 = Some (0, 0, 1)%Z /\
  nth_error (_mesh_vertices_centers segment) 2 = Some (fin (3, 0)) /\
  nth_error (_mesh_vertices_offsets segment) 2 = Some (fin (0, 1 / 2)) /\
  exists d',
    rotate_shapes segment (Fin 90) None 0 = Some d' /\
    nth_error (_mesh_vertices_offsets d') 2
    = Some (fin (turn (- (90 * (PI / 180))) (0, 1 / 2))) /\
    nth_error (_mesh_vertices d') 2
    = Some (fin (fst (turn (90 * (PI / 180)) (3, 0))
                 + 1 * fst (turn (90 * (PI / 180)) (0, 1 / 2)),
                 snd (turn (90 * (PI / 180)) (3, 0))
                 + 1 * snd (turn (90 * (PI / 180)) (0, 1 / 2)))).
Proof.
  split; [exact segment_shaped|]. split; [exact segment_range|].
  split; [reflexivity|]. split; [reflexivity|]. split; [reflexivity|].
  assert (V : nth_error (_mesh_vertices segment) 2
              = Some (fin (fst (3, 0) + 1 * fst (0, 1 / 2),
                           snd (3, 0) + 1 * snd (0, 1 / 2)))).
  { cbn. unfold fin. cbn [fst snd]. f_equal. f_equal; f_equal; lra. }
  destruct (@rotate_shapes_turns_offsets_back segment 90 1 0%Z 2%nat
              (0, 0, 1)%Z (3, 0) (0, 1 / 2) segment_shaped segment_range
              eq_refl eq_refl eq_refl eq_refl V)
    as (d' & E & _ & Ho & Hv).
  exists d'. split; [exact E|]. split; [exact Ho | exact Hv].
Defined.

End TransformFacts.
